(** * LEDGER: credit-note application and derived metrics

    A shallow embedding of the reconciliation core of the ledger
    application (the [stats] and [filteredEntries] derivations and the
    credit-note branch of [handleSubmitTransaction]) together with the
    properties its specification states about it.

    Conventions of the embedding.
    - A JavaScript [number] is a rational ([Q]) that stands for the
      binary64 value nearest to it ([toDouble]), as a decimal literal or a
      JSON number does. The arithmetic whose result is stored or decides a
      branch (the threshold and the balance of the credit-note engine, the
      totals of the invoice form) is binary64 arithmetic: operands read
      through [toDouble], the exact result rounded to nearest, ties to
      even. Comparisons are those of the rationals: [toDouble] is monotone,
      so they agree with the comparisons of the binary64 values unless the
      two sides round to one value. The sums that [stats] shows are taken
      exactly; their round-off is not modelled. The model has no NaN, no
      infinities and no negative zero.
    - A JavaScript string is a [string] of ASCII code units; case mapping,
      trimming and the letter test are those of ASCII.
    - An optional field [f?: T] is an [option T]; [undefined] is [None].
    - The array [updatedEntries] is a list read with [!!] and written with
      [alter]; an object reference into it is its index.
    - Platform services (date parsing, collation, currency formatting, the
      random identifier source) are parameters of the definitions. The
      collation that the source asks for is embedded as [naturalCompare],
      and the properties of the sorted view are stated for it; dates and
      currency have the instances [isoGetTime] and [formatINR], on which
      the examples run. *)

From Stdlib Require Import QArith Qabs Qround Qreduction Qpower Lqa ZArith Lia Ascii.
From stdpp Require Import base list strings sorting.

Local Open Scope string_scope.
Local Open Scope list_scope.

(** ** JavaScript value helpers *)

(** Truthiness of a string: every string but the empty one. *)
Definition truthyStr (s : string) : bool :=
  match s with EmptyString => false | String _ _ => true end.

(** Truthiness of an optional string ([undefined] and [''] are falsy). *)
Definition truthyOpt (o : option string) : bool :=
  match o with Some s => truthyStr s | None => false end.

(** [s || d] on a string and [x || d] on a number: the left operand when it
    is truthy (non-empty, non-zero), the right one otherwise. *)
Definition strOr (s d : string) : string := if truthyStr s then s else d.

Definition numOr (x d : Q) : Q := if Qeq_bool x 0 then d else x.

(** [s || ''] on an optional string. *)
Definition orEmpty (o : option string) : string :=
  match o with Some s => strOr s "" | None => "" end.

(** [x || 0] on an optional number. *)
Definition orZero (o : option Q) : Q :=
  match o with Some q => numOr q 0 | None => 0%Q end.

(** [x < y] on numbers. *)
Definition Qltb (x y : Q) : bool := negb (Qle_bool y x).

(** ** binary64 arithmetic

    A finite binary64 number is an integer of at most 53 bits times a power
    of two that is at least 2^-1074. *)

Definition pow2 (e : Z) : Q := (2 ^ e)%Q.

(** The integer nearest to [x], a half going to the even neighbour. *)
Definition roundHalfEven (x : Q) : Z :=
  let f := Qfloor x in
  match (x - inject_Z f ?= 1 # 2)%Q with
  | Lt => f
  | Gt => (f + 1)%Z
  | Eq => if Z.even f then f else (f + 1)%Z
  end.

(** The exponent [b] with [2^b <= x < 2^(b+1)] ([0 < x]). *)
Definition binade (x : Q) : Z :=
  let k := (Z.log2 (Qnum x) - Z.log2 (Z.pos (Qden x)))%Z in
  if Qltb x (pow2 k) then (k - 1)%Z else k.

(** The exponent of the last binary digit that binary64 keeps of [x]: 52
    places below the leading one, and never below -1074. *)
Definition expo (x : Q) : Z := Z.max (binade (Qabs x) - 52) (-1074).

(** The binary64 number nearest to [x], ties to even: [x] is rounded to a
    multiple of [2^(expo x)]. Magnitudes beyond the range of binary64 keep
    their 53 bits instead of becoming infinite. The result is in lowest
    terms. That it is a binary64 number, that none is nearer to [x] and that
    a tie goes to the even significand is shown below ([toDouble_isBinary64],
    [toDouble_nearest], [toDouble_ties_even]). *)
Definition toDouble (x : Q) : Q :=
  if Qeq_bool x 0 then 0%Q else
  Qred (inject_Z (roundHalfEven (x * pow2 (- expo x))) * pow2 (expo x)).

(** The finite binary64 numbers, without a bound on their magnitude. *)
Definition isBinary64 (y : Q) : Prop :=
  exists m e : Z,
    (Z.abs m <= 2 ^ 53)%Z /\ (-1074 <= e)%Z /\ (y == inject_Z m * pow2 e)%Q.

(** [x + y], [x - y] and [x * y] on numbers. *)
Definition numAdd (x y : Q) : Q := toDouble (toDouble x + toDouble y).

Definition numSub (x y : Q) : Q := toDouble (toDouble x - toDouble y).

Definition numMul (x y : Q) : Q := toDouble (toDouble x * toDouble y).

(** ** Strings: [toUpperCase], [trim], [includes], [/[A-Z]/.test] *)

Definition codeOf (c : ascii) : N := Ascii.N_of_ascii c.

Definition isLower (c : ascii) : bool :=
  ((97 <=? codeOf c) && (codeOf c <=? 122))%N.

Definition isUpper (c : ascii) : bool :=
  ((65 <=? codeOf c) && (codeOf c <=? 90))%N.

(** An alphabetic character, in either case. *)
Definition isAlpha (c : ascii) : bool := isLower c || isUpper c.

Definition upperChar (c : ascii) : ascii :=
  if isLower c then ascii_of_N (codeOf c - 32) else c.

Fixpoint toUpperCase (s : string) : string :=
  match s with
  | EmptyString => EmptyString
  | String c s' => String (upperChar c) (toUpperCase s')
  end.

(** White space and line terminators removed by [trim]. *)
Definition isWhite (c : ascii) : bool :=
  ((codeOf c =? 32) || ((9 <=? codeOf c) && (codeOf c <=? 13)))%N.

Fixpoint trimStart (s : string) : string :=
  match s with
  | EmptyString => EmptyString
  | String c s' => if isWhite c then trimStart s' else s
  end.

(** [trimEnd s]: drop the trailing white space; a suffix that is all white
    space collapses to the empty string. *)
Fixpoint trimEnd (s : string) : string :=
  match s with
  | EmptyString => EmptyString
  | String c s' =>
      match trimEnd s' with
      | EmptyString => if isWhite c then EmptyString else String c EmptyString
      | r => String c r
      end
  end.

Definition trim (s : string) : string := trimEnd (trimStart s).

(** [s.includes(c)] for a one-character needle. *)
Fixpoint includes (c : ascii) (s : string) : bool :=
  match s with
  | EmptyString => false
  | String d s' => if Ascii.eqb d c then true else includes c s'
  end.

(** [/[A-Z]/.test(s)]. *)
Fixpoint testAZ (s : string) : bool :=
  match s with
  | EmptyString => false
  | String d s' => isUpper d || testAZ s'
  end.

(** Some character of [s] is alphabetic. *)
Fixpoint hasAlpha (s : string) : bool :=
  match s with
  | EmptyString => false
  | String d s' => isAlpha d || hasAlpha s'
  end.

(** [s.startsWith(p)]. *)
Definition startsWith (s p : string) : bool := String.prefix p s.

(** ** Data model (types.ts) *)

Inductive EntryType := INVOICE | PAYMENT | CN.

Inductive Status := PENDING | PAID | ADJUSTED.

Module InvoiceItem.
Record t := mk {
  id : string;
  size : string;
  pattern : string;
  quantity : Q;
  unitPrice : Q
}.
End InvoiceItem.

Module LedgerEntry.
Record t := mk {
  id : string;
  type : EntryType;
  date : string;
  invoiceNo : string;
  size : option string;
  pattern : option string;
  quantity : option Q;
  unitPrice : option Q;
  invoiceAmount : option Q;
  items : option (list InvoiceItem.t);
  dueDate : option string;
  paymentAmount : option Q;
  cnAmount : option Q;
  status : option Status;
  originalRefId : option string;
  notes : option string
}.
End LedgerEntry.

Module Stats.
Record t := mk {
  totalInvoiced : Q;
  totalPaid : Q;
  totalCN : Q;
  outstanding : Q;
  qtyPcr : Q;
  qtyNylon : Q;
  qty2Wheeler : Q
}.
End Stats.

#[global] Instance EntryType_eq_dec : EqDecision EntryType.
Proof. solve_decision. Defined.

#[global] Instance Status_eq_dec : EqDecision Status.
Proof. solve_decision. Defined.

Definition isInvoice (e : LedgerEntry.t) : bool :=
  match LedgerEntry.type e with INVOICE => true | _ => false end.

Definition isPayment (e : LedgerEntry.t) : bool :=
  match LedgerEntry.type e with PAYMENT => true | _ => false end.

Definition isCN (e : LedgerEntry.t) : bool :=
  match LedgerEntry.type e with CN => true | _ => false end.

Definition isPendingStatus (o : option Status) : bool :=
  match o with Some PENDING => true | _ => false end.

(** ** [Array.prototype.sort]

    The sort of the language is stable, and it orders the array whenever the
    comparator is consistent; on such comparators every conforming engine
    returns the same array, which is the one the stable insertion sort
    below computes. A comparator result that is positive moves the left
    operand behind the right one. *)

Section JsSort.
Context {A : Type} (cmp : A -> A -> Z).

Fixpoint insertSorted (x : A) (l : list A) : list A :=
  match l with
  | [] => [x]
  | y :: l' => if (0 <? cmp x y)%Z then y :: insertSorted x l' else x :: l
  end.

Definition jsSort (l : list A) : list A := foldr insertSorted [] l.

End JsSort.

(** ** Metrics: the accumulators of [stats] *)

Module ItemLine.
(** What the category logic reads of an item: an element of [e.items], or
    the implicit item built from the legacy scalar fields. *)
Record t := mk {
  size : string;
  pattern : string;
  quantity : Q;
  unitPrice : Q
}.
End ItemLine.

Definition lineOf (it : InvoiceItem.t) : ItemLine.t :=
  ItemLine.mk (InvoiceItem.size it) (InvoiceItem.pattern it)
              (InvoiceItem.quantity it) (InvoiceItem.unitPrice it).

Module Acc.
(** The six counters of the scoped pass. *)
Record t := mk {
  totalInvoiced : Q;
  totalPaid : Q;
  totalCN : Q;
  qtyPcr : Q;
  qtyNylon : Q;
  qty2Wheeler : Q
}.
Definition zero : t := mk 0 0 0 0 0 0.
End Acc.

Module Global.
(** The three counters of the global pass. *)
Record t := mk {
  globalInvoiced : Q;
  globalPaid : Q;
  globalCN : Q
}.
Definition zero : t := mk 0 0 0.
End Global.

Definition char_R : ascii := "R"%char.
Definition char_D : ascii := "D"%char.

(** [const size = (item.size || '').toUpperCase().trim()]. *)
Definition normalizeSize (s : string) : string :=
  trim (toUpperCase (strOr s "")).

(** The body of [itemsToProcess.forEach]. *)
Definition itemStep (a : Acc.t) (item : ItemLine.t) : Acc.t :=
  let size := normalizeSize (ItemLine.size item) in
  let qty := numOr (ItemLine.quantity item) 0 in
  if truthyStr size then
    if includes char_R size then
      Acc.mk (Acc.totalInvoiced a) (Acc.totalPaid a) (Acc.totalCN a)
             (Acc.qtyPcr a + qty) (Acc.qtyNylon a) (Acc.qty2Wheeler a)
    else if includes char_D size then
      Acc.mk (Acc.totalInvoiced a) (Acc.totalPaid a) (Acc.totalCN a)
             (Acc.qtyPcr a) (Acc.qtyNylon a + qty) (Acc.qty2Wheeler a)
    else if negb (testAZ size) then
      Acc.mk (Acc.totalInvoiced a) (Acc.totalPaid a) (Acc.totalCN a)
             (Acc.qtyPcr a) (Acc.qtyNylon a) (Acc.qty2Wheeler a + qty)
    else a
  else a.

(** [e.items && e.items.length > 0 ? e.items : [{ size: e.size || '', ... }]]. *)
Definition itemsToProcess (e : LedgerEntry.t) : list ItemLine.t :=
  match LedgerEntry.items e with
  | Some (it :: its) => map lineOf (it :: its)
  | _ =>
      [ ItemLine.mk (orEmpty (LedgerEntry.size e))
                    (orEmpty (LedgerEntry.pattern e))
                    (orZero (LedgerEntry.quantity e))
                    (orZero (LedgerEntry.unitPrice e)) ]
  end.

(** The body of [filteredEntries.forEach] in [stats]. *)
Definition entryStep (a : Acc.t) (e : LedgerEntry.t) : Acc.t :=
  match LedgerEntry.type e with
  | INVOICE =>
      if negb (truthyOpt (LedgerEntry.originalRefId e)) then
        fold_left itemStep (itemsToProcess e)
          (Acc.mk (Acc.totalInvoiced a + orZero (LedgerEntry.invoiceAmount e))
                  (Acc.totalPaid a) (Acc.totalCN a)
                  (Acc.qtyPcr a) (Acc.qtyNylon a) (Acc.qty2Wheeler a))
      else a
  | PAYMENT =>
      Acc.mk (Acc.totalInvoiced a)
             (Acc.totalPaid a + orZero (LedgerEntry.paymentAmount e))
             (Acc.totalCN a) (Acc.qtyPcr a) (Acc.qtyNylon a) (Acc.qty2Wheeler a)
  | CN =>
      Acc.mk (Acc.totalInvoiced a) (Acc.totalPaid a)
             (Acc.totalCN a + orZero (LedgerEntry.cnAmount e))
             (Acc.qtyPcr a) (Acc.qtyNylon a) (Acc.qty2Wheeler a)
  end.

(** The body of [entries.forEach] in [stats]. *)
Definition globalStep (g : Global.t) (e : LedgerEntry.t) : Global.t :=
  match LedgerEntry.type e with
  | INVOICE =>
      if negb (truthyOpt (LedgerEntry.originalRefId e)) then
        Global.mk (Global.globalInvoiced g + orZero (LedgerEntry.invoiceAmount e))
                  (Global.globalPaid g) (Global.globalCN g)
      else g
  | PAYMENT =>
      Global.mk (Global.globalInvoiced g)
                (Global.globalPaid g + orZero (LedgerEntry.paymentAmount e))
                (Global.globalCN g)
  | CN =>
      Global.mk (Global.globalInvoiced g) (Global.globalPaid g)
                (Global.globalCN g + orZero (LedgerEntry.cnAmount e))
  end.

(** The two passes of [stats], over the view and over the whole list. *)
Definition computeStats (visible all : list LedgerEntry.t) : Stats.t :=
  let a := fold_left entryStep visible Acc.zero in
  let g := fold_left globalStep all Global.zero in
  let outstanding :=
    (Global.globalInvoiced g - Global.globalPaid g - Global.globalCN g)%Q in
  Stats.mk (Acc.totalInvoiced a) (Acc.totalPaid a) (Acc.totalCN a)
           outstanding
           (Acc.qtyPcr a) (Acc.qtyNylon a) (Acc.qty2Wheeler a).

(** ** Record updates of the credit-note engine *)

(** [e.status = st; e.notes = n] on a copy of [e]. *)
Definition setStatusNotes (e : LedgerEntry.t) (st : Status) (n : string)
  : LedgerEntry.t :=
  LedgerEntry.mk (LedgerEntry.id e) (LedgerEntry.type e) (LedgerEntry.date e)
    (LedgerEntry.invoiceNo e) (LedgerEntry.size e) (LedgerEntry.pattern e)
    (LedgerEntry.quantity e) (LedgerEntry.unitPrice e)
    (LedgerEntry.invoiceAmount e) (LedgerEntry.items e)
    (LedgerEntry.dueDate e) (LedgerEntry.paymentAmount e)
    (LedgerEntry.cnAmount e) (Some st) (LedgerEntry.originalRefId e) (Some n).

(** [status = 'PAID'; notes = (notes || '') + ' [Settled by CN]']. *)
Definition settle (e : LedgerEntry.t) : LedgerEntry.t :=
  setStatusNotes e PAID (orEmpty (LedgerEntry.notes e) +:+ " [Settled by CN]").

(** The balance-forward invoice: the spread of [tgt] with its overrides. *)
Definition balanceInvoice (tgt : LedgerEntry.t) (newId : string)
    (balanceAmount : Q) : LedgerEntry.t :=
  LedgerEntry.mk newId (LedgerEntry.type tgt) (LedgerEntry.date tgt)
    (LedgerEntry.invoiceNo tgt +:+ "-BAL")
    (Some "Balance Forward") (Some "-") (Some 1%Q) (Some balanceAmount)
    (Some balanceAmount) (Some []) (LedgerEntry.dueDate tgt)
    (LedgerEntry.paymentAmount tgt) (LedgerEntry.cnAmount tgt)
    (Some PENDING) (Some (LedgerEntry.id tgt))
    (Some ("Balance after CN adjustment on " +:+ LedgerEntry.invoiceNo tgt)).

(** The new credit-note entry. *)
Definition cnEntry (newId transDate : string) (amountVal : Q)
    (transNotes : string) : LedgerEntry.t :=
  LedgerEntry.mk newId CN transDate "CN-ADJ" None None None None None None
    None None (Some amountVal) None None (Some transNotes).

(** The new payment entry. *)
Definition paymentEntry (newId transDate : string) (amountVal : Q)
    (transNotes : string) : LedgerEntry.t :=
  LedgerEntry.mk newId PAYMENT transDate "-" None None None None None None
    None (Some amountVal) None None None (Some transNotes).

(** [entry.type === 'INVOICE' && entry.status === 'PENDING']. *)
Definition isPendingInvoice (e : LedgerEntry.t) : bool :=
  isInvoice e && isPendingStatus (LedgerEntry.status e).

(** The elements of an array paired with their positions: a reference to an
    object of the array is its position in it. *)
Definition indexed (l : list LedgerEntry.t) : list (nat * LedgerEntry.t) :=
  imap (fun i e => (i, e)) l.

(** [arr.findIndex(e => e.id === wanted)]; [None] stands for [-1]. *)
Definition findIndex (wanted : string) (l : list LedgerEntry.t) : option nat :=
  fst <$> list_find (fun e => LedgerEntry.id e = wanted) l.

(** The two kinds of transaction of the transaction form. *)
Inductive TransactionType := T_PAYMENT | T_CN.

Section Ledger.

(** [a.localeCompare(b, undefined, { numeric: true, sensitivity: 'base' })]:
    the collation of the host with these options. [naturalCompare] below is
    that collation on ASCII strings; what holds whatever the collation is
    stated for the variable. *)
Variable localeCompare : string -> string -> Z.

(** [new Date(s).getTime()]; [None] is the NaN of an unparsable date. *)
Variable getTime : string -> option Z.

(** [new Intl.NumberFormat('en-IN', { style: 'currency', currency: 'INR',
    maximumFractionDigits: 2 }).format(x)]. *)
Variable intlFormat : Q -> string.

(** utils: [formatCurrency]. *)
Definition formatCurrency (amount : option Q) : string :=
  match amount with
  | None => "-"
  | Some a => intlFormat a
  end.

(** *** Ordering and filtering *)

(** The comparator of [filteredEntries]. *)
Definition cmpEntries (a b : LedgerEntry.t) : Z :=
  if negb (String.eqb (LedgerEntry.date a) (LedgerEntry.date b)) then
    if String.ltb (LedgerEntry.date a) (LedgerEntry.date b) then (-1)%Z else 1%Z
  else
    localeCompare (strOr (LedgerEntry.invoiceNo a) "")
                  (strOr (LedgerEntry.invoiceNo b) "").

(** The entries kept by the month filter, before sorting. *)
Definition filterByMonth (entries : list LedgerEntry.t) (filterDate : string)
  : list LedgerEntry.t :=
  if truthyStr filterDate then
    filter (fun e => startsWith (LedgerEntry.date e) filterDate) entries
  else entries.

Definition filteredEntries (entries : list LedgerEntry.t) (filterDate : string)
  : list LedgerEntry.t :=
  jsSort cmpEntries (filterByMonth entries filterDate).

Definition stats (entries : list LedgerEntry.t) (filterDate : string)
  : Stats.t :=
  computeStats (filteredEntries entries filterDate) entries.

(** *** The credit-note engine *)

(** [new Date(a.date).getTime() - new Date(b.date).getTime()]; a NaN result
    is read by the sort as [+0]. *)
Definition cmpTime (a b : nat * LedgerEntry.t) : Z :=
  match getTime (LedgerEntry.date a.2), getTime (LedgerEntry.date b.2) with
  | Some x, Some y => (x - y)%Z
  | _, _ => 0%Z
  end.

(** [updatedEntries.filter(...).sort(...)]: references to the pending
    invoices, oldest first. *)
Definition pendingInvoices (updatedEntries : list LedgerEntry.t)
  : list (nat * LedgerEntry.t) :=
  jsSort cmpTime (filter (fun r => isPendingInvoice r.2) (indexed updatedEntries)).

(** [pendingInvoices[0]], when there is one. *)
Definition targetInvoice (entries : list LedgerEntry.t)
  : option (nat * LedgerEntry.t) :=
  head (pendingInvoices entries).

(** [status = 'ADJUSTED'; notes = (notes || '') + ' [Adj by CN <amount>]']. *)
Definition adjust (amountVal : Q) (e : LedgerEntry.t) : LedgerEntry.t :=
  setStatusNotes e ADJUSTED
    (orEmpty (LedgerEntry.notes e) +:+
       (" [Adj by CN " +:+ formatCurrency (Some amountVal) +:+ "]")).

(** The credit-note branch of [handleSubmitTransaction]: the list handed to
    [setEntries]. [cnId] and [balId] are the identifiers drawn from
    [generateId], in the order of the calls. [None] is the [TypeError] of
    writing through [updatedEntries[-1]]. *)
Definition applyCreditNote (entries : list LedgerEntry.t) (amountVal : Q)
    (transDate transNotes cnId balId : string) : option (list LedgerEntry.t) :=
  let cn := cnEntry cnId transDate amountVal transNotes in
  let remainingCN := amountVal in
  let updatedEntries := map (fun e => e) entries in
  match pendingInvoices updatedEntries with
  | (tRef, t0) :: _ =>
      if Qltb 0 remainingCN then
        match findIndex (LedgerEntry.id t0) updatedEntries with
        | None => None
        | Some invIndex =>
            let invAmount := orZero (LedgerEntry.invoiceAmount t0) in
            if Qltb (Qabs (numSub remainingCN invAmount)) (toDouble (1 # 100)) then
              Some (alter settle invIndex updatedEntries ++ [cn])
            else if Qltb remainingCN invAmount then
              let adjusted := alter (adjust amountVal) invIndex updatedEntries in
              let tgt := default t0 (adjusted !! tRef) in
              let balanceAmount := numSub invAmount remainingCN in
              Some ((adjusted ++ [balanceInvoice tgt balId balanceAmount]) ++ [cn])
            else
              Some (alter settle invIndex updatedEntries ++ [cn])
        end
      else Some (updatedEntries ++ [cn])
  | [] => Some (updatedEntries ++ [cn])
  end.

(** [handleSubmitTransaction]: the next value of [entries]; [newId] and
    [balId] are the identifiers drawn from [generateId]. *)
Definition handleSubmitTransaction (entries : list LedgerEntry.t)
    (editingId : option string) (transactionType : TransactionType)
    (transDate : string) (amountVal : Q) (transNotes : string)
    (newId balId : string) : option (list LedgerEntry.t) :=
  if truthyOpt editingId then
    Some (map (fun entry =>
      if String.eqb (LedgerEntry.id entry) (orEmpty editingId) then
        LedgerEntry.mk (LedgerEntry.id entry) (LedgerEntry.type entry) transDate
          (LedgerEntry.invoiceNo entry) (LedgerEntry.size entry)
          (LedgerEntry.pattern entry) (LedgerEntry.quantity entry)
          (LedgerEntry.unitPrice entry) (LedgerEntry.invoiceAmount entry)
          (LedgerEntry.items entry) (LedgerEntry.dueDate entry)
          (match transactionType with T_PAYMENT => Some amountVal | T_CN => None end)
          (match transactionType with T_CN => Some amountVal | T_PAYMENT => None end)
          (LedgerEntry.status entry) (LedgerEntry.originalRefId entry)
          (Some transNotes)
      else entry) entries)
  else
    match transactionType with
    | T_PAYMENT => Some (entries ++ [paymentEntry newId transDate amountVal transNotes])
    | T_CN => applyCreditNote entries amountVal transDate transNotes newId balId
    end.

End Ledger.

(** ** Instances of the platform parameters

    Concrete readings of the platform services: the parsing of ISO dates,
    the collation of invoice numbers and the formatting of rupee amounts. *)

Definition isDigit (c : ascii) : bool :=
  ((48 <=? codeOf c) && (codeOf c <=? 57))%N.

Definition digitOf (c : ascii) : option Z :=
  if isDigit c then Some (Z.of_N (codeOf c) - 48)%Z else None.

(** Days between 1970-01-01 and the civil date [y]-[m]-[d]. *)
Definition daysFromCivil (y m d : Z) : Z :=
  let y' := (if m <=? 2 then y - 1 else y)%Z in
  let era := (y' / 400)%Z in
  let yoe := (y' - era * 400)%Z in
  let mp := (if 2 <? m then m - 3 else m + 9)%Z in
  let doy := ((153 * mp + 2) / 5 + d - 1)%Z in
  let doe := (yoe * 365 + yoe / 4 - yoe / 100 + doy)%Z in
  (era * 146097 + doe - 719468)%Z.

(** An ISO calendar date [YYYY-MM-DD] read as UTC midnight, in
    milliseconds; any other string is unparsable. *)
Definition isoGetTime (s : string) : option Z :=
  match s with
  | String y1 (String y2 (String y3 (String y4 (String sep1
      (String m1 (String m2 (String sep2 (String d1 (String d2
        EmptyString))))))))) =>
      a ← digitOf y1; b ← digitOf y2; c ← digitOf y3; d ← digitOf y4;
      e ← digitOf m1; f ← digitOf m2; g ← digitOf d1; h ← digitOf d2;
      let y := (1000 * a + 100 * b + 10 * c + d)%Z in
      let m := (10 * e + f)%Z in
      let dd := (10 * g + h)%Z in
      if Ascii.eqb sep1 "-" && Ascii.eqb sep2 "-" &&
         (1 <=? m)%Z && (m <=? 12)%Z && (1 <=? dd)%Z && (dd <=? 31)%Z
      then Some (daysFromCivil y m dd * 86400000)%Z
      else None
  | _ => None
  end.

(** *** Collation

    [a.localeCompare(b, undefined, { numeric: true, sensitivity: 'base' })]
    on ASCII strings, in a host whose default locale collates in the root
    order of the Unicode collation algorithm, as English does. Sensitivity
    'base' compares primary weights only, so that letters compare without
    case; with [numeric] a run of decimal digits collates as the number it
    spells, after the white space and the punctuation and before the
    letters. Control characters are ignored; code units above 127 are
    outside the model and stand after the letters, and so are runs of more
    than 254 digits, which the algorithm cuts into pieces. *)

(** White space and punctuation in their collation order, by character
    code: tab, line feed, vertical tab, form feed, carriage return, space,
    then low line, hyphen, comma, semicolon, colon, exclamation mark,
    question mark, full stop, apostrophe, quotation mark, the round, square
    and curly brackets, commercial at, asterisk, solidus, reverse solidus,
    ampersand, number sign, percent sign, grave accent, circumflex, plus,
    less-than, equals, greater-than, vertical line, tilde, dollar. *)
Definition collationSymbols : list N :=
  [9; 10; 11; 12; 13; 32; 95; 45; 44; 59; 58; 33; 63; 46; 39; 34; 40; 41; 91; 93;
   123; 125; 64; 42; 47; 92; 38; 35; 37; 96; 94; 43; 60; 61; 62; 124; 126; 36]%N.

(** The primary rank of the digits, after the 38 symbols. *)
Definition digitRank : Z := 38.

(** The primary rank of a character that is not a digit; [None] for a
    character that collation ignores. *)
Definition primaryRank (c : ascii) : option Z :=
  if isAlpha c then Some (39 + Z.of_N (codeOf (upperChar c) - 65))%Z
  else
    match list_find (fun n => n = codeOf c) collationSymbols with
    | Some (i, _) => Some (Z.of_nat i)
    | None => if (128 <=? codeOf c)%N then Some (Z.of_N (codeOf c)) else None
    end.

(** The collation key: the primary ranks of the characters, a run of digits
    giving the rank of the digits followed by the value of the run. *)
Definition flushRun (run : option Z) : list Z :=
  match run with
  | Some n => [digitRank; n]
  | None => []
  end.

Fixpoint naturalKey (run : option Z) (s : string) : list Z :=
  match s with
  | EmptyString => flushRun run
  | String c s' =>
      if isDigit c then
        naturalKey (Some (10 * default 0 run + (Z.of_N (codeOf c) - 48))%Z) s'
      else
        flushRun run ++ option_list (primaryRank c) ++ naturalKey None s'
  end.

Fixpoint lexCompare (k1 k2 : list Z) : comparison :=
  match k1, k2 with
  | [], [] => Eq
  | [], _ :: _ => Lt
  | _ :: _, [] => Gt
  | x :: k1', y :: k2' =>
      match (x ?= y)%Z with
      | Eq => lexCompare k1' k2'
      | c => c
      end
  end.

(** The collation with numeric ordering and base sensitivity: keys compared
    rank by rank. *)
Definition naturalCompare (a b : string) : Z :=
  match lexCompare (naturalKey None a) (naturalKey None b) with
  | Lt => (-1)%Z
  | Eq => 0%Z
  | Gt => 1%Z
  end.

(** Decimal digits of a natural number, least significant first. *)
Fixpoint revDigits (fuel : nat) (n : N) : list ascii :=
  match fuel with
  | O => []
  | S fuel' =>
      let d := ascii_of_N (48 + n mod 10) in
      if (n <? 10)%N then [d] else d :: revDigits fuel' (n / 10)
  end.

(** Indian digit grouping on reversed digits: after the first three digits,
    a separator before every further pair. *)
Fixpoint groupPairs (l : list ascii) : list ascii :=
  match l with
  | a :: b :: rest =>
      match rest with
      | [] => [a; b]
      | _ :: _ => a :: b :: ","%char :: groupPairs rest
      end
  | _ => l
  end.

Definition groupIndian (l : list ascii) : list ascii :=
  match l with
  | a :: b :: c :: (_ :: _) as rest => a :: b :: c :: ","%char :: groupPairs rest
  | _ => l
  end.

(** Rupee amounts with two decimals, rounded half away from zero. *)
Definition formatINR (x : Q) : string :=
  let cents := ((2 * Z.abs (Qnum x) * 100 + Z.pos (Qden x)) / (2 * Z.pos (Qden x)))%Z in
  let whole := Z.to_N (cents / 100) in
  let frac := Z.to_N (cents mod 100) in
  let sign := if (Qnum x <? 0)%Z then "-" else "" in
  let intPart :=
    String.string_of_list_ascii (rev (groupIndian (revDigits (N.to_nat whole + 1) whole))) in
  let fracPart :=
    String.string_of_list_ascii [ascii_of_N (48 + frac / 10); ascii_of_N (48 + frac mod 10)] in
  sign +:+ "₹" +:+ intPart +:+ "." +:+ fracPart.

(** ** Definitions that follow the words of the specification *)

(** The category buckets. *)
Inductive Bucket := PCR | NYLON | TWO_WHEELER.

(** The bucket of a normalized size code: [R] first, then [D], then a
    non-empty code without any letter; no bucket otherwise. *)
Definition bucketOf (code : string) : option Bucket :=
  if includes char_R code then Some PCR
  else if includes char_D code then Some NYLON
  else if truthyStr code && negb (hasAlpha code) then Some TWO_WHEELER
  else None.

(** Adding a quantity to the counter of one bucket, or to none. *)
Definition addToBucket (b : option Bucket) (qty : Q) (a : Acc.t) : Acc.t :=
  match b with
  | Some PCR =>
      Acc.mk (Acc.totalInvoiced a) (Acc.totalPaid a) (Acc.totalCN a)
             (Acc.qtyPcr a + qty) (Acc.qtyNylon a) (Acc.qty2Wheeler a)
  | Some NYLON =>
      Acc.mk (Acc.totalInvoiced a) (Acc.totalPaid a) (Acc.totalCN a)
             (Acc.qtyPcr a) (Acc.qtyNylon a + qty) (Acc.qty2Wheeler a)
  | Some TWO_WHEELER =>
      Acc.mk (Acc.totalInvoiced a) (Acc.totalPaid a) (Acc.totalCN a)
             (Acc.qtyPcr a) (Acc.qtyNylon a) (Acc.qty2Wheeler a + qty)
  | None => a
  end.

(** The classification read on the size code as it is written: the letter
    R, in either case, makes it PCR; failing that the letter D, in either
    case, makes it nylon; failing that, a code without any letter that is
    not white space only is 2-wheeler; any other code has no bucket. *)
Fixpoint hasLetter (u : ascii) (s : string) : bool :=
  match s with
  | EmptyString => false
  | String c s' => Ascii.eqb (upperChar c) u || hasLetter u s'
  end.

Fixpoint allWhite (s : string) : bool :=
  match s with
  | EmptyString => true
  | String c s' => isWhite c && allWhite s'
  end.

Definition classify (code : string) : option Bucket :=
  if hasLetter char_R code then Some PCR
  else if hasLetter char_D code then Some NYLON
  else if hasAlpha code then None
  else if allWhite code then None
  else Some TWO_WHEELER.

(** A trimmed string neither starts nor ends with white space. *)
Definition startsWhite (s : string) : bool :=
  match s with EmptyString => false | String c _ => isWhite c end.

Fixpoint endsWhite (s : string) : bool :=
  match s with
  | EmptyString => false
  | String c EmptyString => isWhite c
  | String _ s' => endsWhite s'
  end.

(** An original sale: an invoice whose [originalRefId] is unset (falsy). *)
Definition isOriginalInvoice (e : LedgerEntry.t) : bool :=
  isInvoice e && negb (truthyOpt (LedgerEntry.originalRefId e)).

(** A balance-forward invoice: an invoice whose [originalRefId] is set. *)
Definition isBalanceForward (e : LedgerEntry.t) : bool :=
  isInvoice e && truthyOpt (LedgerEntry.originalRefId e).

(** The sum of a list of amounts, added from left to right from zero. *)
Definition sumL (l : list Q) : Q := fold_left Qplus l 0%Q.

(** The sum of a list of amounts as a mathematical sum. *)
Definition Qsum (l : list Q) : Q := foldr Qplus 0%Q l.

Definition invoicedAmounts (l : list LedgerEntry.t) : list Q :=
  map (fun e => orZero (LedgerEntry.invoiceAmount e)) (filter isOriginalInvoice l).

Definition paidAmounts (l : list LedgerEntry.t) : list Q :=
  map (fun e => orZero (LedgerEntry.paymentAmount e)) (filter isPayment l).

Definition cnAmounts (l : list LedgerEntry.t) : list Q :=
  map (fun e => orZero (LedgerEntry.cnAmount e)) (filter isCN l).

(** The quantity of the lines that the classification puts in one
    bucket. *)
Definition inClass (b : Bucket) (item : ItemLine.t) : bool :=
  match classify (ItemLine.size item), b with
  | Some PCR, PCR | Some NYLON, NYLON | Some TWO_WHEELER, TWO_WHEELER => true
  | _, _ => false
  end.

Definition classQty (b : Bucket) (lines : list ItemLine.t) : Q :=
  Qsum (map (fun item => numOr (ItemLine.quantity item) 0)
            (filter (inClass b) lines)).

(** No character of [s] is a lower-case letter. *)
Fixpoint noLower (s : string) : bool :=
  match s with
  | EmptyString => true
  | String c s' => negb (isLower c) && noLower s'
  end.

(** Every entry but the balance-forward invoices. *)
Definition notBalanceForward (e : LedgerEntry.t) : bool := negb (isBalanceForward e).

(** A comparator is consistent when the sign of its result is reversed by
    swapping its operands and "not after" is transitive. *)
Definition consistent {A : Type} (cmp : A -> A -> Z) : Prop :=
  (forall a b, (0 < cmp a b)%Z <-> (cmp b a < 0)%Z)
  /\ (forall a b c, (cmp a b <= 0)%Z -> (cmp b c <= 0)%Z -> (cmp a c <= 0)%Z).









(** The entries that a comparator does not tell apart from [x]. *)
Definition sameKey {A : Type} (cmp : A -> A -> Z) (x y : A) : bool :=
  (cmp x y =? 0)%Z.

(** [t], at position [i], is the earliest-dated pending invoice of the list:
    every pending invoice has a date that parses and is not before the date
    of [t], and those of the same date do not stand before [t]. *)
Definition isEarliestPending (getTime : string -> option Z)
    (entries : list LedgerEntry.t) (i : nat) (t : LedgerEntry.t) : Prop :=
  entries !! i = Some t
  /\ isPendingInvoice t = true
  /\ forall j e,
      entries !! j = Some e -> isPendingInvoice e = true ->
      exists x y,
        getTime (LedgerEntry.date t) = Some x
        /\ getTime (LedgerEntry.date e) = Some y
        /\ ((x < y)%Z \/ (x = y /\ i <= j)).

(** Two entries that differ at most in [status] and [notes]. *)
Definition sameButStatusNotes (e e' : LedgerEntry.t) : Prop :=
  e' = LedgerEntry.mk (LedgerEntry.id e) (LedgerEntry.type e)
         (LedgerEntry.date e) (LedgerEntry.invoiceNo e) (LedgerEntry.size e)
         (LedgerEntry.pattern e) (LedgerEntry.quantity e)
         (LedgerEntry.unitPrice e) (LedgerEntry.invoiceAmount e)
         (LedgerEntry.items e) (LedgerEntry.dueDate e)
         (LedgerEntry.paymentAmount e) (LedgerEntry.cnAmount e)
         (LedgerEntry.status e') (LedgerEntry.originalRefId e)
         (LedgerEntry.notes e').

(** ** The month choices: [availableMonths] *)

(** [months.add(x)] on a [Set], kept as the list of its elements in
    insertion order. *)
Definition setAdd (x : string) (s : list string) : list string :=
  if decide (x ∈ s) then s else s ++ [x].

(** The comparator of [sort()] without argument: strings by code units. *)
Definition defaultCompare (a b : string) : Z :=
  match String.compare a b with
  | Lt => (-1)%Z
  | Eq => 0%Z
  | Gt => 1%Z
  end.

(** The loop [entries.forEach(e => { if (e.date) months.add(...) })], from
    the set [acc]. *)
Definition collectMonths (entries : list LedgerEntry.t) (acc : list string)
  : list string :=
  fold_left (fun months e =>
               if truthyStr (LedgerEntry.date e)
               then setAdd (String.substring 0 7 (LedgerEntry.date e)) months
               else months)
            entries acc.

(** [Array.from(months).sort().reverse()]. *)
Definition availableMonths (entries : list LedgerEntry.t) : list string :=
  let months := collectMonths entries [] in
  reverse (jsSort defaultCompare months).

(** ** The invoice form *)

(** The two values of the status selector of the invoice form. *)
Inductive InvoiceStatus := IS_PENDING | IS_PAID.

Definition statusOf (s : InvoiceStatus) : Status :=
  match s with IS_PENDING => PENDING | IS_PAID => PAID end.

(** A field of a form row with its new value. *)
Inductive ItemField :=
| F_size (v : string)
| F_pattern (v : string)
| F_quantity (v : Q)
| F_unitPrice (v : Q).

(** [{ ...item, [field]: value }]. *)
Definition setField (item : ItemLine.t) (fv : ItemField) : ItemLine.t :=
  match fv with
  | F_size v =>
      ItemLine.mk v (ItemLine.pattern item) (ItemLine.quantity item)
                  (ItemLine.unitPrice item)
  | F_pattern v =>
      ItemLine.mk (ItemLine.size item) v (ItemLine.quantity item)
                  (ItemLine.unitPrice item)
  | F_quantity v =>
      ItemLine.mk (ItemLine.size item) (ItemLine.pattern item) v
                  (ItemLine.unitPrice item)
  | F_unitPrice v =>
      ItemLine.mk (ItemLine.size item) (ItemLine.pattern item)
                  (ItemLine.quantity item) v
  end.

(** [{ size: '', pattern: '', quantity: 1, unitPrice: 0 }]. *)
Definition blankItem : ItemLine.t := ItemLine.mk "" "" 1 0.

(** [handleInvoiceItemChange], for the index of a row of the form (the form
    passes the index of the row being typed in). *)
Definition handleInvoiceItemChange (newInvoiceItems : list ItemLine.t)
    (index : nat) (fv : ItemField) : list ItemLine.t :=
  alter (fun item => setField item fv) index newInvoiceItems.

Definition handleAddInvoiceItem (newInvoiceItems : list ItemLine.t)
  : list ItemLine.t :=
  newInvoiceItems ++ [blankItem].

(** [arr.filter((_, i) => i !== index)]. *)
Definition filterOutIndex {A : Type} (index : nat) (l : list A) : list A :=
  snd <$> filter (fun p : nat * A => p.1 <> index) (imap (fun i x => (i, x)) l).

Definition handleRemoveInvoiceItem (newInvoiceItems : list ItemLine.t)
    (index : nat) : list ItemLine.t :=
  if (1 <? length newInvoiceItems)%nat
  then filterOutIndex index newInvoiceItems
  else newInvoiceItems.

(** [Math.round] of a binary64 number: the nearest integer, halves
    upwards. *)
Definition mathRound (x : Q) : Q := inject_Z (Qfloor (x + (1 # 2))).

(** [finalItems]: the rows of the form, each with a fresh identifier; [gen k]
    is the identifier of the [k]-th call of [generateId]. *)
Definition finalItemsOf (gen : nat -> string) (newInvoiceItems : list ItemLine.t)
  : list InvoiceItem.t :=
  imap (fun k item =>
          InvoiceItem.mk (gen k) (ItemLine.size item) (ItemLine.pattern item)
                         (ItemLine.quantity item) (ItemLine.unitPrice item))
       newInvoiceItems.

(** [finalItems.reduce((sum, item) => sum + Number(item.quantity), 0)]. *)
Definition totalQuantityOf (finalItems : list InvoiceItem.t) : Q :=
  fold_left (fun sum item => numAdd sum (InvoiceItem.quantity item)) finalItems 0%Q.

(** [finalItems.reduce((sum, item) =>
      sum + (Number(item.quantity) * Number(item.unitPrice)), 0)]. *)
Definition rawTotalAmountOf (finalItems : list InvoiceItem.t) : Q :=
  fold_left (fun sum item =>
               numAdd sum (numMul (InvoiceItem.quantity item)
                                  (InvoiceItem.unitPrice item)))
            finalItems 0%Q.

Section InvoiceForm.

(** utils: [addDays]; [None] is the [RangeError] that [toISOString] raises
    on a date that does not parse. *)
Variable addDays : string -> Z -> option string.

(** The invoice written by the edit branch of [handleSubmitInvoice] over
    [entry]. *)
Definition updatedInvoice (entry : LedgerEntry.t) (invoiceDate invoiceNum : string)
    (invoiceStatus : InvoiceStatus) (finalItems : list InvoiceItem.t)
    (dueDate : string) : LedgerEntry.t :=
  LedgerEntry.mk (LedgerEntry.id entry) (LedgerEntry.type entry) invoiceDate
    invoiceNum
    (Some (String.concat ", " (map InvoiceItem.size finalItems)))
    (Some (String.concat ", " (map InvoiceItem.pattern finalItems)))
    (Some (totalQuantityOf finalItems))
    (LedgerEntry.unitPrice entry)
    (Some (mathRound (rawTotalAmountOf finalItems)))
    (Some finalItems) (Some dueDate)
    (LedgerEntry.paymentAmount entry) (LedgerEntry.cnAmount entry)
    (Some (statusOf invoiceStatus)) (LedgerEntry.originalRefId entry)
    (LedgerEntry.notes entry).

(** The invoice appended by the other branch. *)
Definition newInvoice (newId invoiceDate invoiceNum : string)
    (invoiceStatus : InvoiceStatus) (finalItems : list InvoiceItem.t)
    (dueDate : string) : LedgerEntry.t :=
  LedgerEntry.mk newId INVOICE invoiceDate invoiceNum
    (Some (String.concat ", " (map InvoiceItem.size finalItems)))
    (Some (String.concat ", " (map InvoiceItem.pattern finalItems)))
    (Some (totalQuantityOf finalItems))
    (Some 0%Q)
    (Some (mathRound (rawTotalAmountOf finalItems)))
    (Some finalItems) (Some dueDate)
    None None (Some (statusOf invoiceStatus)) None None.

(** [handleSubmitInvoice]: the next value of [entries], or [None] when
    [addDays] raises. The identifiers of the items are drawn first, then,
    for a new invoice, its own. *)
Definition handleSubmitInvoice (entries : list LedgerEntry.t)
    (editingId : option string) (invoiceDate invoiceNum : string)
    (invoiceStatus : InvoiceStatus) (newInvoiceItems : list ItemLine.t)
    (gen : nat -> string) : option (list LedgerEntry.t) :=
  let finalItems := finalItemsOf gen newInvoiceItems in
  if truthyOpt editingId then
    mapM (fun entry =>
            if String.eqb (LedgerEntry.id entry) (orEmpty editingId) then
              dueDate ← addDays invoiceDate 30;
              Some (updatedInvoice entry invoiceDate invoiceNum invoiceStatus
                                   finalItems dueDate)
            else Some entry)
         entries
  else
    dueDate ← addDays invoiceDate 30;
    Some (entries ++ [newInvoice (gen (length newInvoiceItems)) invoiceDate
                                 invoiceNum invoiceStatus finalItems dueDate]).

End InvoiceForm.

(** ** [handleEdit]: the form opened on an entry *)

Module InvoiceForm.
Record t := mk {
  editingId : option string;
  invoiceDate : string;
  invoiceNum : string;
  invoiceStatus : InvoiceStatus;
  newInvoiceItems : list ItemLine.t
}.
End InvoiceForm.

Module TransactionForm.
(** [transAmount] is the text of an amount in the source; it is kept here as
    the number it spells, [None] being the empty text. *)
Record t := mk {
  editingId : option string;
  transactionType : TransactionType;
  transDate : string;
  transAmount : option Q;
  transNotes : string
}.
End TransactionForm.

(** [Number(transAmount)]: the empty text reads as zero. *)
Definition numberOf (transAmount : option Q) : Q :=
  match transAmount with Some q => q | None => 0%Q end.

(** [x || 1] on an optional number. *)
Definition orOne (o : option Q) : Q :=
  match o with Some q => numOr q 1 | None => 1%Q end.

Definition handleEdit (entry : LedgerEntry.t) : InvoiceForm.t + TransactionForm.t :=
  match LedgerEntry.type entry with
  | INVOICE =>
      inl (InvoiceForm.mk
             (Some (LedgerEntry.id entry))
             (LedgerEntry.date entry)
             (LedgerEntry.invoiceNo entry)
             (match LedgerEntry.status entry with
              | Some PAID => IS_PAID
              | _ => IS_PENDING
              end)
             (match LedgerEntry.items entry with
              | Some (it :: its) => map lineOf (it :: its)
              | _ =>
                  [ ItemLine.mk (orEmpty (LedgerEntry.size entry))
                                (orEmpty (LedgerEntry.pattern entry))
                                (orOne (LedgerEntry.quantity entry))
                                (orZero (LedgerEntry.unitPrice entry)) ]
              end))
  | PAYMENT =>
      inr (TransactionForm.mk (Some (LedgerEntry.id entry)) T_PAYMENT
             (LedgerEntry.date entry) (LedgerEntry.paymentAmount entry)
             (orEmpty (LedgerEntry.notes entry)))
  | CN =>
      inr (TransactionForm.mk (Some (LedgerEntry.id entry)) T_CN
             (LedgerEntry.date entry) (LedgerEntry.cnAmount entry)
             (orEmpty (LedgerEntry.notes entry)))
  end.

(** ** [confirmDelete] *)

(** The next value of [entries] when the deletion of [itemToDelete] is
    confirmed. *)
Definition confirmDelete (itemToDelete : option string)
    (entries : list LedgerEntry.t) : list LedgerEntry.t :=
  if truthyOpt itemToDelete then
    filter (fun item => LedgerEntry.id item <> orEmpty itemToDelete) entries
  else entries.

(** ** Display helpers *)

Definition renderSizes (entry : LedgerEntry.t) : string :=
  match LedgerEntry.items entry with
  | Some (it :: its) => String.concat ", " (map InvoiceItem.size (it :: its))
  | _ => strOr (orEmpty (LedgerEntry.size entry)) "-"
  end.

Definition renderPatterns (entry : LedgerEntry.t) : string :=
  match LedgerEntry.items entry with
  | Some (it :: its) => String.concat ", " (map InvoiceItem.pattern (it :: its))
  | _ => strOr (orEmpty (LedgerEntry.pattern entry)) "-"
  end.

(** ** Whole-number rows *)

(** The sum of a list of integers. *)
Definition sumZ (l : list Z) : Z := foldr Z.add 0%Z l.

(** The rows of a form whose quantities and unit prices are the natural
    numbers [qps], row by row. *)
Definition wholeRows (rows : list ItemLine.t) (qps : list (Z * Z)) : Prop :=
  Forall2 (fun row qp =>
             ItemLine.quantity row = inject_Z qp.1
             /\ ItemLine.unitPrice row = inject_Z qp.2
             /\ (0 <= qp.1)%Z /\ (0 <= qp.2)%Z)
          rows qps.

(** ** Quantities read off a ledger *)

(** The sum of the invoice amounts of the pending invoices. *)
Definition pendingTotal (l : list LedgerEntry.t) : Q :=
  Qsum (map (fun e => orZero (LedgerEntry.invoiceAmount e))
            (filter isPendingInvoice l)).

(** The item lines that the category logic reads in a view. *)
Definition viewLines (view : list LedgerEntry.t) : list ItemLine.t :=
  concat (map itemsToProcess (filter isOriginalInvoice view)).

Definition inBucket (b : Bucket) (item : ItemLine.t) : bool :=
  match bucketOf (normalizeSize (ItemLine.size item)), b with
  | Some PCR, PCR | Some NYLON, NYLON | Some TWO_WHEELER, TWO_WHEELER => true
  | _, _ => false
  end.

(** The quantity of the lines of one bucket. *)
Definition bucketQty (b : Bucket) (lines : list ItemLine.t) : Q :=
  Qsum (map (fun item => numOr (ItemLine.quantity item) 0)
            (filter (inBucket b) lines)).

(** ** Example ledgers *)

Definition exInvoice (id date invoiceNo : string) (amount : Q)
    (st : Status) (ref notes : option string) : LedgerEntry.t :=
  LedgerEntry.mk id INVOICE date invoiceNo (Some "195/55-R16") (Some "ZX")
    (Some 4%Q) (Some 0%Q) (Some amount) None (Some "2024-02-04") None None
    (Some st) ref notes.

(** Two invoices of one day whose numbers differ in a digit run, after an
    invoice of the month before. *)
Definition exInv10 : LedgerEntry.t :=
  exInvoice "b10" "2024-01-05" "INV-10" 500 PENDING None None.

Definition exInv2 : LedgerEntry.t :=
  exInvoice "b02" "2024-01-05" "INV-2" 300 PENDING None None.

Definition exInvDec : LedgerEntry.t :=
  exInvoice "a99" "2023-12-20" "INV-1" 200 PAID None None.

Definition exSortLedger : list LedgerEntry.t := [exInv10; exInvDec; exInv2].

(** A ledger with a settled invoice and two pending ones, the older pending
    one standing last. *)
Definition exPaidOld : LedgerEntry.t :=
  exInvoice "t0" "2023-12-01" "INV-6" 900 PAID None None.

Definition exLater : LedgerEntry.t :=
  exInvoice "t2" "2024-02-01" "INV-8" 700 PENDING None None.

Definition exTarget : LedgerEntry.t :=
  exInvoice "t1" "2024-01-05" "INV-7" 1000 PENDING None (Some "first order").

Definition exEngineLedger : list LedgerEntry.t := [exPaidOld; exLater; exTarget].

(** A ledger without any pending invoice. *)
Definition exNoPendingLedger : list LedgerEntry.t :=
  [exPaidOld; paymentEntry "p1" "2023-12-15" 900 "cheque"].

(** The balance-forward invoice left by a credit note of 400 on [exTarget],
    and the ledger after that credit note. *)
Definition exBalance : LedgerEntry.t := balanceInvoice exTarget "b1" 600.

Definition exAfterAdjust : list LedgerEntry.t :=
  [exPaidOld; exLater; adjust formatINR 400 exTarget; exBalance;
   cnEntry "c1" "2024-01-10" 400 "return"].

(** An invoice with four items, one per outcome of the classification, and
    legacy fields that the category logic must not read. *)
Definition exItemsInvoice : LedgerEntry.t :=
  LedgerEntry.mk "i1" INVOICE "2024-01-07" "INV-11" (Some "195/55-R16") (Some "ZX")
    (Some 99%Q) (Some 0%Q) (Some 7000%Q)
    (Some [InvoiceItem.mk "g0" " 195/55-r16 " "ZX" 4 1000;
           InvoiceItem.mk "g1" "100/90-D17" "" 2 500;
           InvoiceItem.mk "g2" "90/100" "" 3 400;
           InvoiceItem.mk "g3" "XL" "" 5 160])
    (Some "2024-02-06") None None (Some PENDING) None None.

(** A ledger in which two invoices carry the same identifier. *)
Definition exDupLedger : list LedgerEntry.t :=
  [exInvoice "t1" "2023-11-01" "INV-5" 800 PAID None None; exTarget].

(** A ledger in which a payment carries the identifier of the pending
    invoice. *)
Definition exDupPaymentLedger : list LedgerEntry.t :=
  [paymentEntry "t1" "2023-12-15" 900 "cheque"; exTarget].

(** A pending invoice of amount zero. *)
Definition exZeroInvoice : LedgerEntry.t :=
  exInvoice "z1" "2024-01-05" "INV-0" 0 PENDING None None.

(** The civil date [(y, m, d)] that lies [z] days after 1970-01-01. *)
Definition civilFromDays (z : Z) : Z * Z * Z :=
  let z' := (z + 719468)%Z in
  let era := (z' / 146097)%Z in
  let doe := (z' - era * 146097)%Z in
  let yoe := ((doe - doe / 1460 + doe / 36524 - doe / 146096) / 365)%Z in
  let doy := (doe - (365 * yoe + yoe / 4 - yoe / 100))%Z in
  let mp := ((5 * doy + 2) / 153)%Z in
  let d := (doy - (153 * mp + 2) / 5 + 1)%Z in
  let m := (if mp <? 10 then mp + 3 else mp - 9)%Z in
  let y := (yoe + era * 400 + (if m <=? 2 then 1 else 0))%Z in
  (y, m, d).

Definition digitChar (n : Z) : ascii := ascii_of_N (48 + Z.to_N (n mod 10)).

Definition pad2 (n : Z) : string :=
  String (digitChar (n / 10)) (String (digitChar n) EmptyString).

Definition pad4 (n : Z) : string := pad2 (n / 100) +:+ pad2 n.

(** [addDays] on ISO calendar dates, in a host whose local time is UTC. *)
Definition isoAddDays (dateString : string) (days : Z) : option string :=
  t ← isoGetTime dateString;
  let '(y, m, d) := civilFromDays (t / 86400000 + days) in
  Some (pad4 y +:+ "-" +:+ pad2 m +:+ "-" +:+ pad2 d).

(** A row of fifteen pieces at 4.10: the binary64 product is just below
    61.5. *)
Definition exRowCents : list ItemLine.t :=
  [ItemLine.mk "90/100" "" 15 (41 # 10)].

(** Two rows of the invoice form and a sequence of drawn identifiers. *)
Definition exRows : list ItemLine.t :=
  [ItemLine.mk "195/55-R16" "ZX" 4 2500; ItemLine.mk "100/90-D17" "" 2 (24691 # 20)].

Definition exGen (k : nat) : string :=
  match k with
  | 0 => "g0"
  | 1 => "g1"
  | 2 => "g2"
  | _ => "g9"
  end.

(** A ledger with a single pending invoice. *)
Definition exSingleLedger : list LedgerEntry.t := [exPaidOld; exTarget].

(** * Properties *)

(** ** JavaScript value helpers *)

Lemma Qltb_lt x y : Qltb x y = true <-> (x < y)%Q.
Proof.
  unfold Qltb. rewrite negb_true_iff. split.
  - intros H. apply Qnot_le_lt. intros Hle.
    apply Qle_bool_iff in Hle. congruence.
  - intros H. destruct (Qle_bool y x) eqn:E; [|reflexivity].
    apply Qle_bool_iff in E. exfalso. apply (Qlt_not_le _ _ H E).
Qed.

Lemma Qltb_ge x y : Qltb x y = false <-> (y <= x)%Q.
Proof.
  unfold Qltb. rewrite negb_false_iff. apply Qle_bool_iff.
Qed.

Lemma strOr_empty s : strOr s "" = s.
Proof. destruct s; reflexivity. Qed.

Lemma numOr_zero x : (numOr x 0 == x)%Q.
Proof.
  unfold numOr. destruct (Qeq_bool x 0) eqn:E; [|reflexivity].
  apply Qeq_bool_iff in E. symmetry. exact E.
Qed.

(** ** binary64 arithmetic *)

(** *** Powers of two *)

Lemma pow2_pos e : (0 < pow2 e)%Q.
Proof. apply Qpower_0_lt. reflexivity. Qed.

Lemma pow2_add a b : (pow2 (a + b) == pow2 a * pow2 b)%Q.
Proof. apply Qpower_plus. discriminate. Qed.

Lemma pow2_0 : (pow2 0 == 1)%Q.
Proof. reflexivity. Qed.

Lemma pow2_opp a : (pow2 (- a) * pow2 a == 1)%Q.
Proof. rewrite <- pow2_add. replace (- a + a)%Z with 0%Z by lia. reflexivity. Qed.

Lemma pow2_succ a : (pow2 (a + 1) == 2 * pow2 a)%Q.
Proof. rewrite pow2_add. change (pow2 1) with 2%Q. ring. Qed.

Lemma pow2_le a b : (a <= b)%Z -> (pow2 a <= pow2 b)%Q.
Proof. intros H. apply Qpower_le_compat_l; [exact H|]. discriminate. Qed.

Lemma pow2_lt a b : (a < b)%Z -> (pow2 a < pow2 b)%Q.
Proof. intros H. apply Qpower_lt_compat_l; [exact H|]. reflexivity. Qed.

Lemma pow2_lt_inv a b : (pow2 a < pow2 b)%Q -> (a < b)%Z.
Proof.
  intros H. destruct (Z_lt_le_dec a b) as [Hlt|Hle]; [exact Hlt|].
  apply pow2_le in Hle. lra.
Qed.

Lemma pow2_Z n : (0 <= n)%Z -> (inject_Z (2 ^ n) == pow2 n)%Q.
Proof. intros H. unfold pow2. rewrite (Zpower_Qpower 2 n H). reflexivity. Qed.

(** *** Rounding to the nearest integer *)

Lemma roundHalfEven_spec x :
  (inject_Z (roundHalfEven x) - (1 # 2) <= x <= inject_Z (roundHalfEven x) + (1 # 2))%Q
  /\ ((x == inject_Z (roundHalfEven x) + (1 # 2))%Q -> Z.even (roundHalfEven x) = true)
  /\ ((x == inject_Z (roundHalfEven x) - (1 # 2))%Q -> Z.even (roundHalfEven x) = true).
Proof.
  unfold roundHalfEven.
  pose proof (Qfloor_le x) as Hlo. pose proof (Qlt_floor x) as Hhi.
  rewrite inject_Z_plus in Hhi. change (inject_Z 1) with 1%Q in Hhi.
  set (f := Qfloor x) in *.
  destruct (Qcompare_spec (x - inject_Z f) (1 # 2)) as [E|E|E].
  - destruct (Z.even f) eqn:Ef.
    + split; [lra|]. split; [intros _; exact Ef|]. intros H. lra.
    + assert (Ho : Z.even (f + 1) = true) by (rewrite Z.even_add, Ef; reflexivity).
      rewrite inject_Z_plus. change (inject_Z 1) with 1%Q.
      split; [lra|]. split; [intros H; lra|]. intros _. exact Ho.
  - split; [lra|]. split; intros H; lra.
  - rewrite inject_Z_plus. change (inject_Z 1) with 1%Q.
    split; [lra|]. split; intros H; lra.
Qed.

Lemma inject_Z_lt_1 (a b : Z) : (inject_Z a < inject_Z b + 1)%Q -> (a <= b)%Z.
Proof.
  intros H. change 1%Q with (inject_Z 1) in H. rewrite <- inject_Z_plus in H.
  rewrite <- Zlt_Qlt in H. lia.
Qed.

Lemma roundHalfEven_mono x y : (x <= y)%Q -> (roundHalfEven x <= roundHalfEven y)%Z.
Proof.
  intros Hle.
  destruct (roundHalfEven_spec x) as ([Hlo1 Hhi1] & He1 & Ho1).
  destruct (roundHalfEven_spec y) as ([Hlo2 Hhi2] & He2 & Ho2).
  set (m1 := roundHalfEven x) in *. set (m2 := roundHalfEven y) in *.
  destruct (Z_le_gt_dec m1 m2) as [Hm|Hm]; [exact Hm|exfalso].
  assert (Hq : (inject_Z m2 + 1 <= inject_Z m1)%Q).
  { change 1%Q with (inject_Z 1). rewrite <- inject_Z_plus, <- Zle_Qle. lia. }
  assert (E1 : (x == inject_Z m1 - (1 # 2))%Q) by lra.
  assert (E2 : (y == inject_Z m2 + (1 # 2))%Q) by lra.
  assert (Heq : m1 = (m2 + 1)%Z).
  { assert (inject_Z m1 <= inject_Z m2 + 1)%Q by lra.
    change 1%Q with (inject_Z 1) in H. rewrite <- inject_Z_plus, <- Zle_Qle in H. lia. }
  specialize (Ho1 E1). specialize (He2 E2). rewrite Heq, Z.even_add, He2 in Ho1.
  discriminate Ho1.
Qed.

Lemma roundHalfEven_Z z : roundHalfEven (inject_Z z) = z.
Proof.
  destruct (roundHalfEven_spec (inject_Z z)) as ([Hlo Hhi] & _ & _).
  set (m := roundHalfEven (inject_Z z)) in *.
  assert (H1 : (inject_Z m < inject_Z z + 1)%Q) by lra.
  assert (H2 : (inject_Z z < inject_Z m + 1)%Q) by lra.
  apply inject_Z_lt_1 in H1, H2. lia.
Qed.

Lemma roundHalfEven_eq x z : (x == inject_Z z)%Q -> roundHalfEven x = z.
Proof.
  intros H. rewrite <- (roundHalfEven_Z z).
  apply Z.le_antisymm; apply roundHalfEven_mono; rewrite H; apply Qle_refl.
Qed.

Lemma even_sum_not_unit m m' :
  Z.even m = true -> Z.even m' = true -> (m + m' = 1 \/ m + m' = -1)%Z -> False.
Proof.
  intros H1 H2 H. apply Z.even_spec in H1 as [k Hk], H2 as [k' Hk']. lia.
Qed.

Lemma roundHalfEven_opp x : roundHalfEven (- x) = (- roundHalfEven x)%Z.
Proof.
  destruct (roundHalfEven_spec x) as ([Hlo1 Hhi1] & He1 & Ho1).
  destruct (roundHalfEven_spec (- x)) as ([Hlo2 Hhi2] & He2 & Ho2).
  set (m := roundHalfEven x) in *. set (m' := roundHalfEven (- x)) in *.
  assert (H1 : (inject_Z (m + m') < inject_Z 1 + 1)%Q).
  { rewrite inject_Z_plus. change (inject_Z 1) with 1%Q. lra. }
  assert (H2 : (inject_Z (-1) < inject_Z (m + m') + 1)%Q).
  { rewrite inject_Z_plus. change (inject_Z (-1)) with (-1)%Q. lra. }
  apply inject_Z_lt_1 in H1, H2.
  destruct (Z.eq_dec (m + m')%Z 0%Z) as [E|E]; [lia|exfalso].
  assert (Hc : (m + m' = 1 \/ m + m' = -1)%Z) by lia.
  apply (even_sum_not_unit m m'); [| |exact Hc].
  - destruct Hc as [Hc|Hc].
    + assert (Hs : (inject_Z m + inject_Z m' == 1)%Q)
        by (rewrite <- inject_Z_plus, Hc; reflexivity).
      apply Ho1. lra.
    + assert (Hs : (inject_Z m + inject_Z m' == -1)%Q)
        by (rewrite <- inject_Z_plus, Hc; reflexivity).
      apply He1. lra.
  - destruct Hc as [Hc|Hc].
    + assert (Hs : (inject_Z m + inject_Z m' == 1)%Q)
        by (rewrite <- inject_Z_plus, Hc; reflexivity).
      apply Ho2. lra.
    + assert (Hs : (inject_Z m + inject_Z m' == -1)%Q)
        by (rewrite <- inject_Z_plus, Hc; reflexivity).
      apply He2. lra.
Qed.

(** *** The binade of a number *)

Lemma Qnum_den x : (x * inject_Z (Z.pos (Qden x)) == inject_Z (Qnum x))%Q.
Proof. destruct x as [n d]. unfold Qeq. cbn. lia. Qed.

Lemma log2_pow2 n :
  (0 < n)%Z -> (pow2 (Z.log2 n) <= inject_Z n < 2 * pow2 (Z.log2 n))%Q.
Proof.
  intros Hn. pose proof (Z.log2_spec n Hn) as [Hlo Hhi].
  pose proof (Z.log2_nonneg n) as H0.
  rewrite <- pow2_succ, <- !pow2_Z by lia.
  rewrite <- Zle_Qle, <- Zlt_Qlt. replace (Z.log2 n + 1)%Z with (Z.succ (Z.log2 n)) by lia.
  split; assumption.
Qed.

(** The binade of a positive number. *)
Lemma binade_spec x :
  (0 < x)%Q -> (pow2 (binade x) <= x < pow2 (binade x + 1))%Q.
Proof.
  intros Hx. unfold binade.
  assert (Hn : (0 < Qnum x)%Z).
  { destruct x as [n d]. unfold Qlt in Hx. cbn in Hx |- *. lia. }
  pose proof (log2_pow2 (Qnum x) Hn) as [Hn1 Hn2].
  pose proof (log2_pow2 (Z.pos (Qden x)) eq_refl) as [Hd1 Hd2].
  pose proof (Qnum_den x) as Hx'.
  set (k := (Z.log2 (Qnum x) - Z.log2 (Z.pos (Qden x)))%Z).
  assert (Hk : (pow2 (Z.log2 (Qnum x)) == pow2 k * pow2 (Z.log2 (Z.pos (Qden x))))%Q).
  { rewrite <- pow2_add. unfold k.
    replace (Z.log2 (Qnum x) - Z.log2 (Z.pos (Qden x)) + Z.log2 (Z.pos (Qden x)))%Z
      with (Z.log2 (Qnum x)) by lia.
    reflexivity. }
  pose proof (pow2_pos k) as HK.
  pose proof (pow2_pos (Z.log2 (Z.pos (Qden x)))) as HB.
  set (N := inject_Z (Qnum x)) in *. set (D := inject_Z (Z.pos (Qden x))) in *.
  set (A := pow2 (Z.log2 (Qnum x))) in *. set (B := pow2 (Z.log2 (Z.pos (Qden x)))) in *.
  set (K := pow2 k) in *.
  assert (HD : (0 < D)%Q) by lra.
  destruct (Qltb x K) eqn:E.
  - apply Qltb_lt in E.
    replace (k - 1 + 1)%Z with k by lia. fold K. split; [|exact E].
    assert (H2 : (2 * pow2 (k - 1) == K)%Q).
    { rewrite <- pow2_succ. unfold K. replace (k - 1 + 1)%Z with k by lia. reflexivity. }
    assert (Hlt : (pow2 (k - 1) * D < x * D)%Q).
    { assert ((2 * pow2 (k - 1)) * D < 2 * (x * D))%Q; [|lra].
      rewrite H2, Hx'.
      assert (K * D < 2 * (K * B))%Q; [|lra].
      assert (K * D < K * (2 * B))%Q; [|lra].
      apply Qmult_lt_l; assumption. }
    apply Qmult_lt_r in Hlt; [|exact HD]. lra.
  - apply Qltb_ge in E. fold K. split; [exact E|].
    rewrite pow2_succ. fold K.
    assert (Hlt : (x * D < (2 * K) * D)%Q).
    { rewrite Hx'.
      assert (K * B <= K * D)%Q; [|lra].
      apply Qmult_le_l; assumption. }
    apply Qmult_lt_r in Hlt; [exact Hlt|exact HD].
Qed.

Lemma binade_unique x b :
  (pow2 b <= x < pow2 (b + 1))%Q -> binade x = b.
Proof.
  intros [Hlo Hhi].
  assert (Hx : (0 < x)%Q) by (pose proof (pow2_pos b); lra).
  destruct (binade_spec x Hx) as [Hlo' Hhi'].
  assert (H1 : (pow2 b < pow2 (binade x + 1))%Q) by lra.
  assert (H2 : (pow2 (binade x) < pow2 (b + 1))%Q) by lra.
  apply pow2_lt_inv in H1, H2. lia.
Qed.

Lemma binade_compat x y : (0 < x)%Q -> (x == y)%Q -> binade x = binade y.
Proof.
  intros Hx E. apply binade_unique. rewrite E.
  apply binade_spec. rewrite <- E. exact Hx.
Qed.

Lemma binade_mono x y : (0 < x)%Q -> (x <= y)%Q -> (binade x <= binade y)%Z.
Proof.
  intros Hx Hle.
  destruct (binade_spec x Hx) as [Hlo _].
  destruct (binade_spec y ltac:(lra)) as [_ Hhi].
  assert (H : (pow2 (binade x) < pow2 (binade y + 1))%Q) by lra.
  apply pow2_lt_inv in H. lia.
Qed.

(** *** Rounding to binary64 *)

Lemma toDouble_unfold x :
  toDouble x =
  if Qeq_bool x 0 then 0%Q else
  Qred (inject_Z (roundHalfEven (x * pow2 (- expo x))) * pow2 (expo x)).
Proof. reflexivity. Qed.

Lemma Qeq_bool_false x : Qeq_bool x 0 = false <-> ~ (x == 0)%Q.
Proof.
  split.
  - intros H E. apply Qeq_bool_iff in E. congruence.
  - intros H. destruct (Qeq_bool x 0) eqn:E; [|reflexivity].
    apply Qeq_bool_iff in E. contradiction.
Qed.

Lemma toDouble_zero x : (x == 0)%Q -> toDouble x = 0%Q.
Proof.
  intros H. unfold toDouble. apply Qeq_bool_iff in H. rewrite H. reflexivity.
Qed.

Lemma toDouble_nonzero x :
  ~ (x == 0)%Q ->
  toDouble x = Qred (inject_Z (roundHalfEven (x * pow2 (- expo x))) * pow2 (expo x)).
Proof.
  intros H. rewrite toDouble_unfold. apply Qeq_bool_false in H. rewrite H. reflexivity.
Qed.

Lemma Qabs_pos_nonzero x : ~ (x == 0)%Q -> (0 < Qabs x)%Q.
Proof.
  intros H. destruct (Qlt_le_dec 0 (Qabs x)) as [Hlt|Hle]; [exact Hlt|].
  exfalso. apply H. pose proof (Qabs_nonneg x).
  assert (E : (Qabs x == 0)%Q) by lra.
  destruct (Qlt_le_dec x 0) as [Hn|Hp].
  - rewrite Qabs_neg in E by lra. lra.
  - rewrite Qabs_pos in E by lra. exact E.
Qed.

Lemma expo_compat x y : ~ (x == 0)%Q -> (x == y)%Q -> expo x = expo y.
Proof.
  intros Hx E. unfold expo. f_equal. f_equal.
  apply binade_compat; [apply Qabs_pos_nonzero; exact Hx|].
  rewrite E. reflexivity.
Qed.

Lemma roundHalfEven_compat x y : (x == y)%Q -> roundHalfEven x = roundHalfEven y.
Proof.
  intros E. apply Z.le_antisymm; apply roundHalfEven_mono; rewrite E; apply Qle_refl.
Qed.

(** [toDouble] depends on the value of its argument only. *)
Lemma toDouble_compat x y : (x == y)%Q -> toDouble x = toDouble y.
Proof.
  intros E. destruct (Qeq_dec x 0) as [Hz|Hnz].
  - rewrite (toDouble_zero x Hz), (toDouble_zero y); [reflexivity|].
    rewrite <- E. exact Hz.
  - rewrite (toDouble_nonzero x Hnz), (toDouble_nonzero y).
    2:{ rewrite <- E. exact Hnz. }
    apply Qred_complete.
    rewrite <- (expo_compat x y Hnz E).
    rewrite (roundHalfEven_compat (x * pow2 (- expo x)) (y * pow2 (- expo x))).
    + reflexivity.
    + apply Qmult_comp; [exact E|reflexivity].
Qed.

Lemma expo_pos x : (0 < x)%Q -> expo x = Z.max (binade x - 52) (-1074).
Proof.
  intros Hx. unfold expo. f_equal. f_equal.
  apply binade_compat; [|apply Qabs_pos; lra].
  rewrite Qabs_pos by lra. exact Hx.
Qed.

Lemma expo_opp x : expo (- x) = expo x.
Proof.
  unfold expo. f_equal. f_equal.
  destruct (Qeq_dec x 0) as [Hz|Hnz].
  - destruct x as [n d]. unfold Qeq in Hz. cbn in Hz.
    assert (n = 0%Z) by lia. subst n. reflexivity.
  - apply binade_compat.
    + apply Qabs_pos_nonzero. intros H. apply Hnz. lra.
    + apply Qabs_opp.
Qed.

(** Rounding commutes with negation. *)
Lemma toDouble_opp x : toDouble (- x) = (- toDouble x)%Q.
Proof.
  destruct (Qeq_dec x 0) as [Hz|Hnz].
  - rewrite (toDouble_zero x Hz), (toDouble_zero (- x)); [reflexivity|]. lra.
  - rewrite (toDouble_nonzero x Hnz), (toDouble_nonzero (- x)) by (intros H; apply Hnz; lra).
    rewrite <- Qred_opp. apply Qred_complete.
    rewrite expo_opp.
    rewrite (roundHalfEven_compat (- x * pow2 (- expo x)) (- (x * pow2 (- expo x)))) by ring.
    rewrite roundHalfEven_opp, inject_Z_opp. ring.
Qed.

Lemma toDouble_eq x :
  ~ (x == 0)%Q ->
  (toDouble x == inject_Z (roundHalfEven (x * pow2 (- expo x))) * pow2 (expo x))%Q.
Proof. intros H. rewrite (toDouble_nonzero x H). apply Qred_correct. Qed.

Lemma roundHalfEven_nonneg x : (0 <= x)%Q -> (0 <= roundHalfEven x)%Z.
Proof.
  intros H. change 0%Z with (roundHalfEven (inject_Z 0)) at 1 || rewrite <- (roundHalfEven_Z 0).
  apply roundHalfEven_mono. exact H.
Qed.

Lemma toDouble_nonneg x : (0 <= x)%Q -> (0 <= toDouble x)%Q.
Proof.
  intros H. destruct (Qeq_dec x 0) as [Hz|Hnz].
  - rewrite (toDouble_zero x Hz). apply Qle_refl.
  - rewrite (toDouble_eq x Hnz).
    apply Qmult_le_0_compat; [|apply Qlt_le_weak, pow2_pos].
    change 0%Q with (inject_Z 0). rewrite <- Zle_Qle.
    apply roundHalfEven_nonneg.
    apply Qmult_le_0_compat; [exact H|apply Qlt_le_weak, pow2_pos].
Qed.

Lemma pow2_cancel a b : (pow2 a * pow2 (b - a) == pow2 b)%Q.
Proof. rewrite <- pow2_add. replace (a + (b - a))%Z with b by lia. reflexivity. Qed.

Lemma scaled_lt x e b :
  (x < pow2 b)%Q -> (x * pow2 (- e) < pow2 (b - e))%Q.
Proof.
  intros H. pose proof (pow2_pos (- e)) as Hp.
  assert (E : (pow2 (b - e) == pow2 b * pow2 (- e))%Q).
  { rewrite <- pow2_add. replace (b + - e)%Z with (b - e)%Z by lia. reflexivity. }
  rewrite E. apply Qmult_lt_r; assumption.
Qed.

Lemma scaled_le x e b :
  (pow2 b <= x)%Q -> (pow2 (b - e) <= x * pow2 (- e))%Q.
Proof.
  intros H. pose proof (pow2_pos (- e)) as Hp.
  assert (E : (pow2 (b - e) == pow2 b * pow2 (- e))%Q).
  { rewrite <- pow2_add. replace (b + - e)%Z with (b - e)%Z by lia. reflexivity. }
  rewrite E. apply Qmult_le_r; assumption.
Qed.

(** A positive number rounds to at least the power of two below it (when
    that power is representable) and to at most the power of two above it. *)
Lemma toDouble_ge_pow2 x b :
  (-1074 <= b)%Z -> (pow2 b <= x)%Q -> (pow2 b <= toDouble x)%Q.
Proof.
  intros Hb Hx.
  assert (Hpos : (0 < x)%Q) by (pose proof (pow2_pos b); lra).
  assert (Hnz : ~ (x == 0)%Q) by lra.
  rewrite (toDouble_eq x Hnz).
  set (e := expo x).
  destruct (Z_le_gt_dec e b) as [Heb|Heb].
  - apply (scaled_le x e b) in Hx.
    rewrite <- (pow2_Z (b - e)) in Hx by lia.
    apply roundHalfEven_mono in Hx. rewrite roundHalfEven_Z in Hx.
    rewrite <- (pow2_cancel e b). rewrite (Qmult_comm (pow2 e)).
    apply Qmult_le_r; [apply pow2_pos|].
    rewrite <- (pow2_Z (b - e)) by lia. rewrite <- Zle_Qle. exact Hx.
  - (* e > b: then e = binade x - 52 *)
    assert (Hbx : e = (binade x - 52)%Z)
      by (unfold e in *; rewrite expo_pos in * by exact Hpos; lia).
    destruct (binade_spec x Hpos) as [Hlo _].
    apply (scaled_le x e (binade x)) in Hlo.
    replace (binade x - e)%Z with 52%Z in Hlo by lia.
    rewrite <- (pow2_Z 52) in Hlo by lia.
    apply roundHalfEven_mono in Hlo. rewrite roundHalfEven_Z in Hlo.
    apply Qle_trans with (pow2 e); [apply pow2_le; lia|].
    rewrite <- (Qmult_1_l (pow2 e)) at 1.
    apply Qmult_le_r; [apply pow2_pos|].
    change 1%Q with (inject_Z 1). rewrite <- Zle_Qle.
    change (2 ^ 52)%Z with 4503599627370496%Z in Hlo. lia.
Qed.

Lemma toDouble_le_pow2 x b :
  (0 < x)%Q -> (expo x <= b)%Z -> (x <= pow2 b)%Q -> (toDouble x <= pow2 b)%Q.
Proof.
  intros Hpos He Hx.
  assert (Hnz : ~ (x == 0)%Q) by lra.
  rewrite (toDouble_eq x Hnz).
  set (e := expo x) in *.
  assert (Hs : (x * pow2 (- e) <= pow2 (b - e))%Q).
  { pose proof (pow2_pos (- e)) as Hp.
    assert (E : (pow2 (b - e) == pow2 b * pow2 (- e))%Q).
    { rewrite <- pow2_add. replace (b + - e)%Z with (b - e)%Z by lia. reflexivity. }
    rewrite E. apply Qmult_le_r; assumption. }
  rewrite <- (pow2_Z (b - e)) in Hs by lia.
  apply roundHalfEven_mono in Hs. rewrite roundHalfEven_Z in Hs.
  rewrite <- (pow2_cancel e b). rewrite (Qmult_comm (pow2 e)).
  apply Qmult_le_r; [apply pow2_pos|].
  rewrite <- (pow2_Z (b - e)) by lia. rewrite <- Zle_Qle. exact Hs.
Qed.

Lemma expo_mono x y : (0 < x)%Q -> (x <= y)%Q -> (expo x <= expo y)%Z.
Proof.
  intros Hx Hle. rewrite !expo_pos by lra.
  pose proof (binade_mono x y Hx Hle). lia.
Qed.

Lemma toDouble_mono_pos x y : (0 < x)%Q -> (x <= y)%Q -> (toDouble x <= toDouble y)%Q.
Proof.
  intros Hx Hle.
  assert (Hy : (0 < y)%Q) by lra.
  pose proof (expo_mono x y Hx Hle) as He.
  destruct (Z.eq_dec (expo x) (expo y)) as [Heq|Hne].
  - rewrite (toDouble_eq x), (toDouble_eq y) by lra.
    rewrite <- Heq.
    apply Qmult_le_r; [apply pow2_pos|].
    rewrite <- Zle_Qle. apply roundHalfEven_mono.
    apply Qmult_le_r; [apply pow2_pos|exact Hle].
  - assert (Hlt : (expo x < expo y)%Z) by lia.
    rewrite (expo_pos x Hx), (expo_pos y Hy) in Hlt.
    assert (Hbx : (binade x + 1 <= binade y)%Z) by lia.
    destruct (binade_spec x Hx) as [_ Hxhi].
    destruct (binade_spec y Hy) as [Hylo _].
    apply Qle_trans with (pow2 (binade y)).
    + apply toDouble_le_pow2; [exact Hx|rewrite (expo_pos x Hx); lia|].
      apply Qle_trans with (pow2 (binade x + 1)); [lra|apply pow2_le; lia].
    + apply toDouble_ge_pow2; [lia|exact Hylo].
Qed.

(** Rounding to binary64 is monotone. *)
Lemma toDouble_mono x y : (x <= y)%Q -> (toDouble x <= toDouble y)%Q.
Proof.
  intros Hle.
  destruct (Qlt_le_dec 0 x) as [Hx|Hx].
  - apply toDouble_mono_pos; assumption.
  - destruct (Qlt_le_dec y 0) as [Hy|Hy].
    + assert (H : (toDouble (- y) <= toDouble (- x))%Q)
        by (apply toDouble_mono_pos; lra).
      rewrite !toDouble_opp in H. lra.
    + apply Qle_trans with 0%Q; [|apply toDouble_nonneg; exact Hy].
      assert (H : (0 <= toDouble (- x))%Q) by (apply toDouble_nonneg; lra).
      rewrite toDouble_opp in H. lra.
Qed.

Lemma toDouble_canon x : Qred (toDouble x) = toDouble x.
Proof.
  rewrite toDouble_unfold. destruct (Qeq_bool x 0); [reflexivity|].
  apply Qred_complete, Qred_correct.
Qed.

Lemma toDouble_eq_canon x y : (toDouble x == toDouble y)%Q -> toDouble x = toDouble y.
Proof.
  intros H. rewrite <- (toDouble_canon x), <- (toDouble_canon y).
  apply Qred_complete. exact H.
Qed.

Lemma toDouble_scaled x w :
  (x * pow2 (- expo x) == inject_Z w)%Q -> (toDouble x == x)%Q.
Proof.
  intros H. destruct (Qeq_dec x 0) as [Hz|Hnz].
  - rewrite (toDouble_zero x Hz). symmetry. exact Hz.
  - rewrite (toDouble_eq x Hnz), (roundHalfEven_eq _ w H), <- H.
    rewrite <- Qmult_assoc, pow2_opp. ring.
Qed.

Lemma inject_Z_pow2 m a : (0 <= a)%Z -> (inject_Z m * pow2 a == inject_Z (m * 2 ^ a))%Q.
Proof. intros Ha. rewrite inject_Z_mult, (pow2_Z a Ha). reflexivity. Qed.

Lemma toDouble_exact_pos x m e :
  (-1074 <= e)%Z -> (0 < m <= 2 ^ 53)%Z -> (x == inject_Z m * pow2 e)%Q ->
  (toDouble x == x)%Q.
Proof.
  intros He [Hm0 Hm] Hx.
  assert (Hpos : (0 < x)%Q).
  { rewrite Hx. apply Qmult_lt_0_compat; [|apply pow2_pos].
    change 0%Q with (inject_Z 0). rewrite <- Zlt_Qlt. exact Hm0. }
  destruct (Z.eq_dec m (2 ^ 53)%Z) as [Heq|Hne].
  - assert (Hx' : (x == pow2 (53 + e))%Q).
    { rewrite Hx, Heq, (pow2_Z 53) by lia. rewrite <- pow2_add. reflexivity. }
    assert (Hb : binade x = (53 + e)%Z).
    { apply binade_unique. rewrite Hx'. split; [apply Qle_refl|apply pow2_lt; lia]. }
    apply (toDouble_scaled x (2 ^ 52)%Z).
    rewrite (expo_pos x Hpos), Hb.
    replace (Z.max (53 + e - 52) (-1074)) with (e + 1)%Z by lia.
    rewrite Hx', <- pow2_add, (pow2_Z 52) by lia.
    replace (53 + e + - (e + 1))%Z with 52%Z by lia. reflexivity.
  - assert (Hlt : (x < pow2 (53 + e))%Q).
    { rewrite Hx, pow2_add. apply Qmult_lt_r; [apply pow2_pos|].
      rewrite <- (pow2_Z 53) by lia. rewrite <- Zlt_Qlt. lia. }
    destruct (binade_spec x Hpos) as [Hlo _].
    assert (Hb : (binade x < 53 + e)%Z) by (apply pow2_lt_inv; lra).
    assert (Hex : (expo x <= e)%Z) by (rewrite (expo_pos x Hpos); lia).
    apply (toDouble_scaled x (m * 2 ^ (e - expo x))%Z).
    rewrite <- inject_Z_pow2 by lia.
    generalize dependent (expo x). intros ex _.
    rewrite Hx, <- Qmult_assoc, <- pow2_add.
    replace (e + - ex)%Z with (e - ex)%Z by lia. reflexivity.
Qed.

(** A number [m * 2^e] with [|m| <= 2^53] and [e >= -1074] is its own
    rounding. *)
Lemma toDouble_exact x m e :
  (-1074 <= e)%Z -> (Z.abs m <= 2 ^ 53)%Z -> (x == inject_Z m * pow2 e)%Q ->
  (toDouble x == x)%Q.
Proof.
  intros He Hm Hx.
  destruct (Z.lt_trichotomy m 0) as [Hneg|[Hz|Hpos]].
  - assert (H : (toDouble (- x) == - x)%Q).
    { apply (toDouble_exact_pos (- x) (- m) e He); [lia|].
      rewrite Hx, inject_Z_opp. ring. }
    rewrite toDouble_opp in H. lra.
  - subst m. rewrite (toDouble_zero x); [|rewrite Hx; ring].
    rewrite Hx. ring.
  - apply (toDouble_exact_pos x m e He); [lia|exact Hx].
Qed.

Lemma toDouble_repr_pos x :
  (0 < x)%Q ->
  (0 <= roundHalfEven (x * pow2 (- expo x)) <= 2 ^ 53)%Z.
Proof.
  intros Hpos. split.
  - apply roundHalfEven_nonneg.
    apply Qmult_le_0_compat; [lra|apply Qlt_le_weak, pow2_pos].
  - destruct (binade_spec x Hpos) as [_ Hhi].
    apply (scaled_lt x (expo x)) in Hhi.
    assert (Hle : (x * pow2 (- expo x) <= pow2 53)%Q).
    { apply Qle_trans with (pow2 (binade x + 1 - expo x)); [lra|].
      apply pow2_le. rewrite (expo_pos x Hpos). lia. }
    rewrite <- (pow2_Z 53) in Hle by lia.
    apply roundHalfEven_mono in Hle. rewrite roundHalfEven_Z in Hle. exact Hle.
Qed.

Lemma expo_ge x : (-1074 <= expo x)%Z.
Proof. unfold expo. lia. Qed.

Lemma toDouble_idem_pos x : (0 < x)%Q -> (toDouble (toDouble x) == toDouble x)%Q.
Proof.
  intros Hpos.
  apply (toDouble_exact _ (roundHalfEven (x * pow2 (- expo x))) (expo x)).
  - apply expo_ge.
  - pose proof (toDouble_repr_pos x Hpos). lia.
  - apply toDouble_eq. lra.
Qed.

(** Rounding twice is rounding once. *)
Lemma toDouble_idem x : toDouble (toDouble x) = toDouble x.
Proof.
  apply toDouble_eq_canon.
  destruct (Qlt_le_dec 0 x) as [Hx|Hx].
  - apply toDouble_idem_pos. exact Hx.
  - destruct (Qeq_dec x 0) as [Hz|Hnz].
    + rewrite (toDouble_zero x Hz). reflexivity.
    + assert (H : (toDouble (toDouble (- x)) == toDouble (- x))%Q)
        by (apply toDouble_idem_pos; lra).
      rewrite !toDouble_opp in H. lra.
Qed.

Lemma Qred_inject_Z z : Qred (inject_Z z) = inject_Z z.
Proof.
  pose proof (Qred_correct (inject_Z z)) as He.
  pose proof (gcd_Qred (inject_Z z)) as Hg.
  destruct (Qred (inject_Z z)) as [n d]. unfold Qeq, inject_Z in *. cbn in *.
  assert (Hn : n = (z * Z.pos d)%Z) by lia. subst n.
  rewrite Z.gcd_comm, (Z.mul_comm z), Z.gcd_mul_diag_l in Hg by lia.
  assert (d = 1%positive) by lia. subst d. f_equal. lia.
Qed.

(** Integers up to [2^53] in absolute value are binary64 values. *)
Lemma toDouble_Z z : (Z.abs z <= 2 ^ 53)%Z -> toDouble (inject_Z z) = inject_Z z.
Proof.
  intros Hz.
  etransitivity; [symmetry; apply toDouble_canon|].
  etransitivity; [|apply Qred_inject_Z].
  apply Qred_complete.
  apply (toDouble_exact _ z 0%Z); [lia|exact Hz|].
  rewrite pow2_0. ring.
Qed.

(** *** Nearest binary64 number *)

Lemma Qabs_le_of x y : (- y <= x)%Q -> (x <= y)%Q -> (Qabs x <= y)%Q.
Proof. intros H1 H2. apply Qabs_Qle_condition. split; assumption. Qed.

Lemma Qabs_ge_l x y : (y <= x)%Q -> (y <= Qabs x)%Q.
Proof. intros H. eapply Qle_trans; [exact H|apply Qle_Qabs]. Qed.

Lemma Qabs_ge_r x y : (y <= - x)%Q -> (y <= Qabs x)%Q.
Proof. intros H. rewrite <- Qabs_opp. apply Qabs_ge_l. exact H. Qed.

(** [roundHalfEven x] is an integer nearest to [x]. *)
Lemma roundHalfEven_nearest x k :
  (Qabs (inject_Z (roundHalfEven x) - x) <= Qabs (inject_Z k - x))%Q.
Proof.
  destruct (roundHalfEven_spec x) as ([Hlo Hhi] & _ & _).
  set (m := roundHalfEven x) in *.
  destruct (Z.lt_trichotomy k m) as [Hlt|[->|Hgt]].
  - assert (Hk : (inject_Z k + 1 <= inject_Z m)%Q).
    { change 1%Q with (inject_Z 1). rewrite <- inject_Z_plus, <- Zle_Qle. lia. }
    apply Qle_trans with (1 # 2)%Q; [apply Qabs_le_of; lra|apply Qabs_ge_r; lra].
  - apply Qle_refl.
  - assert (Hk : (inject_Z m + 1 <= inject_Z k)%Q).
    { change 1%Q with (inject_Z 1). rewrite <- inject_Z_plus, <- Zle_Qle. lia. }
    apply Qle_trans with (1 # 2)%Q; [apply Qabs_le_of; lra|apply Qabs_ge_l; lra].
Qed.

(** [toDouble x] is a multiple of [2^(expo x)] nearest to [x]. *)
Lemma toDouble_nearest_multiple x k :
  ~ (x == 0)%Q ->
  (Qabs (toDouble x - x) <= Qabs (inject_Z k * pow2 (expo x) - x))%Q.
Proof.
  intros Hnz. rewrite (toDouble_eq x Hnz).
  pose proof (roundHalfEven_nearest (x * pow2 (- expo x)) k) as H.
  pose proof (pow2_opp (expo x)) as Hinv.
  pose proof (pow2_pos (expo x)) as Hp.
  generalize dependent (roundHalfEven (x * pow2 (- expo x))).
  generalize dependent (pow2 (- expo x)). generalize dependent (pow2 (expo x)).
  intros p Hp q Hinv m H.
  assert (E1 : (inject_Z m * p - x == (inject_Z m - x * q) * p)%Q).
  { assert (Hx : (x == x * (q * p))%Q) by (rewrite Hinv; ring).
    rewrite Hx at 1. ring. }
  assert (E2 : (inject_Z k * p - x == (inject_Z k - x * q) * p)%Q).
  { assert (Hx : (x == x * (q * p))%Q) by (rewrite Hinv; ring).
    rewrite Hx at 1. ring. }
  rewrite E1, E2, !Qabs_Qmult, (Qabs_pos p) by lra.
  apply Qmult_le_r; [exact Hp|exact H].
Qed.

Lemma toDouble_nearest_pos x y :
  (0 < x)%Q -> isBinary64 y -> (Qabs (toDouble x - x) <= Qabs (y - x))%Q.
Proof.
  intros Hpos (m & e & Hm & He & Hy).
  assert (Hnz : ~ (x == 0)%Q) by lra.
  destruct (Z_le_gt_dec (expo x) e) as [Hle|Hgt].
  - assert (E : (y == inject_Z (m * 2 ^ (e - expo x)) * pow2 (expo x))%Q).
    { rewrite <- inject_Z_pow2 by lia. rewrite <- Qmult_assoc, <- pow2_add.
      replace (e - expo x + expo x)%Z with e by lia. exact Hy. }
    rewrite E. apply toDouble_nearest_multiple. exact Hnz.
  - pose proof (expo_pos x Hpos) as Hex.
    assert (Hb : expo x = (binade x - 52)%Z) by lia.
    destruct (binade_spec x Hpos) as [Hlo _].
    assert (Hpow : (pow2 (binade x) == inject_Z (2 ^ 52) * pow2 (expo x))%Q).
    { rewrite (pow2_Z 52) by lia. rewrite <- pow2_add.
      replace (52 + expo x)%Z with (binade x) by lia. reflexivity. }
    assert (Hyb : (y <= pow2 (binade x))%Q).
    { rewrite Hy.
      apply Qle_trans with (inject_Z (2 ^ 53) * pow2 e)%Q.
      - apply Qmult_le_r; [apply pow2_pos|]. rewrite <- Zle_Qle. lia.
      - rewrite (pow2_Z 53) by lia. rewrite <- pow2_add. apply pow2_le. lia. }
    apply Qle_trans with (Qabs (pow2 (binade x) - x)).
    + rewrite Hpow. apply toDouble_nearest_multiple. exact Hnz.
    + rewrite (Qabs_neg (pow2 (binade x) - x)) by lra.
      apply Qabs_ge_r. lra.
Qed.

Lemma isBinary64_opp y : isBinary64 y -> isBinary64 (- y).
Proof.
  intros (m & e & Hm & He & Hy). exists (- m)%Z, e.
  split; [lia|]. split; [exact He|]. rewrite Hy, inject_Z_opp. ring.
Qed.

(** [toDouble x] is a binary64 number, and no binary64 number is nearer to
    [x]. *)
Lemma toDouble_isBinary64 x : isBinary64 (toDouble x).
Proof.
  destruct (Qeq_dec x 0) as [Hz|Hnz].
  - rewrite (toDouble_zero x Hz). exists 0%Z, 0%Z.
    split; [vm_compute; discriminate|]. split; [lia|]. reflexivity.
  - destruct (Qlt_le_dec 0 x) as [Hpos|Hneg].
    + exists (roundHalfEven (x * pow2 (- expo x))), (expo x).
      pose proof (toDouble_repr_pos x Hpos). split; [lia|].
      split; [apply expo_ge|apply toDouble_eq; exact Hnz].
    + assert (Hpos : (0 < - x)%Q) by lra.
      rewrite (toDouble_compat x (- - x)) by (symmetry; apply Qopp_involutive).
      rewrite toDouble_opp. apply isBinary64_opp.
      exists (roundHalfEven (- x * pow2 (- expo (- x)))), (expo (- x)).
      pose proof (toDouble_repr_pos (- x) Hpos). split; [lia|].
      split; [apply expo_ge|apply toDouble_eq; lra].
Qed.

Lemma toDouble_nearest x y :
  isBinary64 y -> (Qabs (toDouble x - x) <= Qabs (y - x))%Q.
Proof.
  intros Hy. destruct (Qlt_le_dec 0 x) as [Hpos|Hneg].
  - apply toDouble_nearest_pos; assumption.
  - destruct (Qeq_dec x 0) as [Hz|Hnz].
    + rewrite (toDouble_zero x Hz).
      assert (E : (0 - x == 0)%Q) by lra. rewrite E. apply Qabs_nonneg.
    + pose proof (toDouble_nearest_pos (- x) (- y) ltac:(lra) (isBinary64_opp y Hy)) as H.
      rewrite toDouble_opp in H.
      assert (E1 : (- toDouble x - - x == - (toDouble x - x))%Q) by ring.
      assert (E2 : (- y - - x == - (y - x))%Q) by ring.
      rewrite E1, E2, !Qabs_opp in H. exact H.
Qed.

(** A binary64 number is its own rounding. *)
Lemma toDouble_fix y : isBinary64 y -> (toDouble y == y)%Q.
Proof. intros (m & e & Hm & He & Hy). apply (toDouble_exact y m e He Hm Hy). Qed.

(** On a tie the number with the even significand is taken. *)
Lemma toDouble_ties_even x :
  ~ (x == 0)%Q ->
  (Qabs (toDouble x - x) == (1 # 2) * pow2 (expo x))%Q ->
  Z.even (roundHalfEven (x * pow2 (- expo x))) = true.
Proof.
  intros Hnz. rewrite (toDouble_eq x Hnz).
  destruct (roundHalfEven_spec (x * pow2 (- expo x))) as (_ & He & Ho).
  pose proof (pow2_opp (expo x)) as Hinv.
  pose proof (pow2_pos (expo x)) as Hp.
  generalize dependent (roundHalfEven (x * pow2 (- expo x))).
  generalize dependent (pow2 (- expo x)). generalize dependent (pow2 (expo x)).
  intros p Hp q Hinv m He Ho Htie.
  assert (E1 : (inject_Z m * p - x == (inject_Z m - x * q) * p)%Q).
  { assert (Hx : (x == x * (q * p))%Q) by (rewrite Hinv; ring).
    rewrite Hx at 1. ring. }
  rewrite E1, Qabs_Qmult, (Qabs_pos p) in Htie by lra.
  apply Qmult_inj_r in Htie; [|lra].
  destruct (Qlt_le_dec (inject_Z m - x * q) 0) as [Hneg|Hpos].
  - rewrite Qabs_neg in Htie by lra. apply He. lra.
  - rewrite Qabs_pos in Htie by lra. apply Ho. lra.
Qed.

(** The rounding error is at most half a unit in the last place. *)
Lemma toDouble_near x :
  (Qabs (toDouble x - x) <= (1 # 2) * pow2 (expo x))%Q.
Proof.
  destruct (Qeq_dec x 0) as [Hz|Hnz].
  - rewrite (toDouble_zero x Hz).
    assert (E : (0 - x == 0)%Q) by lra. rewrite E.
    apply Qlt_le_weak. apply Qmult_lt_0_compat; [reflexivity|apply pow2_pos].
  - rewrite (toDouble_eq x Hnz).
    destruct (roundHalfEven_spec (x * pow2 (- expo x))) as ([Hlo Hhi] & _ & _).
    pose proof (pow2_opp (expo x)) as Hinv.
    pose proof (pow2_pos (expo x)) as Hp.
    generalize dependent (roundHalfEven (x * pow2 (- expo x))).
    generalize dependent (pow2 (- expo x)). generalize dependent (pow2 (expo x)).
    intros p Hp q Hinv m Hlo Hhi.
    assert (Hx : (x == (x * q) * p)%Q) by (rewrite <- Qmult_assoc, Hinv; ring).
    apply Qabs_Qle_condition. split.
    + assert (H : ((x * q) * p <= (inject_Z m + (1 # 2)) * p)%Q)
        by (apply Qmult_le_r; [exact Hp|exact Hhi]).
      lra.
    + assert (H : ((inject_Z m - (1 # 2)) * p <= (x * q) * p)%Q)
        by (apply Qmult_le_r; [exact Hp|exact Hlo]).
      lra.
Qed.

(** *** Arithmetic *)

Lemma numSub_opp x y : numSub y x = (- numSub x y)%Q.
Proof.
  unfold numSub. rewrite <- toDouble_opp. apply toDouble_compat. ring.
Qed.

Lemma numSub_nonneg x y : (x <= y)%Q -> (0 <= numSub y x)%Q.
Proof.
  intros H. unfold numSub. apply toDouble_nonneg.
  pose proof (toDouble_mono x y H). lra.
Qed.

Lemma numSub_diag x : numSub x x = 0%Q.
Proof. unfold numSub. apply toDouble_zero. ring. Qed.

Lemma numSub_Z a b :
  (Z.abs a <= 2 ^ 53)%Z -> (Z.abs b <= 2 ^ 53)%Z -> (Z.abs (a - b) <= 2 ^ 53)%Z ->
  numSub (inject_Z a) (inject_Z b) = inject_Z (a - b).
Proof.
  intros Ha Hb Hab. unfold numSub. rewrite (toDouble_Z a Ha), (toDouble_Z b Hb).
  rewrite <- (toDouble_Z (a - b) Hab). apply toDouble_compat.
  unfold Z.sub. rewrite inject_Z_plus, inject_Z_opp. reflexivity.
Qed.

(** Sums and products of natural numbers are exact as long as they have at
    most 53 bits. *)
Lemma numAdd_Z a b :
  (0 <= a)%Z -> (0 <= b)%Z -> (a + b < 2 ^ 53)%Z ->
  numAdd (inject_Z a) (inject_Z b) = inject_Z (a + b).
Proof.
  intros Ha Hb Hab. unfold numAdd.
  rewrite (toDouble_Z a), (toDouble_Z b) by lia.
  rewrite <- (toDouble_Z (a + b)) by lia. apply toDouble_compat.
  rewrite inject_Z_plus. reflexivity.
Qed.

Lemma numMul_Z a b :
  (0 <= a)%Z -> (0 <= b)%Z -> (a * b < 2 ^ 53)%Z ->
  numMul (inject_Z a) (inject_Z b) = inject_Z (a * b).
Proof.
  intros Ha Hb Hab. unfold numMul.
  destruct (Z.eq_dec a 0%Z) as [->|Ha0].
  { apply toDouble_zero. rewrite (toDouble_Z 0%Z) by (vm_compute; discriminate). ring. }
  destruct (Z.eq_dec b 0%Z) as [->|Hb0].
  { rewrite Z.mul_0_r. apply toDouble_zero.
    rewrite (toDouble_Z 0%Z) by (vm_compute; discriminate). ring. }
  assert (H1 : (a <= a * b)%Z) by nia.
  assert (H2 : (b <= a * b)%Z) by nia.
  rewrite (toDouble_Z a), (toDouble_Z b) by lia.
  rewrite <- (toDouble_Z (a * b)) by lia. apply toDouble_compat.
  rewrite inject_Z_mult. reflexivity.
Qed.

(** Comparisons of rationals and of their binary64 values. *)
Lemma toDouble_lt_inv x y : (toDouble x < toDouble y)%Q -> (x < y)%Q.
Proof.
  intros H. apply Qnot_le_lt. intros Hle.
  apply toDouble_mono in Hle. apply (Qlt_not_le _ _ H Hle).
Qed.

Lemma toDouble_pos_inv x : (0 < toDouble x)%Q -> (0 < x)%Q.
Proof.
  intros H. apply toDouble_lt_inv. rewrite (toDouble_zero 0) by reflexivity. exact H.
Qed.

(** Where the binary64 difference of two numbers is not zero, the numbers
    compare as their binary64 values do. *)
Lemma numSub_far_compare x y :
  (0 < Qabs (numSub x y))%Q -> ((x < y)%Q <-> (toDouble x < toDouble y)%Q).
Proof.
  intros Hfar. split; [|apply toDouble_lt_inv].
  intros Hlt. apply Qlt_le_weak, toDouble_mono in Hlt.
  destruct (Qeq_dec (toDouble x) (toDouble y)) as [E|E].
  - exfalso. unfold numSub in Hfar.
    rewrite (toDouble_zero (toDouble x - toDouble y)) in Hfar by (rewrite E; ring).
    discriminate Hfar.
  - apply Qle_lteq in Hlt as [Hlt|Heq]; [exact Hlt|contradiction].
Qed.

(** The sign of a difference that is not rounded to zero. *)
Lemma numSub_pos x y :
  (x < y)%Q -> (0 < Qabs (numSub x y))%Q -> (0 < numSub y x)%Q.
Proof.
  intros Hlt Hnz.
  pose proof (numSub_nonneg x y (Qlt_le_weak _ _ Hlt)) as H0.
  rewrite (numSub_opp y x), Qabs_opp in Hnz.
  rewrite Qabs_pos in Hnz by exact H0. exact Hnz.
Qed.

(** The arithmetic on some decimal amounts: 0.1 is not a binary64 number;
    0.1 + 0.2 is not 0.3; 1000 - 999.99 falls short of 0.01; and the
    products 15 x 4.10 and 100 x 1.005 fall short of 61.5 and 100.5, while
    5 x 0.30 is 1.5. *)
Example binary64_examples :
  toDouble (1 # 10) = (3602879701896397 # 36028797018963968)%Q
  /\ numAdd (1 # 10) (2 # 10) <> toDouble (3 # 10)
  /\ (numSub 1000 (99999 # 100) < toDouble (1 # 100))%Q
  /\ (numSub 1000 (99999 # 100) < 1 # 100)%Q
  /\ (numMul 15 (41 # 10) < 123 # 2)%Q
  /\ mathRound (numMul 15 (41 # 10)) = 61%Q
  /\ mathRound (numMul 100 (1005 # 1000)) = 100%Q
  /\ numMul 5 (3 # 10) = (3 # 2)%Q
  /\ mathRound (numMul 5 (3 # 10)) = 2%Q.
Proof.
  split; [vm_compute; reflexivity|].
  split; [vm_compute; discriminate|].
  split; [apply Qltb_lt; vm_compute; reflexivity|].
  split; [apply Qltb_lt; vm_compute; reflexivity|].
  split; [apply Qltb_lt; vm_compute; reflexivity|].
  repeat split; vm_compute; reflexivity.
Qed.

(** ** Size codes *)

Lemma upperChar_not_lower c : isLower (upperChar c) = false.
Proof. destruct c as [[] [] [] [] [] [] [] []]; reflexivity. Qed.

Lemma noLower_toUpperCase s : noLower (toUpperCase s) = true.
Proof.
  induction s as [|c s IH]; simpl; [reflexivity|].
  rewrite upperChar_not_lower, IH. reflexivity.
Qed.

Lemma noLower_trimStart s : noLower s = true -> noLower (trimStart s) = true.
Proof.
  induction s as [|c s IH]; simpl; [easy|].
  intros H. apply andb_true_iff in H as [Hc Hs].
  destruct (isWhite c); [auto|]. simpl. rewrite Hc, Hs. reflexivity.
Qed.

Lemma noLower_trimEnd s : noLower s = true -> noLower (trimEnd s) = true.
Proof.
  induction s as [|c s IH]; simpl; [easy|].
  intros H. apply andb_true_iff in H as [Hc Hs]. specialize (IH Hs).
  destruct (trimEnd s) as [|d r].
  - destruct (isWhite c); simpl; [reflexivity|]. rewrite Hc. reflexivity.
  - change (noLower (String c (String d r))) with
      (negb (isLower c) && noLower (String d r)).
    rewrite Hc, IH. reflexivity.
Qed.

Lemma noLower_normalizeSize s : noLower (normalizeSize s) = true.
Proof.
  unfold normalizeSize, trim.
  apply noLower_trimEnd, noLower_trimStart, noLower_toUpperCase.
Qed.

(** Once the lower-case letters are gone, the test [/[A-Z]/] finds exactly
    the alphabetic characters. *)
Lemma testAZ_hasAlpha s : noLower s = true -> testAZ s = hasAlpha s.
Proof.
  induction s as [|c s IH]; simpl; [reflexivity|].
  intros H. apply andb_true_iff in H as [Hc Hs].
  unfold isAlpha. apply negb_true_iff in Hc. rewrite Hc, (IH Hs). reflexivity.
Qed.

(** The step of the item loop adds the quantity to the bucket of the
    normalized code. *)
Lemma itemStep_bucket a item :
  itemStep a item =
  addToBucket (bucketOf (normalizeSize (ItemLine.size item)))
              (numOr (ItemLine.quantity item) 0) a.
Proof.
  unfold itemStep, bucketOf.
  rewrite <- (testAZ_hasAlpha _ (noLower_normalizeSize (ItemLine.size item))).
  destruct (normalizeSize (ItemLine.size item)) as [|c s] eqn:E.
  - reflexivity.
  - cbn [truthyStr andb].
    destruct (includes char_R (String c s)); [reflexivity|].
    destruct (includes char_D (String c s)); [reflexivity|].
    destruct (testAZ (String c s)); reflexivity.
Qed.

Lemma fold_itemStep_bucket items a :
  fold_left itemStep items a =
  fold_left (fun acc item =>
               addToBucket (bucketOf (normalizeSize (ItemLine.size item)))
                           (numOr (ItemLine.quantity item) 0) acc) items a.
Proof.
  revert a. induction items as [|it items IH]; intros a; simpl; [reflexivity|].
  rewrite itemStep_bucket. apply IH.
Qed.

Lemma Qsum_cons x l : Qsum (x :: l) = (x + Qsum l)%Q.
Proof. reflexivity. Qed.

Lemma Qsum_nil : Qsum [] = 0%Q.
Proof. reflexivity. Qed.

Lemma filter_bool_cons {A} (p : A -> bool) x l :
  filter p (x :: l) = if p x then x :: filter p l else filter p l.
Proof. rewrite filter_cons. destruct (p x); reflexivity. Qed.

(** The effect of the item loop on the six counters. *)
Lemma fold_itemStep_acc items : forall a,
  let r := fold_left itemStep items a in
  Acc.totalInvoiced r = Acc.totalInvoiced a
  /\ Acc.totalPaid r = Acc.totalPaid a
  /\ Acc.totalCN r = Acc.totalCN a
  /\ (Acc.qtyPcr r == Acc.qtyPcr a + bucketQty PCR items)%Q
  /\ (Acc.qtyNylon r == Acc.qtyNylon a + bucketQty NYLON items)%Q
  /\ (Acc.qty2Wheeler r == Acc.qty2Wheeler a + bucketQty TWO_WHEELER items)%Q.
Proof.
  induction items as [|it items IH]; intros a; cbn [fold_left].
  - unfold bucketQty. rewrite !filter_nil. cbn [map]. rewrite !Qsum_nil.
    repeat split; first [reflexivity | ring].
  - destruct (IH (itemStep a it)) as (H1 & H2 & H3 & H4 & H5 & H6).
    cbv zeta. rewrite H1, H2, H3, H4, H5, H6. clear IH H1 H2 H3 H4 H5 H6.
    rewrite itemStep_bucket.
    unfold bucketQty. rewrite !filter_bool_cons.
    assert (Hp : inBucket PCR it = match bucketOf (normalizeSize (ItemLine.size it))
                                   with Some PCR => true | _ => false end)
      by reflexivity.
    assert (Hn : inBucket NYLON it = match bucketOf (normalizeSize (ItemLine.size it))
                                     with Some NYLON => true | _ => false end)
      by reflexivity.
    assert (Hw : inBucket TWO_WHEELER it
                 = match bucketOf (normalizeSize (ItemLine.size it))
                   with Some TWO_WHEELER => true | _ => false end)
      by reflexivity.
    rewrite Hp, Hn, Hw.
    destruct (bucketOf (normalizeSize (ItemLine.size it))) as [[]|];
      cbn [addToBucket Acc.totalInvoiced Acc.totalPaid Acc.totalCN
           Acc.qtyPcr Acc.qtyNylon Acc.qty2Wheeler map];
      rewrite ?Qsum_cons; repeat split; first [reflexivity | ring].
Qed.

Lemma includes_toUpperCase u s : includes u (toUpperCase s) = hasLetter u s.
Proof.
  induction s as [|c s IH]; [reflexivity|]. cbn. rewrite IH.
  destruct (Ascii.eqb (upperChar c) u); reflexivity.
Qed.

Lemma includes_trimStart u s : isWhite u = false -> includes u (trimStart s) = includes u s.
Proof.
  intros Hu. induction s as [|c s IH]; [reflexivity|]. cbn [trimStart].
  destruct (isWhite c) eqn:E; [|reflexivity].
  rewrite IH. cbn. destruct (Ascii.eqb_spec c u) as [->|]; [congruence|reflexivity].
Qed.

Lemma trimEnd_nil_allWhite s : trimEnd s = "" <-> allWhite s = true.
Proof.
  induction s as [|c s IH]; [cbn; tauto|]. cbn.
  destruct (trimEnd s) as [|d r] eqn:E.
  - destruct (isWhite c); cbn.
    + split; [intros _; apply IH; reflexivity|reflexivity].
    + split; discriminate.
  - split; [discriminate|]. intros H. apply andb_true_iff in H as [_ H].
    apply IH in H. discriminate.
Qed.

Lemma includes_trimEnd u s : isWhite u = false -> includes u (trimEnd s) = includes u s.
Proof.
  intros Hu. induction s as [|c s IH]; [reflexivity|]. cbn [trimEnd].
  destruct (trimEnd s) as [|d r] eqn:E.
  - cbn [includes] in IH |- *. rewrite <- IH.
    destruct (isWhite c) eqn:Ec; cbn.
    + destruct (Ascii.eqb_spec c u) as [->|]; [congruence|reflexivity].
    + destruct (Ascii.eqb c u); reflexivity.
  - cbn [includes] in IH |- *. rewrite <- IH. reflexivity.
Qed.

Lemma isAlpha_upperChar c : isAlpha (upperChar c) = isAlpha c.
Proof. destruct c as [[] [] [] [] [] [] [] []]; reflexivity. Qed.

Lemma isWhite_upperChar c : isWhite (upperChar c) = isWhite c.
Proof. destruct c as [[] [] [] [] [] [] [] []]; reflexivity. Qed.

Lemma isWhite_not_alpha c : isWhite c = true -> isAlpha c = false.
Proof. destruct c as [[] [] [] [] [] [] [] []]; intros H; try reflexivity; discriminate H. Qed.

Lemma hasAlpha_toUpperCase s : hasAlpha (toUpperCase s) = hasAlpha s.
Proof.
  induction s as [|c s IH]; [reflexivity|]. cbn.
  rewrite isAlpha_upperChar, IH. reflexivity.
Qed.

Lemma allWhite_toUpperCase s : allWhite (toUpperCase s) = allWhite s.
Proof.
  induction s as [|c s IH]; [reflexivity|]. cbn.
  rewrite isWhite_upperChar, IH. reflexivity.
Qed.

Lemma hasAlpha_trimStart s : hasAlpha (trimStart s) = hasAlpha s.
Proof.
  induction s as [|c s IH]; [reflexivity|]. cbn [trimStart].
  destruct (isWhite c) eqn:E; [|reflexivity].
  rewrite IH. cbn. rewrite (isWhite_not_alpha c E). reflexivity.
Qed.

Lemma hasAlpha_trimEnd s : hasAlpha (trimEnd s) = hasAlpha s.
Proof.
  induction s as [|c s IH]; [reflexivity|]. cbn [trimEnd].
  destruct (trimEnd s) as [|d r] eqn:E.
  - cbn [hasAlpha] in IH |- *. rewrite <- IH.
    destruct (isWhite c) eqn:Ec; cbn.
    + rewrite (isWhite_not_alpha c Ec). reflexivity.
    + rewrite orb_false_r. reflexivity.
  - cbn [hasAlpha] in IH |- *. rewrite <- IH. reflexivity.
Qed.

Lemma allWhite_trimStart s : allWhite (trimStart s) = allWhite s.
Proof.
  induction s as [|c s IH]; [reflexivity|]. cbn [trimStart].
  destruct (isWhite c) eqn:E; [|reflexivity].
  rewrite IH. cbn. rewrite E. reflexivity.
Qed.

Lemma truthyStr_trim s : truthyStr (trim s) = negb (allWhite s).
Proof.
  unfold trim. rewrite <- (allWhite_trimStart s).
  destruct (trimEnd (trimStart s)) as [|c r] eqn:E.
  - apply trimEnd_nil_allWhite in E. rewrite E. reflexivity.
  - destruct (allWhite (trimStart s)) eqn:Ew; [|reflexivity].
    apply trimEnd_nil_allWhite in Ew. congruence.
Qed.

(** The bucket that the code chooses on the normalized code is the bucket
    of the code as written. *)
Lemma bucketOf_normalizeSize s : bucketOf (normalizeSize s) = classify s.
Proof.
  unfold bucketOf, classify, normalizeSize, trim. rewrite strOr_empty.
  rewrite !includes_trimEnd, !includes_trimStart, !includes_toUpperCase
    by reflexivity.
  fold (trim (toUpperCase s)).
  rewrite truthyStr_trim, allWhite_toUpperCase.
  unfold trim. rewrite hasAlpha_trimEnd, hasAlpha_trimStart, hasAlpha_toUpperCase.
  destruct (hasLetter char_R s); [reflexivity|].
  destruct (hasLetter char_D s); [reflexivity|].
  destruct (hasAlpha s), (allWhite s); reflexivity.
Qed.

(** What [trim] leaves: the string without the white space at its two
    ends. *)
Lemma trimStart_split s :
  exists l, s = l +:+ trimStart s /\ allWhite l = true /\ startsWhite (trimStart s) = false.
Proof.
  induction s as [|c s (l & Hs & Hl & Hst)].
  - exists "". auto.
  - cbn [trimStart]. destruct (isWhite c) eqn:E.
    + exists (String c l). split; [|split; [cbn; rewrite E; exact Hl|exact Hst]].
      change (String c l +:+ trimStart s) with (String c (l +:+ trimStart s)).
      rewrite <- Hs. reflexivity.
    + exists "". split; [reflexivity|]. split; [reflexivity|]. cbn. exact E.
Qed.

Lemma trimEnd_split s :
  exists r, s = trimEnd s +:+ r /\ allWhite r = true /\ endsWhite (trimEnd s) = false
            /\ (startsWhite s = false -> startsWhite (trimEnd s) = false).
Proof.
  induction s as [|c s (r & Hs & Hr & Hend & Hst)].
  - exists "". auto.
  - cbn [trimEnd]. destruct (trimEnd s) as [|d t] eqn:E.
    + change ("" +:+ r) with r in Hs. subst r.
      destruct (isWhite c) eqn:Ec.
      * exists (String c s). split; [reflexivity|]. split; [cbn; rewrite Ec; exact Hr|].
        split; [reflexivity|]. cbn. congruence.
      * exists s. split; [reflexivity|]. split; [exact Hr|]. split; [cbn; exact Ec|].
        cbn. auto.
    + exists r. split.
      { change (String c (String d t) +:+ r) with (String c (String d t +:+ r)).
        rewrite <- Hs. reflexivity. }
      split; [exact Hr|]. split; [exact Hend|]. cbn. auto.
Qed.

Lemma trim_split s :
  exists l r, s = l +:+ trim s +:+ r /\ allWhite l = true /\ allWhite r = true
              /\ startsWhite (trim s) = false /\ endsWhite (trim s) = false.
Proof.
  destruct (trimStart_split s) as (l & Hs & Hl & Hst).
  destruct (trimEnd_split (trimStart s)) as (r & Ht & Hr & Hend & Hkeep).
  exists l, r. unfold trim. rewrite <- Ht. repeat split; auto.
Qed.

Lemma inBucket_inClass b item : inBucket b item = inClass b item.
Proof. unfold inBucket, inClass. rewrite bucketOf_normalizeSize. reflexivity. Qed.

Lemma bucketQty_classQty b l : bucketQty b l = classQty b l.
Proof.
  unfold bucketQty, classQty. f_equal. f_equal.
  induction l as [|x l IH]; [reflexivity|].
  rewrite !filter_bool_cons, inBucket_inClass, IH. reflexivity.
Qed.

Lemma entryStep_original a e :
  isOriginalInvoice e = true ->
  entryStep a e =
  fold_left itemStep (itemsToProcess e)
    (Acc.mk (Acc.totalInvoiced a + orZero (LedgerEntry.invoiceAmount e))
            (Acc.totalPaid a) (Acc.totalCN a)
            (Acc.qtyPcr a) (Acc.qtyNylon a) (Acc.qty2Wheeler a)).
Proof.
  intros H. unfold isOriginalInvoice, isInvoice in H.
  apply andb_true_iff in H as [Ht Ho].
  unfold entryStep. destruct (LedgerEntry.type e); try discriminate.
  rewrite Ho. reflexivity.
Qed.

Lemma entryStep_original_lines a e lines :
  isOriginalInvoice e = true -> itemsToProcess e = lines ->
  (Acc.totalInvoiced (entryStep a e)
   == Acc.totalInvoiced a + orZero (LedgerEntry.invoiceAmount e))%Q
  /\ (Acc.qtyPcr (entryStep a e) == Acc.qtyPcr a + classQty PCR lines)%Q
  /\ (Acc.qtyNylon (entryStep a e) == Acc.qtyNylon a + classQty NYLON lines)%Q
  /\ (Acc.qty2Wheeler (entryStep a e)
      == Acc.qty2Wheeler a + classQty TWO_WHEELER lines)%Q.
Proof.
  intros Ho <-. rewrite (entryStep_original a e Ho).
  destruct (fold_itemStep_acc (itemsToProcess e)
              (Acc.mk (Acc.totalInvoiced a + orZero (LedgerEntry.invoiceAmount e))
                      (Acc.totalPaid a) (Acc.totalCN a)
                      (Acc.qtyPcr a) (Acc.qtyNylon a) (Acc.qty2Wheeler a)))
    as (H1 & _ & _ & H4 & H5 & H6).
  cbv zeta in H1, H4, H5, H6. rewrite H1, H4, H5, H6, !bucketQty_classQty.
  cbn [Acc.totalInvoiced Acc.qtyPcr Acc.qtyNylon Acc.qty2Wheeler].
  repeat split; reflexivity.
Qed.

(** C6. In the scoped pass, every item of an original invoice (the items of
    the invoice or, when it has none, the one item of its legacy fields) has
    its size code upper-cased and trimmed, that is, freed of the white space
    at its two ends, and its quantity added to exactly the counter chosen by
    the code: PCR when the code contains R (also when it contains D too),
    nylon when it contains D and no R, 2-wheeler when it is not empty and
    has no letter, none otherwise. Read on the code as written, the letters
    count in either case and a code of white space only counts as empty.
    "195/55-R16" is PCR, "100/90-D17" nylon, "90/100" 2-wheeler, "" and "XL"
    nothing. *)
Theorem C6_category_classification :
  (forall s,
      exists l r,
        toUpperCase s = l +:+ normalizeSize s +:+ r
        /\ allWhite l = true /\ allWhite r = true
        /\ startsWhite (normalizeSize s) = false
        /\ endsWhite (normalizeSize s) = false
        /\ noLower (normalizeSize s) = true)
  /\ (forall a item,
         itemStep a item =
         addToBucket (classify (ItemLine.size item))
                     (numOr (ItemLine.quantity item) 0) a)
  /\ (forall s, classify s = bucketOf (normalizeSize s))
  /\ (forall code, includes char_R code = true -> bucketOf code = Some PCR)
  /\ (forall code, includes char_R code = false -> includes char_D code = true ->
                   bucketOf code = Some NYLON)
  /\ (forall code, includes char_R code = false -> includes char_D code = false ->
                   code <> "" -> hasAlpha code = false ->
                   bucketOf code = Some TWO_WHEELER)
  /\ (forall code, includes char_R code = false -> includes char_D code = false ->
                   (code = "" \/ hasAlpha code = true) -> bucketOf code = None)
  /\ (forall a e it its,
         isOriginalInvoice e = true ->
         LedgerEntry.items e = Some (it :: its) ->
         (Acc.qtyPcr (entryStep a e)
          == Acc.qtyPcr a + classQty PCR (map lineOf (it :: its)))%Q
         /\ (Acc.qtyNylon (entryStep a e)
             == Acc.qtyNylon a + classQty NYLON (map lineOf (it :: its)))%Q
         /\ (Acc.qty2Wheeler (entryStep a e)
             == Acc.qty2Wheeler a + classQty TWO_WHEELER (map lineOf (it :: its)))%Q)
  /\ (forall a e,
         isOriginalInvoice e = true ->
         LedgerEntry.items e = None \/ LedgerEntry.items e = Some [] ->
         let legacy :=
           [ItemLine.mk (orEmpty (LedgerEntry.size e)) (orEmpty (LedgerEntry.pattern e))
                        (orZero (LedgerEntry.quantity e))
                        (orZero (LedgerEntry.unitPrice e))] in
         (Acc.qtyPcr (entryStep a e) == Acc.qtyPcr a + classQty PCR legacy)%Q
         /\ (Acc.qtyNylon (entryStep a e) == Acc.qtyNylon a + classQty NYLON legacy)%Q
         /\ (Acc.qty2Wheeler (entryStep a e)
             == Acc.qty2Wheeler a + classQty TWO_WHEELER legacy)%Q)
  /\ (Acc.qtyPcr (entryStep Acc.zero exItemsInvoice) == 4)%Q
  /\ (Acc.qtyNylon (entryStep Acc.zero exItemsInvoice) == 2)%Q
  /\ (Acc.qty2Wheeler (entryStep Acc.zero exItemsInvoice) == 3)%Q
  /\ (Acc.qtyPcr (entryStep Acc.zero exTarget) == 4)%Q
  /\ (Acc.qtyNylon (entryStep Acc.zero exTarget) == 0)%Q
  /\ classify "195/55-R16" = Some PCR
  /\ classify "100/90-D17" = Some NYLON
  /\ classify "90/100" = Some TWO_WHEELER
  /\ classify "" = None
  /\ classify "XL" = None
  /\ classify "R/D" = Some PCR
  /\ normalizeSize "  195/55-r16 " = "195/55-R16"
  /\ classify "  195/55-r16 " = Some PCR
  /\ classify "  90/100 " = Some TWO_WHEELER
  /\ classify "   " = None.
Proof.
  split.
  { intros s. unfold normalizeSize. rewrite strOr_empty.
    destruct (trim_split (toUpperCase s)) as (l & r & Hs & Hl & Hr & Hst & Hend).
    exists l, r. repeat split; try assumption.
    rewrite <- (strOr_empty s) at 1. apply noLower_normalizeSize. }
  split.
  { intros a item. rewrite itemStep_bucket, bucketOf_normalizeSize. reflexivity. }
  split; [intros s; symmetry; apply bucketOf_normalizeSize|].
  split; [intros code H; unfold bucketOf; rewrite H; reflexivity|].
  split; [intros code H1 H2; unfold bucketOf; rewrite H1, H2; reflexivity|].
  split.
  { intros code H1 H2 Hne Ha. unfold bucketOf. rewrite H1, H2, Ha.
    destruct code; [congruence|reflexivity]. }
  split.
  { intros code H1 H2 [->|Ha]; unfold bucketOf.
    - reflexivity.
    - rewrite H1, H2, Ha, andb_false_r. reflexivity. }
  split.
  { intros a e it its Ho Hitems.
    apply (entryStep_original_lines a e (map lineOf (it :: its)) Ho).
    unfold itemsToProcess. rewrite Hitems. reflexivity. }
  split.
  { intros a e Ho Hitems legacy.
    apply (entryStep_original_lines a e legacy Ho).
    unfold itemsToProcess. destruct Hitems as [-> | ->]; reflexivity. }
  repeat split; reflexivity.
Qed.

(** ** Metrics *)

(** The three counters of the global pass are three left-to-right sums. *)
Lemma fold_globalStep l : forall g,
  fold_left globalStep l g =
  Global.mk (fold_left Qplus (invoicedAmounts l) (Global.globalInvoiced g))
            (fold_left Qplus (paidAmounts l) (Global.globalPaid g))
            (fold_left Qplus (cnAmounts l) (Global.globalCN g)).
Proof.
  unfold invoicedAmounts, paidAmounts, cnAmounts.
  induction l as [|e l IH]; intros g; [destruct g; reflexivity|].
  cbn [fold_left]. rewrite IH, !filter_bool_cons.
  unfold globalStep, isOriginalInvoice, isPayment, isCN, isInvoice.
  destruct (LedgerEntry.type e); cbn [andb];
    [destruct (truthyOpt (LedgerEntry.originalRefId e))|..]; reflexivity.
Qed.

Lemma fold_left_Qplus_Qsum l : forall a, (fold_left Qplus l a == a + Qsum l)%Q.
Proof.
  induction l as [|x l IH]; intros a; simpl.
  - ring.
  - rewrite IH. ring.
Qed.

Lemma sumL_Qsum l : (sumL l == Qsum l)%Q.
Proof. unfold sumL. rewrite fold_left_Qplus_Qsum. ring. Qed.

Lemma outstanding_computeStats visible all :
  Stats.outstanding (computeStats visible all) =
  (sumL (invoicedAmounts all) - sumL (paidAmounts all) - sumL (cnAmounts all))%Q.
Proof. unfold computeStats. cbn. rewrite fold_globalStep. reflexivity. Qed.

(** C1. For every entry list and every filter, the outstanding figure of
    [stats] is the sum of the invoice amounts of the invoices whose
    [originalRefId] is unset, minus the sum of the payment amounts of the
    payments, minus the sum of the credit-note amounts of the credit notes,
    all three taken over the whole list and not over the filtered view. *)
Theorem C1_outstanding_is_global_sum :
  forall localeCompare (entries : list LedgerEntry.t) (filterDate : string),
    Stats.outstanding (stats localeCompare entries filterDate) =
      (sumL (invoicedAmounts entries) - sumL (paidAmounts entries)
       - sumL (cnAmounts entries))%Q
    /\ (Stats.outstanding (stats localeCompare entries filterDate) ==
        Qsum (invoicedAmounts entries) - Qsum (paidAmounts entries)
        - Qsum (cnAmounts entries))%Q.
Proof.
  intros lc entries fd. unfold stats.
  rewrite outstanding_computeStats. split; [reflexivity|].
  rewrite !sumL_Qsum. reflexivity.
Qed.

(** A balance-forward invoice leaves every counter of both passes as it
    found them. *)
Lemma entryStep_balanceForward a e : isBalanceForward e = true -> entryStep a e = a.
Proof.
  unfold isBalanceForward, isInvoice, entryStep.
  destruct (LedgerEntry.type e); cbn [andb]; try discriminate.
  intros ->. reflexivity.
Qed.

Lemma globalStep_balanceForward g e : isBalanceForward e = true -> globalStep g e = g.
Proof.
  unfold isBalanceForward, isInvoice, globalStep.
  destruct (LedgerEntry.type e); cbn [andb]; try discriminate.
  intros ->. reflexivity.
Qed.

Lemma fold_entryStep_drop l : forall a,
  fold_left entryStep (filter notBalanceForward l) a = fold_left entryStep l a.
Proof.
  induction l as [|e l IH]; intros a; [reflexivity|].
  rewrite filter_bool_cons. unfold notBalanceForward at 1.
  destruct (isBalanceForward e) eqn:E; cbn [negb fold_left].
  - rewrite (entryStep_balanceForward _ _ E). apply IH.
  - apply IH.
Qed.

Lemma fold_globalStep_drop l : forall g,
  fold_left globalStep (filter notBalanceForward l) g = fold_left globalStep l g.
Proof.
  induction l as [|e l IH]; intros g; [reflexivity|].
  rewrite filter_bool_cons. unfold notBalanceForward at 1.
  destruct (isBalanceForward e) eqn:E; cbn [negb fold_left].
  - rewrite (globalStep_balanceForward _ _ E). apply IH.
  - apply IH.
Qed.

Lemma computeStats_drop_balanceForward visible all :
  computeStats (filter notBalanceForward visible) (filter notBalanceForward all)
  = computeStats visible all.
Proof.
  unfold computeStats. rewrite fold_entryStep_drop, fold_globalStep_drop.
  reflexivity.
Qed.

(** C2 (amended). Balance-forward invoices are excluded from every figure
    of [stats]: from the total invoiced and the category quantities of the
    view, filtered or not, and from the global outstanding balance as well.
    The statistics are those of the ledger without its balance-forward
    invoices, and inserting one anywhere changes nothing. *)
Theorem C2_balance_forward_excluded_everywhere :
  (forall visible all,
      computeStats (filter notBalanceForward visible)
                   (filter notBalanceForward all)
      = computeStats visible all)
  /\ (forall localeCompare entries filterDate,
      stats localeCompare entries filterDate =
      computeStats
        (filter notBalanceForward (filteredEntries localeCompare entries filterDate))
        (filter notBalanceForward entries))
  /\ (forall b v1 v2 a1 a2,
      isBalanceForward b = true ->
      computeStats (v1 ++ b :: v2) (a1 ++ b :: a2) = computeStats (v1 ++ v2) (a1 ++ a2)).
Proof.
  split; [exact computeStats_drop_balanceForward|].
  split.
  - intros lc entries fd. unfold stats.
    symmetry. apply computeStats_drop_balanceForward.
  - intros b v1 v2 a1 a2 Hb. unfold computeStats.
    rewrite !fold_left_app. cbn [fold_left].
    rewrite (entryStep_balanceForward _ _ Hb), (globalStep_balanceForward _ _ Hb).
    reflexivity.
Qed.

(** The claim as first stated has the balance-forward invoices counted in
    the outstanding balance through their own invoice amount; a ledger that
    holds only a pending balance-forward invoice of 600 has nothing
    outstanding, and the ledger after a partial credit note has the
    outstanding balance of the same ledger without its balance invoice. *)
Lemma C2_counterexample :
  isBalanceForward exBalance = true
  /\ LedgerEntry.invoiceAmount exBalance = Some 600%Q
  /\ LedgerEntry.status exBalance = Some PENDING
  /\ (Stats.outstanding (stats naturalCompare [exBalance] "") == 0)%Q
  /\ ~ (Stats.outstanding (stats naturalCompare [exBalance] "") == 600)%Q
  /\ (Stats.outstanding (stats naturalCompare exAfterAdjust "")
      == Stats.outstanding
           (stats naturalCompare (filter notBalanceForward exAfterAdjust) ""))%Q.
Proof.
  split; [reflexivity|]. split; [reflexivity|]. split; [reflexivity|].
  split; [reflexivity|]. split; [|reflexivity].
  intros H. vm_compute in H. discriminate H.
Qed.

(** ** The sort *)

Section JsSortFacts.
Context {A : Type} (cmp : A -> A -> Z).

Lemma insertSorted_split x l :
  exists l1 l2, l = l1 ++ l2 /\ insertSorted cmp x l = l1 ++ x :: l2
    /\ (forall y, y ∈ l1 -> (0 < cmp x y)%Z)
    /\ (forall y, head l2 = Some y -> ~ (0 < cmp x y)%Z).
Proof.
  induction l as [|y l IH]; simpl.
  - exists [], []. repeat split; [intros y Hy; inversion Hy | discriminate].
  - destruct (0 <? cmp x y)%Z eqn:E.
    + destruct IH as (l1 & l2 & -> & -> & H1 & H2).
      exists (y :: l1), l2. repeat split; [|exact H2].
      intros z Hz. apply elem_of_cons in Hz as [->|Hz]; [lia|auto].
    + exists [], (y :: l). repeat split.
      * intros z Hz. inversion Hz.
      * intros z [= <-]. lia.
Qed.

Lemma insertSorted_Permutation x l : insertSorted cmp x l ≡ₚ x :: l.
Proof.
  destruct (insertSorted_split x l) as (l1 & l2 & -> & -> & _).
  symmetry. apply Permutation_middle.
Qed.

Lemma jsSort_Permutation l : jsSort cmp l ≡ₚ l.
Proof.
  induction l as [|x l IH]; simpl; [reflexivity|].
  rewrite insertSorted_Permutation, IH. reflexivity.
Qed.

Lemma jsSort_length l : length (jsSort cmp l) = length l.
Proof. apply Permutation_length, jsSort_Permutation. Qed.

Lemma jsSort_elem_of x l : x ∈ jsSort cmp l <-> x ∈ l.
Proof. rewrite (jsSort_Permutation l). reflexivity. Qed.

Lemma jsSort_nil_inv l : jsSort cmp l = [] -> l = [].
Proof.
  intros H. apply (f_equal length) in H. rewrite jsSort_length in H.
  destruct l; [reflexivity|discriminate].
Qed.



(** The first element of the sorted array: the first of the elements that
    no other element has to precede. *)
Lemma head_insertSorted x l :
  head (insertSorted cmp x l) =
  match head l with
  | Some y => if (0 <? cmp x y)%Z then Some y else Some x
  | None => Some x
  end.
Proof.
  destruct l as [|y l]; simpl; [reflexivity|].
  destruct (0 <? cmp x y)%Z; reflexivity.
Qed.

Lemma head_jsSort_elem_of l x : head (jsSort cmp l) = Some x -> x ∈ l.
Proof. intros H. apply jsSort_elem_of, head_Some_elem_of, H. Qed.

Lemma head_jsSort_first_least l1 x l2 :
  (forall z, z ∈ l1 -> (0 < cmp z x)%Z) ->
  (forall z, z ∈ l2 -> ~ (0 < cmp x z)%Z) ->
  head (jsSort cmp (l1 ++ x :: l2)) = Some x.
Proof.
  intros H1 H2. induction l1 as [|z l1 IH]; simpl.
  - rewrite head_insertSorted.
    destruct (head (jsSort cmp l2)) as [y|] eqn:E; [|reflexivity].
    apply head_jsSort_elem_of in E. specialize (H2 y E).
    destruct (0 <? cmp x y)%Z eqn:E'; [lia|reflexivity].
  - rewrite head_insertSorted, IH.
    + assert (0 < cmp z x)%Z by (apply H1; left).
      destruct (0 <? cmp z x)%Z eqn:E'; [reflexivity|lia].
    + intros y Hy. apply H1. right. exact Hy.
Qed.

(** On a consistent comparator the result is ordered. *)
Lemma insertSorted_sorted x l :
  consistent cmp ->
  StronglySorted (fun a b => (cmp a b <= 0)%Z) l ->
  StronglySorted (fun a b => (cmp a b <= 0)%Z) (insertSorted cmp x l).
Proof.
  intros [Hanti Htrans] Hs. induction Hs as [|y l Hs IH Hy]; simpl.
  - repeat constructor.
  - destruct (0 <? cmp x y)%Z eqn:E.
    + constructor; [exact IH|].
      apply Forall_forall. intros z Hz.
      rewrite (insertSorted_Permutation x l) in Hz.
      apply elem_of_cons in Hz as [->|Hz].
      * assert (cmp y x < 0)%Z by (apply Hanti; lia). lia.
      * rewrite Forall_forall in Hy. apply Hy, Hz.
    + assert (Hxy : (cmp x y <= 0)%Z) by lia.
      constructor; [constructor; assumption|].
      constructor; [exact Hxy|].
      rewrite Forall_forall in Hy |- *. intros z Hz.
      apply (Htrans x y z Hxy), Hy, Hz.
Qed.

Lemma jsSort_sorted l :
  consistent cmp -> StronglySorted (fun a b => (cmp a b <= 0)%Z) (jsSort cmp l).
Proof.
  intros Hc. induction l as [|x l IH]; simpl; [constructor|].
  apply insertSorted_sorted; assumption.
Qed.



End JsSortFacts.

(** ** Comparators *)

Lemma string_compare_refl s : String.compare s s = Eq.
Proof.
  pose proof (String.compare_antisym s s) as H.
  destruct (String.compare s s); simpl in H; congruence.
Qed.

Lemma string_ltb_le_ne a b :
  String.ltb a b = true <-> String.le a b /\ a <> b.
Proof.
  unfold String.ltb, String.le, String.leb.
  destruct (String.compare a b) eqn:E; simpl.
  - apply String.compare_eq_iff in E. subst. split; [intros H; discriminate H|].
    intros [_ H]. congruence.
  - split; [|reflexivity]. intros _. split; [exact I|].
    intros ->. rewrite string_compare_refl in E. discriminate.
  - split; [intros H; discriminate H|]. intros [[] _].
Qed.


Lemma string_ltb_trans a b c :
  String.ltb a b = true -> String.ltb b c = true -> String.ltb a c = true.
Proof.
  rewrite !string_ltb_le_ne. intros [Hab Hne] [Hbc Hne'].
  split; [etransitivity; eassumption|].
  intros ->. apply Hne. apply (anti_symm String.le); assumption.
Qed.

Section CmpEntries.
Variable localeCompare : string -> string -> Z.
Hypothesis lc_consistent : consistent localeCompare.





End CmpEntries.

















(** The view of the example ledger: the invoice of December first, then
    "INV-2" before "INV-10" although it stands behind it in the ledger, and
    "inv-7" and "INV-7" of one date in the order of the ledger. *)
Example filteredEntries_example :
  filteredEntries naturalCompare exSortLedger "2024-01" = [exInv2; exInv10]
  /\ filteredEntries naturalCompare exSortLedger "" = [exInvDec; exInv2; exInv10]
  /\ naturalCompare "inv-7" "INV-7" = 0%Z
  /\ naturalCompare "INV-9" "inv-10" = (-1)%Z
  /\ naturalCompare "INV-007" "INV-7" = 0%Z.
Proof. repeat split; reflexivity. Qed.

(** ** The credit-note engine *)

Lemma balanceInvoice_setStatusNotes e st n newId amt :
  balanceInvoice (setStatusNotes e st n) newId amt = balanceInvoice e newId amt.
Proof. reflexivity. Qed.

Lemma sameButStatusNotes_refl e : sameButStatusNotes e e.
Proof. destruct e; reflexivity. Qed.

Lemma sameButStatusNotes_set e st n : sameButStatusNotes e (setStatusNotes e st n).
Proof. reflexivity. Qed.

Lemma indexed_elem_of l i e : (i, e) ∈ indexed l <-> l !! i = Some e.
Proof.
  unfold indexed. rewrite elem_of_lookup_imap. split.
  - intros (j & y & [= -> ->] & H). exact H.
  - intros H. exists i, e. split; [reflexivity|exact H].
Qed.

Lemma pending_refs_elem_of l i e :
  (i, e) ∈ filter (fun r : nat * LedgerEntry.t => isPendingInvoice r.2) (indexed l)
  <-> l !! i = Some e /\ isPendingInvoice e = true.
Proof.
  rewrite list_elem_of_filter, indexed_elem_of. simpl.
  rewrite Is_true_true. tauto.
Qed.

(** Identifiers that are pairwise distinct make [findIndex] return the
    position of the entry it is given. *)
Lemma findIndex_unique l i t :
  NoDup (LedgerEntry.id <$> l) -> l !! i = Some t ->
  findIndex (LedgerEntry.id t) l = Some i.
Proof.
  intros Hnd Hi. unfold findIndex.
  assert (H : list_find (fun e => LedgerEntry.id e = LedgerEntry.id t) l = Some (i, t)).
  { apply list_find_Some. split; [exact Hi|]. split; [reflexivity|].
    intros j y Hj Hlt Hid.
    assert (j = i); [|lia].
    apply (NoDup_lookup _ _ _ (LedgerEntry.id t) Hnd).
    - rewrite list_lookup_fmap, Hj. simpl. rewrite Hid. reflexivity.
    - rewrite list_lookup_fmap, Hi. reflexivity. }
  rewrite H. reflexivity.
Qed.

(** An entry of the list is always found, so the write through the index
    never fails. *)
Lemma findIndex_is_Some l i t :
  l !! i = Some t -> is_Some (findIndex (LedgerEntry.id t) l).
Proof.
  intros Hi. unfold findIndex.
  destruct (list_find_elem_of (fun e => LedgerEntry.id e = LedgerEntry.id t) l t)
    as [[k y] Hk].
  - eapply list_elem_of_lookup_2, Hi.
  - reflexivity.
  - rewrite Hk. eexists. reflexivity.
Qed.

Section EngineFacts.
Variable getTime : string -> option Z.
Variable intlFormat : Q -> string.

Lemma targetInvoice_Some l i t :
  targetInvoice getTime l = Some (i, t) ->
  l !! i = Some t /\ isPendingInvoice t = true.
Proof.
  unfold targetInvoice, pendingInvoices. intros H.
  apply head_jsSort_elem_of in H. apply pending_refs_elem_of, H.
Qed.

Lemma targetInvoice_None l :
  targetInvoice getTime l = None <->
  (forall e, e ∈ l -> isPendingInvoice e = false).
Proof.
  unfold targetInvoice, pendingInvoices. rewrite head_None. split.
  - intros H e He. apply jsSort_nil_inv in H.
    apply list_elem_of_lookup in He as [i Hi].
    destruct (isPendingInvoice e) eqn:E; [|reflexivity].
    assert (Hin : (i, e) ∈ filter (fun r : nat * LedgerEntry.t => isPendingInvoice r.2)
                     (indexed l)) by (apply pending_refs_elem_of; auto).
    rewrite H in Hin. inversion Hin.
  - intros H.
    destruct (filter (fun r : nat * LedgerEntry.t => isPendingInvoice r.2) (indexed l))
      as [|[i e] rest] eqn:E; [reflexivity|].
    assert (Hin : (i, e) ∈ filter (fun r : nat * LedgerEntry.t => isPendingInvoice r.2)
                     (indexed l)) by (rewrite E; left).
    apply pending_refs_elem_of in Hin as [Hi Hp].
    rewrite (H e) in Hp; [discriminate|]. eapply list_elem_of_lookup_2, Hi.
Qed.

(** The references to the pending invoices split around any one of them:
    those before it in the list, then it, then those after it. *)
Lemma pending_refs_split l i t :
  l !! i = Some t -> isPendingInvoice t = true ->
  exists before after,
    filter (fun r : nat * LedgerEntry.t => isPendingInvoice r.2) (indexed l)
    = before ++ (i, t) :: after
    /\ (forall j e, (j, e) ∈ before ->
          j < i /\ l !! j = Some e /\ isPendingInvoice e = true)
    /\ (forall j e, (j, e) ∈ after ->
          i < j /\ l !! j = Some e /\ isPendingInvoice e = true).
Proof.
  intros Hi Hp.
  pose proof (lookup_lt_Some _ _ _ Hi) as Hlen.
  pose proof (take_drop_middle l i t Hi) as Hsplit.
  set (P := fun r : nat * LedgerEntry.t => isPendingInvoice r.2).
  exists (filter P (imap (fun k e => (k, e)) (take i l))),
         (filter P (imap (fun k e => (i + S k, e)) (drop (S i) l))).
  split; [|split].
  - unfold indexed. rewrite <- Hsplit at 1.
    rewrite imap_app, filter_app. f_equal.
    rewrite length_take, Nat.min_l by lia.
    rewrite imap_cons, filter_cons_True.
    + rewrite Nat.add_0_r. f_equal.
    + unfold P. simpl. rewrite Hp. exact I.
  - intros j e Hin. apply list_elem_of_filter in Hin as [HP Hin].
    apply elem_of_lookup_imap in Hin as (k & y & [= -> ->] & Hk).
    apply lookup_take_Some in Hk as [Hk Hlt].
    unfold P in HP. simpl in HP. apply Is_true_true in HP. auto.
  - intros j e Hin. apply list_elem_of_filter in Hin as [HP Hin].
    apply elem_of_lookup_imap in Hin as (k & y & [= -> ->] & Hk).
    rewrite lookup_drop in Hk.
    unfold P in HP. simpl in HP. apply Is_true_true in HP.
    split; [lia|]. split; [|exact HP].
    rewrite <- Hk. f_equal. lia.
Qed.

(** The target of the code is the earliest-dated pending invoice. *)
Lemma earliest_is_target l i t :
  isEarliestPending getTime l i t -> targetInvoice getTime l = Some (i, t).
Proof.
  intros (Hi & Hp & Hmin).
  destruct (pending_refs_split l i t Hi Hp) as (before & after & Hsplit & Hb & Ha).
  unfold targetInvoice, pendingInvoices. rewrite Hsplit.
  apply head_jsSort_first_least.
  - intros [j e] Hin. destruct (Hb j e Hin) as (Hlt & Hj & Hpe).
    destruct (Hmin j e Hj Hpe) as (x & y & Hx & Hy & Hxy).
    unfold cmpTime. simpl. rewrite Hx, Hy. lia.
  - intros [j e] Hin. destruct (Ha j e Hin) as (Hlt & Hj & Hpe).
    destruct (Hmin j e Hj Hpe) as (x & y & Hx & Hy & Hxy).
    unfold cmpTime. simpl. rewrite Hx, Hy. lia.
Qed.

(** The outcome of the engine, case by case, when identifiers are pairwise
    distinct. *)
Lemma applyCreditNote_cases l a d n cnId balId :
  NoDup (LedgerEntry.id <$> l) ->
  applyCreditNote getTime intlFormat l a d n cnId balId =
  Some
    match targetInvoice getTime l with
    | Some (i, t) =>
        if Qltb 0 a then
          if Qltb (Qabs (numSub a (orZero (LedgerEntry.invoiceAmount t))))
                  (toDouble (1 # 100)) then
            alter settle i l ++ [cnEntry cnId d a n]
          else if Qltb a (orZero (LedgerEntry.invoiceAmount t)) then
            alter (adjust intlFormat a) i l
              ++ [balanceInvoice t balId (numSub (orZero (LedgerEntry.invoiceAmount t)) a);
                  cnEntry cnId d a n]
          else alter settle i l ++ [cnEntry cnId d a n]
        else l ++ [cnEntry cnId d a n]
    | None => l ++ [cnEntry cnId d a n]
    end.
Proof.
  intros Hnd. unfold applyCreditNote. rewrite map_id.
  destruct (targetInvoice getTime l) as [[i t]|] eqn:Ht.
  - pose proof Ht as Ht'. unfold targetInvoice in Ht'.
    destruct (pendingInvoices getTime l) as [|[i' t'] rest]; [discriminate|].
    injection Ht' as -> ->.
    destruct (targetInvoice_Some _ _ _ Ht) as [Hi Hp].
    destruct (Qltb 0 a); [|reflexivity].
    rewrite (findIndex_unique _ _ _ Hnd Hi).
    destruct (Qltb (Qabs (numSub a (orZero (LedgerEntry.invoiceAmount t))))
                  (toDouble (1 # 100)));
      [reflexivity|].
    destruct (Qltb a (orZero (LedgerEntry.invoiceAmount t))); [|reflexivity].
    rewrite list_lookup_alter_eq, Hi. simpl.
    unfold adjust at 2. rewrite balanceInvoice_setStatusNotes.
    rewrite <- app_assoc. reflexivity.
  - unfold targetInvoice in Ht. apply head_None in Ht. rewrite Ht. reflexivity.
Qed.

(** The engine returns a list on every input. *)
Lemma applyCreditNote_total l a d n cnId balId :
  is_Some (applyCreditNote getTime intlFormat l a d n cnId balId).
Proof.
  unfold applyCreditNote. rewrite map_id.
  destruct (pendingInvoices getTime l) as [|[i t] rest] eqn:E; [eexists; reflexivity|].
  destruct (Qltb 0 a); [|eexists; reflexivity].
  assert (Hi : l !! i = Some t).
  { apply (targetInvoice_Some l i t). unfold targetInvoice. rewrite E. reflexivity. }
  destruct (findIndex_is_Some _ _ _ Hi) as [k ->].
  destruct (Qltb (Qabs (numSub a (orZero (LedgerEntry.invoiceAmount t))))
                  (toDouble (1 # 100)));
    [eexists; reflexivity|].
  destruct (Qltb a (orZero (LedgerEntry.invoiceAmount t))); eexists; reflexivity.
Qed.

(** Without a pending invoice, or with an amount that is not positive, the
    engine only appends the credit note. *)
Lemma applyCreditNote_append_only l a d n cnId balId :
  targetInvoice getTime l = None \/ ~ (0 < a)%Q ->
  applyCreditNote getTime intlFormat l a d n cnId balId
  = Some (l ++ [cnEntry cnId d a n]).
Proof.
  intros H. unfold applyCreditNote. rewrite map_id.
  destruct (pendingInvoices getTime l) as [|[i t] rest] eqn:E; [reflexivity|].
  destruct H as [H|H].
  - unfold targetInvoice in H. rewrite E in H. discriminate.
  - destruct (Qltb 0 a) eqn:Ea; [|reflexivity].
    apply Qltb_lt in Ea. contradiction.
Qed.

End EngineFacts.

(** ** Example ledgers: facts *)

Lemma exEngineLedger_NoDup : NoDup (LedgerEntry.id <$> exEngineLedger).
Proof. exact (bool_decide_unpack (NoDup (LedgerEntry.id <$> exEngineLedger)) I). Qed.

Lemma exEngineLedger_earliest : isEarliestPending isoGetTime exEngineLedger 2 exTarget.
Proof.
  split; [reflexivity|]. split; [reflexivity|].
  intros j e Hj Hp.
  destruct j as [|[|[|j]]]; simpl in Hj; try discriminate;
    injection Hj as <-; try discriminate Hp.
  - eexists _, _. split; [reflexivity|]. split; [reflexivity|]. left. reflexivity.
  - eexists _, _. split; [reflexivity|]. split; [reflexivity|]. right. split; [reflexivity|lia].
Qed.

Lemma exNoPendingLedger_none e :
  e ∈ exNoPendingLedger -> isPendingInvoice e = false.
Proof.
  unfold exNoPendingLedger. rewrite !elem_of_cons, elem_of_nil.
  intros [->|[->|[]]]; reflexivity.
Qed.

(** ** Claims on the credit-note engine *)

Section EngineClaims.
Variable getTime : string -> option Z.
Variable intlFormat : Q -> string.

(** What the engine does to the entries it was given: each stays in its
    place, changed at most in status and notes, and only the target is
    changed. *)
Lemma alter_target_lookup (f : LedgerEntry.t -> LedgerEntry.t)
    (l : list LedgerEntry.t) (i : nat) t :
  l !! i = Some t ->
  forall k e, l !! k = Some e ->
    exists e', alter f i l !! k = Some e'
      /\ ((k = i /\ e = t /\ e' = f t) \/ (k <> i /\ e' = e)).
Proof.
  intros Hi k e Hk. destruct (decide (k = i)) as [->|Hne].
  - rewrite list_lookup_alter_eq, Hk. simpl. eexists. split; [reflexivity|].
    left. rewrite Hi in Hk. injection Hk as ->. auto.
  - rewrite list_lookup_alter_ne by congruence. eauto.
Qed.

Lemma applyCreditNote_shape l a d n cnId balId :
  NoDup (LedgerEntry.id <$> l) ->
  exists pre news,
    applyCreditNote getTime intlFormat l a d n cnId balId = Some (pre ++ news)
    /\ (pre = l
        \/ exists i t, targetInvoice getTime l = Some (i, t)
             /\ (pre = alter settle i l \/ pre = alter (adjust intlFormat a) i l))
    /\ (news = [cnEntry cnId d a n]
        \/ exists i t, targetInvoice getTime l = Some (i, t)
             /\ news = [balanceInvoice t balId (numSub (orZero (LedgerEntry.invoiceAmount t)) a);
                        cnEntry cnId d a n]).
Proof.
  intros Hnd. rewrite (applyCreditNote_cases _ _ _ _ _ _ _ _ Hnd).
  destruct (targetInvoice getTime l) as [[i t]|] eqn:Ht.
  - destruct (Qltb 0 a).
    + destruct (Qltb (Qabs (numSub a (orZero (LedgerEntry.invoiceAmount t))))
                  (toDouble (1 # 100))).
      * eexists _, _. split; [reflexivity|]. split; [right|left; reflexivity].
        exists i, t. auto.
      * destruct (Qltb a (orZero (LedgerEntry.invoiceAmount t))).
        -- eexists _, _. split; [reflexivity|]. split; right; exists i, t; auto.
        -- eexists _, _. split; [reflexivity|]. split; [right|left; reflexivity].
           exists i, t. auto.
    + eexists _, _. split; [reflexivity|]. auto.
  - eexists _, _. split; [reflexivity|]. auto.
Qed.

Lemma pre_lookup (l pre : list LedgerEntry.t) a :
  (pre = l
   \/ exists i t, targetInvoice getTime l = Some (i, t)
        /\ (pre = alter settle i l \/ pre = alter (adjust intlFormat a) i l)) ->
  forall k e, l !! k = Some e ->
    exists e', pre !! k = Some e'
      /\ sameButStatusNotes e e'
      /\ (e' <> e ->
          targetInvoice getTime l = Some (k, e)
          /\ (LedgerEntry.status e' = Some PAID \/ LedgerEntry.status e' = Some ADJUSTED)).
Proof.
  intros [->|(i & t & Ht & Hpre)] k e Hk.
  - exists e. split; [exact Hk|]. split; [apply sameButStatusNotes_refl|].
    intros H. contradiction.
  - destruct (targetInvoice_Some _ _ _ _ Ht) as [Hi _].
    destruct Hpre as [-> | ->].
    + destruct (alter_target_lookup settle l i t Hi k e Hk)
        as (e' & He' & [(-> & -> & ->)|(Hne & ->)]).
      * eexists. split; [exact He'|]. split; [apply sameButStatusNotes_set|].
        intros _. split; [exact Ht|]. left. reflexivity.
      * eexists. split; [exact He'|]. split; [apply sameButStatusNotes_refl|].
        intros H. contradiction.
    + destruct (alter_target_lookup (adjust intlFormat a) l i t Hi k e Hk)
        as (e' & He' & [(-> & -> & ->)|(Hne & ->)]).
      * eexists. split; [exact He'|]. split; [apply sameButStatusNotes_set|].
        intros _. split; [exact Ht|]. right. reflexivity.
      * eexists. split; [exact He'|]. split; [apply sameButStatusNotes_refl|].
        intros H. contradiction.
Qed.

Lemma pre_length (l pre : list LedgerEntry.t) a :
  (pre = l
   \/ exists i t, targetInvoice getTime l = Some (i, t)
        /\ (pre = alter settle i l \/ pre = alter (adjust intlFormat a) i l)) ->
  length pre = length l.
Proof.
  intros [->|(i & t & _ & [-> | ->])]; [reflexivity|apply length_alter..].
Qed.

End EngineClaims.

Lemma alter_as_insert (f : LedgerEntry.t -> LedgerEntry.t)
    (l : list LedgerEntry.t) (i : nat) t :
  l !! i = Some t -> alter f i l = <[i := f t]> l.
Proof.
  intros Hi. apply list_eq. intros k.
  destruct (decide (k = i)) as [->|Hne].
  - rewrite list_lookup_alter_eq, Hi, list_lookup_insert_eq; [reflexivity|].
    eapply lookup_lt_Some, Hi.
  - rewrite list_lookup_alter_ne, list_lookup_insert_ne by congruence. reflexivity.
Qed.

(** C3 (amended). When the earliest-dated pending invoice (the target) has
    an invoice amount strictly greater than a positive credit-note amount,
    and the difference of the two, computed in binary64 as the engine
    computes it, is 0.01 or more in absolute value, the engine sets the
    status of the target to ADJUSTED, appends
    " [Adj by CN <formatted amount>]" to its notes, and appends a
    balance-forward invoice and then the credit note, so that the list
    grows by exactly 2. The balance-forward invoice has a fresh identifier,
    invoice number target.invoiceNo + "-BAL", invoice amount and unit price
    target.invoiceAmount - amount (the binary64 difference), quantity 1,
    size "Balance Forward", pattern "-", no items, originalRefId =
    target.id, status PENDING, notes
    "Balance after CN adjustment on <invoiceNo>", and the type, date, due
    date, payment amount and credit-note amount of the target. *)
Theorem C3_partial_credit_note_splits_target :
  forall getTime intlFormat (entries : list LedgerEntry.t) (amountVal : Q)
         (transDate transNotes cnId balId : string) (i : nat) target,
    NoDup (LedgerEntry.id <$> entries) ->
    isEarliestPending getTime entries i target ->
    (0 < amountVal)%Q ->
    (amountVal < orZero (LedgerEntry.invoiceAmount target))%Q ->
    (toDouble (1 # 100)
     <= Qabs (numSub amountVal (orZero (LedgerEntry.invoiceAmount target))))%Q ->
    exists target' bal,
      applyCreditNote getTime intlFormat entries amountVal transDate transNotes
                      cnId balId
      = Some (<[i := target']> entries
                ++ [bal; cnEntry cnId transDate amountVal transNotes])
      /\ length (<[i := target']> entries
                   ++ [bal; cnEntry cnId transDate amountVal transNotes])
         = length entries + 2
      /\ sameButStatusNotes target target'
      /\ LedgerEntry.status target' = Some ADJUSTED
      /\ LedgerEntry.notes target'
         = Some (orEmpty (LedgerEntry.notes target) +:+ " [Adj by CN "
                   +:+ formatCurrency intlFormat (Some amountVal) +:+ "]")
      /\ LedgerEntry.id bal = balId
      /\ LedgerEntry.type bal = INVOICE
      /\ LedgerEntry.invoiceNo bal = LedgerEntry.invoiceNo target +:+ "-BAL"
      /\ LedgerEntry.invoiceAmount bal
         = Some (numSub (orZero (LedgerEntry.invoiceAmount target)) amountVal)
      /\ LedgerEntry.quantity bal = Some 1%Q
      /\ LedgerEntry.unitPrice bal
         = Some (numSub (orZero (LedgerEntry.invoiceAmount target)) amountVal)
      /\ LedgerEntry.size bal = Some "Balance Forward"
      /\ LedgerEntry.pattern bal = Some "-"
      /\ LedgerEntry.items bal = Some []
      /\ LedgerEntry.originalRefId bal = Some (LedgerEntry.id target)
      /\ LedgerEntry.status bal = Some PENDING
      /\ LedgerEntry.date bal = LedgerEntry.date target
      /\ LedgerEntry.dueDate bal = LedgerEntry.dueDate target
      /\ LedgerEntry.paymentAmount bal = LedgerEntry.paymentAmount target
      /\ LedgerEntry.cnAmount bal = LedgerEntry.cnAmount target
      /\ LedgerEntry.notes bal
         = Some ("Balance after CN adjustment on " +:+ LedgerEntry.invoiceNo target).
Proof.
  intros gt fmt entries a d n cnId balId i t Hnd Hearly Hpos Hlt Hfar.
  pose proof (earliest_is_target gt entries i t Hearly) as Ht.
  destruct Hearly as (Hi & Hp & _).
  exists (adjust fmt a t),
         (balanceInvoice t balId (numSub (orZero (LedgerEntry.invoiceAmount t)) a)).
  split.
  { rewrite (applyCreditNote_cases gt fmt _ _ _ _ _ _ Hnd), Ht.
    apply Qltb_lt in Hpos. rewrite Hpos.
    apply Qltb_ge in Hfar. rewrite Hfar.
    apply Qltb_lt in Hlt. rewrite Hlt.
    rewrite (alter_as_insert _ _ _ _ Hi). reflexivity. }
  split.
  { rewrite length_app, length_insert. simpl. lia. }
  split; [apply sameButStatusNotes_set|].
  unfold isPendingInvoice, isInvoice in Hp.
  destruct (LedgerEntry.type t) eqn:Ety; try discriminate Hp.
  cbn. rewrite Ety. repeat split; reflexivity.
Qed.

Lemma C3_partial_credit_note_splits_target_witness :
  NoDup (LedgerEntry.id <$> exEngineLedger)
  /\ isEarliestPending isoGetTime exEngineLedger 2 exTarget
  /\ (0 < 400)%Q
  /\ (400 < orZero (LedgerEntry.invoiceAmount exTarget))%Q
  /\ (toDouble (1 # 100)
      <= Qabs (numSub 400 (orZero (LedgerEntry.invoiceAmount exTarget))))%Q
  /\ exists target' bal,
      applyCreditNote isoGetTime formatINR exEngineLedger 400 "2024-01-10"
                      "return" "c1" "b1"
      = Some (<[2 := target']> exEngineLedger
                ++ [bal; cnEntry "c1" "2024-01-10" 400 "return"])
      /\ LedgerEntry.status target' = Some ADJUSTED
      /\ LedgerEntry.invoiceNo bal = "INV-7-BAL"
      /\ LedgerEntry.invoiceAmount bal = Some 600%Q
      /\ LedgerEntry.originalRefId bal = Some "t1".
Proof.
  assert (H1 : (0 < 400)%Q) by reflexivity.
  assert (H2 : (400 < orZero (LedgerEntry.invoiceAmount exTarget))%Q) by reflexivity.
  assert (H3 : (toDouble (1 # 100)
                <= Qabs (numSub 400 (orZero (LedgerEntry.invoiceAmount exTarget))))%Q)
    by (apply Qle_bool_iff; vm_compute; reflexivity).
  split; [exact exEngineLedger_NoDup|].
  split; [exact exEngineLedger_earliest|].
  split; [exact H1|]. split; [exact H2|]. split; [exact H3|].
  destruct (C3_partial_credit_note_splits_target isoGetTime formatINR
              exEngineLedger 400 "2024-01-10" "return" "c1" "b1" 2 exTarget
              exEngineLedger_NoDup exEngineLedger_earliest H1 H2 H3)
    as (target' & bal & Hres & _ & _ & Hst & _ & _ & _ & Hno & Hamt & _ & _ & _ & _
        & _ & Href & _).
  exists target', bal. auto.
Defined.

(** The claim as first stated has the balance-forward invoice copy the notes
    of the target; the engine writes notes of its own. It takes the
    difference of 0.01 in exact arithmetic: a credit note of 999.99 on an
    invoice of 1000 differs from it by 0.01, yet the binary64 difference is
    below the binary64 value of 0.01 and the engine settles the invoice
    instead of splitting it. And it speaks of every entry list and of every
    amount below that of the target: on a list where a settled invoice
    carries the identifier of the pending one, the engine marks the settled
    invoice and leaves the target PENDING, and with an amount of 0 it
    appends the credit note and nothing else. *)
Lemma C3_counterexample :
  applyCreditNote isoGetTime formatINR exEngineLedger 400 "2024-01-10"
                  "return" "c1" "b1" = Some exAfterAdjust
  /\ exAfterAdjust !! 3 = Some exBalance
  /\ LedgerEntry.originalRefId exBalance = Some (LedgerEntry.id exTarget)
  /\ LedgerEntry.notes exTarget = Some "first order"
  /\ LedgerEntry.notes exBalance = Some "Balance after CN adjustment on INV-7"
  /\ LedgerEntry.notes exBalance <> LedgerEntry.notes exTarget
  /\ isEarliestPending isoGetTime exEngineLedger 2 exTarget
  /\ (99999 # 100 < orZero (LedgerEntry.invoiceAmount exTarget))%Q
  /\ (1 # 100 <= Qabs ((99999 # 100) - orZero (LedgerEntry.invoiceAmount exTarget)))%Q
  /\ applyCreditNote isoGetTime formatINR exEngineLedger (99999 # 100) "2024-01-10"
                     "return" "c1" "b1"
     = Some (<[2 := settle exTarget]> exEngineLedger
               ++ [cnEntry "c1" "2024-01-10" (99999 # 100) "return"])
  /\ LedgerEntry.status (settle exTarget) = Some PAID
  /\ targetInvoice isoGetTime exDupLedger = Some (1, exTarget)
  /\ (exists first rest,
        applyCreditNote isoGetTime formatINR exDupLedger 400 "2024-01-10"
                        "return" "c1" "b1" = Some (first :: exTarget :: rest)
        /\ LedgerEntry.invoiceNo first = "INV-5"
        /\ LedgerEntry.status first = Some ADJUSTED)
  /\ LedgerEntry.status exTarget = Some PENDING
  /\ (0 < orZero (LedgerEntry.invoiceAmount exTarget))%Q
  /\ (1 # 100 <= Qabs (0 - orZero (LedgerEntry.invoiceAmount exTarget)))%Q
  /\ applyCreditNote isoGetTime formatINR exEngineLedger 0 "2024-01-10"
                     "return" "c1" "b1"
     = Some (exEngineLedger ++ [cnEntry "c1" "2024-01-10" 0 "return"]).
Proof.
  split; [vm_compute; reflexivity|].
  split; [reflexivity|]. split; [reflexivity|]. split; [reflexivity|].
  split; [reflexivity|]. split; [discriminate|].
  split; [exact exEngineLedger_earliest|].
  split; [reflexivity|].
  split; [apply Qle_bool_iff; reflexivity|].
  split; [vm_compute; reflexivity|]. split; [reflexivity|].
  split; [vm_compute; reflexivity|].
  split; [eexists _, _; split; [vm_compute; reflexivity|split; reflexivity]|].
  split; [reflexivity|]. split; [reflexivity|].
  split; [apply Qle_bool_iff; reflexivity|].
  vm_compute. reflexivity.
Qed.

(** C4 (amended). On a list with pairwise distinct identifiers and at
    least one pending invoice, a positive credit-note amount that is within
    0.01 of the invoice amount of the first (earliest-dated) pending
    invoice, the difference being computed in binary64 as the engine
    computes it, or strictly larger than that amount, sets the status of
    that invoice to PAID and appends " [Settled by CN]" to its notes; no
    balance invoice is created, no other entry is touched, whatever exceeds
    the invoice amount is carried nowhere, and exactly one credit-note entry
    is appended. *)
Theorem C4_full_credit_note_settles_target :
  forall getTime intlFormat (entries : list LedgerEntry.t) (amountVal : Q)
         (transDate transNotes cnId balId : string) (i : nat) target,
    NoDup (LedgerEntry.id <$> entries) ->
    isEarliestPending getTime entries i target ->
    (0 < amountVal)%Q ->
    ((Qabs (numSub amountVal (orZero (LedgerEntry.invoiceAmount target)))
      < toDouble (1 # 100))%Q
     \/ (orZero (LedgerEntry.invoiceAmount target) < amountVal)%Q) ->
    exists target',
      applyCreditNote getTime intlFormat entries amountVal transDate transNotes
                      cnId balId
      = Some (<[i := target']> entries
                ++ [cnEntry cnId transDate amountVal transNotes])
      /\ length (<[i := target']> entries
                   ++ [cnEntry cnId transDate amountVal transNotes])
         = length entries + 1
      /\ sameButStatusNotes target target'
      /\ LedgerEntry.status target' = Some PAID
      /\ LedgerEntry.notes target'
         = Some (orEmpty (LedgerEntry.notes target) +:+ " [Settled by CN]")
      /\ (forall j, j <> i -> <[i := target']> entries !! j = entries !! j).
Proof.
  intros gt fmt entries a d n cnId balId i t Hnd Hearly Hpos Hcase.
  pose proof (earliest_is_target gt entries i t Hearly) as Ht.
  destruct Hearly as (Hi & Hp & _).
  exists (settle t).
  split.
  { rewrite (applyCreditNote_cases gt fmt _ _ _ _ _ _ Hnd), Ht.
    apply Qltb_lt in Hpos. rewrite Hpos.
    rewrite <- (alter_as_insert _ _ _ _ Hi).
    destruct (Qltb (Qabs (numSub a (orZero (LedgerEntry.invoiceAmount t))))
                   (toDouble (1 # 100))) eqn:En;
      [reflexivity|].
    destruct Hcase as [Hnear|Hgt].
    - apply Qltb_lt in Hnear. congruence.
    - destruct (Qltb a (orZero (LedgerEntry.invoiceAmount t))) eqn:El; [|reflexivity].
      apply Qltb_lt in El. exfalso. apply (Qlt_irrefl a).
      eapply Qlt_trans; eassumption. }
  split.
  { rewrite length_app, length_insert. simpl. lia. }
  split; [apply sameButStatusNotes_set|].
  split; [reflexivity|]. split; [reflexivity|].
  intros j Hj. apply list_lookup_insert_ne. congruence.
Qed.

Lemma C4_full_credit_note_settles_target_witness :
  NoDup (LedgerEntry.id <$> exEngineLedger)
  /\ isEarliestPending isoGetTime exEngineLedger 2 exTarget
  /\ (0 < 99999 # 100)%Q
  /\ ((Qabs (numSub (99999 # 100) (orZero (LedgerEntry.invoiceAmount exTarget)))
       < toDouble (1 # 100))%Q
      \/ (orZero (LedgerEntry.invoiceAmount exTarget) < 99999 # 100)%Q)
  /\ exists target',
      applyCreditNote isoGetTime formatINR exEngineLedger (99999 # 100) "2024-01-10"
                      "return" "c1" "b1"
      = Some (<[2 := target']> exEngineLedger
                ++ [cnEntry "c1" "2024-01-10" (99999 # 100) "return"])
      /\ LedgerEntry.status target' = Some PAID
      /\ LedgerEntry.notes target' = Some "first order [Settled by CN]".
Proof.
  assert (H1 : (0 < 99999 # 100)%Q) by reflexivity.
  assert (H2 : (Qabs (numSub (99999 # 100) (orZero (LedgerEntry.invoiceAmount exTarget)))
                < toDouble (1 # 100))%Q
               \/ (orZero (LedgerEntry.invoiceAmount exTarget) < 99999 # 100)%Q)
    by (left; apply Qltb_lt; vm_compute; reflexivity).
  split; [exact exEngineLedger_NoDup|].
  split; [exact exEngineLedger_earliest|].
  split; [exact H1|]. split; [exact H2|].
  destruct (C4_full_credit_note_settles_target isoGetTime formatINR
              exEngineLedger (99999 # 100) "2024-01-10" "return" "c1" "b1" 2 exTarget
              exEngineLedger_NoDup exEngineLedger_earliest H1 H2)
    as (target' & Hres & _ & _ & Hst & Hno & _).
  exists target'. auto.
Defined.

(** The claim as first stated speaks of every entry list and of every
    amount within 0.01 of the invoice amount. The engine looks its target
    up again by identifier and adjusts only under the guard
    [remainingCN > 0]: on a list where a settled invoice carries the
    identifier of the pending one, a credit note of the full amount marks
    the settled invoice and leaves the pending invoice PENDING; and a credit
    note of 0 on a pending invoice of amount 0 leaves that invoice
    PENDING. *)
Lemma C4_counterexample :
  isEarliestPending isoGetTime exDupLedger 1 exTarget
  /\ (Qabs (1000 - orZero (LedgerEntry.invoiceAmount exTarget)) < 1 # 100)%Q
  /\ applyCreditNote isoGetTime formatINR exDupLedger 1000 "2024-01-10"
                     "return" "c1" "b1"
     = Some [settle (exInvoice "t1" "2023-11-01" "INV-5" 800 PAID None None);
             exTarget; cnEntry "c1" "2024-01-10" 1000 "return"]
  /\ LedgerEntry.status exTarget = Some PENDING
  /\ isEarliestPending isoGetTime [exZeroInvoice] 0 exZeroInvoice
  /\ (Qabs (0 - orZero (LedgerEntry.invoiceAmount exZeroInvoice)) < 1 # 100)%Q
  /\ applyCreditNote isoGetTime formatINR [exZeroInvoice] 0 "2024-01-10"
                     "return" "c1" "b1"
     = Some [exZeroInvoice; cnEntry "c1" "2024-01-10" 0 "return"]
  /\ LedgerEntry.status exZeroInvoice = Some PENDING.
Proof.
  split.
  { split; [reflexivity|]. split; [reflexivity|].
    intros j e Hj Hp.
    destruct j as [|[|j]]; simpl in Hj; try discriminate;
      injection Hj as <-; try discriminate Hp.
    eexists _, _. split; [reflexivity|]. split; [reflexivity|].
    right. split; [reflexivity|lia]. }
  split; [reflexivity|].
  split; [vm_compute; reflexivity|].
  split; [reflexivity|].
  split.
  { split; [reflexivity|]. split; [reflexivity|].
    intros j e Hj Hp.
    destruct j as [|j]; simpl in Hj; try discriminate.
    injection Hj as <-.
    eexists _, _. split; [reflexivity|]. split; [reflexivity|].
    right. split; [reflexivity|lia]. }
  split; [reflexivity|].
  split; [vm_compute; reflexivity|reflexivity].
Qed.

(** C5. On a list without any pending invoice, applying a credit note
    returns the list with exactly one new credit-note entry at its end,
    carrying the fixed invoice number "CN-ADJ", the amount and the notes
    supplied, and leaves every entry that was there unchanged. *)
Theorem C5_no_pending_invoice_appends_only :
  forall getTime intlFormat (entries : list LedgerEntry.t) (amountVal : Q)
         (transDate transNotes cnId balId : string),
    (forall e, e ∈ entries -> isPendingInvoice e = false) ->
    exists cn,
      applyCreditNote getTime intlFormat entries amountVal transDate transNotes
                      cnId balId = Some (entries ++ [cn])
      /\ LedgerEntry.type cn = CN
      /\ LedgerEntry.invoiceNo cn = "CN-ADJ"
      /\ LedgerEntry.cnAmount cn = Some amountVal
      /\ LedgerEntry.notes cn = Some transNotes
      /\ LedgerEntry.date cn = transDate
      /\ length (entries ++ [cn]) = length entries + 1
      /\ (forall k e, entries !! k = Some e -> (entries ++ [cn]) !! k = Some e).
Proof.
  intros gt fmt entries a d n cnId balId Hnone.
  exists (cnEntry cnId d a n).
  split.
  { apply applyCreditNote_append_only. left. apply targetInvoice_None, Hnone. }
  repeat split; try reflexivity.
  - rewrite length_app. simpl. lia.
  - intros k e Hk. apply lookup_app_l_Some, Hk.
Qed.

Lemma C5_no_pending_invoice_appends_only_witness :
  (forall e, e ∈ exNoPendingLedger -> isPendingInvoice e = false)
  /\ exists cn,
      applyCreditNote isoGetTime formatINR exNoPendingLedger 250 "2024-01-10"
                      "goodwill" "c1" "b1" = Some (exNoPendingLedger ++ [cn])
      /\ LedgerEntry.invoiceNo cn = "CN-ADJ"
      /\ LedgerEntry.cnAmount cn = Some 250%Q.
Proof.
  split; [exact exNoPendingLedger_none|].
  destruct (C5_no_pending_invoice_appends_only isoGetTime formatINR
              exNoPendingLedger 250 "2024-01-10" "goodwill" "c1" "b1"
              exNoPendingLedger_none)
    as (cn & Hres & _ & Hno & Hamt & _).
  exists cn. auto.
Defined.

(** C8 (amended). On a list with pairwise distinct identifiers, applying a
    credit note never changes the status of an invoice that is not pending:
    every entry whose status is PAID or ADJUSTED (or that is no invoice) has
    the same status afterwards, and a status that does change is that of the
    single target invoice, which goes from PENDING to PAID or from PENDING
    to ADJUSTED. *)
Theorem C8_status_moves_only_from_pending :
  forall getTime intlFormat (entries : list LedgerEntry.t) (amountVal : Q)
         (transDate transNotes cnId balId : string),
    NoDup (LedgerEntry.id <$> entries) ->
    exists out,
      applyCreditNote getTime intlFormat entries amountVal transDate transNotes
                      cnId balId = Some out
      /\ (forall k e,
             entries !! k = Some e ->
             exists e',
               out !! k = Some e'
               /\ (LedgerEntry.status e <> Some PENDING ->
                   LedgerEntry.status e' = LedgerEntry.status e)
               /\ (isInvoice e = false ->
                   LedgerEntry.status e' = LedgerEntry.status e)
               /\ (LedgerEntry.status e' <> LedgerEntry.status e ->
                   targetInvoice getTime entries = Some (k, e)
                   /\ isInvoice e = true
                   /\ LedgerEntry.status e = Some PENDING
                   /\ (LedgerEntry.status e' = Some PAID
                       \/ LedgerEntry.status e' = Some ADJUSTED)))
      /\ (forall j k ej ek ej' ek',
             entries !! j = Some ej -> out !! j = Some ej' ->
             entries !! k = Some ek -> out !! k = Some ek' ->
             LedgerEntry.status ej' <> LedgerEntry.status ej ->
             LedgerEntry.status ek' <> LedgerEntry.status ek ->
             j = k).
Proof.
  intros gt fmt entries a d n cnId balId Hnd.
  destruct (applyCreditNote_shape gt fmt entries a d n cnId balId Hnd)
    as (pre & news & Hres & Hpre & _).
  exists (pre ++ news). split; [exact Hres|].
  assert (Hpoint : forall k e,
             entries !! k = Some e ->
             exists e',
               (pre ++ news) !! k = Some e'
               /\ (LedgerEntry.status e' <> LedgerEntry.status e ->
                   targetInvoice gt entries = Some (k, e)
                   /\ isInvoice e = true
                   /\ LedgerEntry.status e = Some PENDING
                   /\ (LedgerEntry.status e' = Some PAID
                       \/ LedgerEntry.status e' = Some ADJUSTED))).
  { intros k e Hk.
    destruct (pre_lookup gt fmt entries pre a Hpre k e Hk) as (e' & He' & _ & Hch).
    exists e'. split; [apply lookup_app_l_Some, He'|].
    intros Hne. destruct Hch as [Ht Hst]; [congruence|].
    destruct (targetInvoice_Some _ _ _ _ Ht) as [_ Hp].
    unfold isPendingInvoice in Hp. apply andb_true_iff in Hp as [Hinv Hpend].
    split; [exact Ht|]. split; [exact Hinv|]. split; [|exact Hst].
    unfold isPendingStatus in Hpend.
    destruct (LedgerEntry.status e) as [[]|]; try discriminate. reflexivity. }
  split.
  - intros k e Hk. destruct (Hpoint k e Hk) as (e' & He' & Hch).
    exists e'. split; [exact He'|].
    split; [|split; [|exact Hch]].
    + intros Hnp.
      destruct (decide (LedgerEntry.status e' = LedgerEntry.status e)) as [E|E];
        [exact E|].
      destruct (Hch E) as (_ & _ & Hp & _). contradiction.
    + intros Hni.
      destruct (decide (LedgerEntry.status e' = LedgerEntry.status e)) as [E|E];
        [exact E|].
      destruct (Hch E) as (_ & Hinv & _). congruence.
  - intros j k ej ek ej' ek' Hj Hj' Hk Hk' Ecj Eck.
    destruct (Hpoint j ej Hj) as (x & Hx & Hchj).
    destruct (Hpoint k ek Hk) as (y & Hy & Hchk).
    rewrite Hj' in Hx. injection Hx as <-.
    rewrite Hk' in Hy. injection Hy as <-.
    destruct (Hchj Ecj) as (Htj & _). destruct (Hchk Eck) as (Htk & _).
    congruence.
Qed.

Lemma C8_status_moves_only_from_pending_witness :
  NoDup (LedgerEntry.id <$> exEngineLedger)
  /\ exists out,
      applyCreditNote isoGetTime formatINR exEngineLedger 400 "2024-01-10"
                      "return" "c1" "b1" = Some out
      /\ (forall k e,
             exEngineLedger !! k = Some e ->
             exists e',
               out !! k = Some e'
               /\ (LedgerEntry.status e <> Some PENDING ->
                   LedgerEntry.status e' = LedgerEntry.status e)).
Proof.
  split; [exact exEngineLedger_NoDup|].
  destruct (C8_status_moves_only_from_pending isoGetTime formatINR
              exEngineLedger 400 "2024-01-10" "return" "c1" "b1"
              exEngineLedger_NoDup) as (out & Hres & Hpoint & _).
  exists out. split; [exact Hres|].
  intros k e Hk. destruct (Hpoint k e Hk) as (e' & He' & Hkeep & _).
  exists e'. auto.
Defined.

(** The claim as first stated speaks of every entry list. The engine looks
    its target up again by identifier: on a list where a settled invoice
    carries the identifier of the pending one, a partial credit note moves
    the settled invoice from PAID to ADJUSTED and leaves the pending invoice
    as it was. *)
Lemma C8_counterexample :
  exDupLedger !! 0 = Some (exInvoice "t1" "2023-11-01" "INV-5" 800 PAID None None)
  /\ targetInvoice isoGetTime exDupLedger = Some (1, exTarget)
  /\ applyCreditNote isoGetTime formatINR exDupLedger 400 "2024-01-10"
                     "return" "c1" "b1"
     = Some [adjust formatINR 400
               (exInvoice "t1" "2023-11-01" "INV-5" 800 PAID None None);
             exTarget; exBalance; cnEntry "c1" "2024-01-10" 400 "return"]
  /\ LedgerEntry.status
       (adjust formatINR 400 (exInvoice "t1" "2023-11-01" "INV-5" 800 PAID None None))
     = Some ADJUSTED
  /\ LedgerEntry.status exTarget = Some PENDING.
Proof.
  split; [reflexivity|]. split; [vm_compute; reflexivity|].
  split; [vm_compute; reflexivity|]. split; reflexivity.
Qed.

(** C9 (amended). On a list with pairwise distinct identifiers, the list
    returned by the engine keeps the entries it was given in their order,
    each with every field but status and notes unchanged and only the
    target invoice changed at all, and puts the new entries at the end in a
    fixed order: the balance-forward invoice, when one is created,
    immediately before the new credit-note entry, which is always last. *)
Theorem C9_order_and_frame :
  forall getTime intlFormat (entries : list LedgerEntry.t) (amountVal : Q)
         (transDate transNotes cnId balId : string),
    NoDup (LedgerEntry.id <$> entries) ->
    exists pre news,
      applyCreditNote getTime intlFormat entries amountVal transDate transNotes
                      cnId balId = Some (pre ++ news)
      /\ length pre = length entries
      /\ (forall k e,
             entries !! k = Some e ->
             exists e',
               pre !! k = Some e'
               /\ sameButStatusNotes e e'
               /\ (e' <> e -> targetInvoice getTime entries = Some (k, e)))
      /\ (news = [cnEntry cnId transDate amountVal transNotes]
          \/ exists i t,
               targetInvoice getTime entries = Some (i, t)
               /\ news = [balanceInvoice t balId
                            (numSub (orZero (LedgerEntry.invoiceAmount t)) amountVal);
                          cnEntry cnId transDate amountVal transNotes])
      /\ last (pre ++ news) = Some (cnEntry cnId transDate amountVal transNotes).
Proof.
  intros gt fmt entries a d n cnId balId Hnd.
  destruct (applyCreditNote_shape gt fmt entries a d n cnId balId Hnd)
    as (pre & news & Hres & Hpre & Hnews).
  exists pre, news. split; [exact Hres|].
  split; [apply (pre_length gt fmt entries pre a Hpre)|].
  split.
  { intros k e Hk.
    destruct (pre_lookup gt fmt entries pre a Hpre k e Hk) as (e' & He' & Hsame & Hch).
    exists e'. split; [exact He'|]. split; [exact Hsame|].
    intros Hne. apply Hch, Hne. }
  split; [exact Hnews|].
  destruct Hnews as [->|(i & t & _ & ->)].
  - apply last_snoc.
  - change (pre ++ [?b; ?c]) with (pre ++ [b] ++ [c]).
    rewrite app_assoc. apply last_snoc.
Qed.

Lemma C9_order_and_frame_witness :
  NoDup (LedgerEntry.id <$> exEngineLedger)
  /\ exists pre news,
      applyCreditNote isoGetTime formatINR exEngineLedger 400 "2024-01-10"
                      "return" "c1" "b1" = Some (pre ++ news)
      /\ length pre = length exEngineLedger
      /\ last (pre ++ news) = Some (cnEntry "c1" "2024-01-10" 400 "return").
Proof.
  split; [exact exEngineLedger_NoDup|].
  destruct (C9_order_and_frame isoGetTime formatINR
              exEngineLedger 400 "2024-01-10" "return" "c1" "b1"
              exEngineLedger_NoDup) as (pre & news & Hres & Hlen & _ & _ & Hlast).
  exists pre, news. auto.
Defined.

(** The claim as first stated speaks of every input list. On a list where
    a payment carries the identifier of the pending invoice, the entry that
    the engine rewrites in status and notes is the payment, which is not the
    target, and the target is left as it was. *)
Lemma C9_counterexample :
  targetInvoice isoGetTime exDupPaymentLedger = Some (1, exTarget)
  /\ applyCreditNote isoGetTime formatINR exDupPaymentLedger 1000 "2024-01-10"
                     "return" "c1" "b1"
     = Some [settle (paymentEntry "t1" "2023-12-15" 900 "cheque");
             exTarget; cnEntry "c1" "2024-01-10" 1000 "return"]
  /\ LedgerEntry.status (paymentEntry "t1" "2023-12-15" 900 "cheque") = None
  /\ LedgerEntry.status (settle (paymentEntry "t1" "2023-12-15" 900 "cheque"))
     = Some PAID
  /\ LedgerEntry.notes (settle (paymentEntry "t1" "2023-12-15" 900 "cheque"))
     = Some "cheque [Settled by CN]".
Proof.
  split; [vm_compute; reflexivity|]. split; [vm_compute; reflexivity|].
  split; [reflexivity|]. split; reflexivity.
Qed.

(** C10. A credit note whose amount is zero or negative mutates no invoice
    and creates no balance invoice, the adjustment being guarded by
    amount > 0, but a credit-note entry carrying that amount is still
    appended to the list. *)
Theorem C10_non_positive_amount_still_appended :
  forall getTime intlFormat (entries : list LedgerEntry.t) (amountVal : Q)
         (transDate transNotes cnId balId : string),
    (amountVal <= 0)%Q ->
    applyCreditNote getTime intlFormat entries amountVal transDate transNotes
                    cnId balId
    = Some (entries ++ [cnEntry cnId transDate amountVal transNotes])
    /\ LedgerEntry.type (cnEntry cnId transDate amountVal transNotes) = CN
    /\ LedgerEntry.cnAmount (cnEntry cnId transDate amountVal transNotes)
       = Some amountVal
    /\ length (entries ++ [cnEntry cnId transDate amountVal transNotes])
       = length entries + 1
    /\ (forall k e,
           entries !! k = Some e ->
           (entries ++ [cnEntry cnId transDate amountVal transNotes]) !! k = Some e).
Proof.
  intros gt fmt entries a d n cnId balId Hle.
  split.
  { apply applyCreditNote_append_only. right. apply Qle_not_lt, Hle. }
  split; [reflexivity|]. split; [reflexivity|].
  split.
  - rewrite length_app. simpl. lia.
  - intros k e Hk. apply lookup_app_l_Some, Hk.
Qed.

Lemma C10_non_positive_amount_still_appended_witness :
  (-5 <= 0)%Q
  /\ applyCreditNote isoGetTime formatINR exEngineLedger (-5) "2024-01-10"
                     "typo" "c1" "b1"
     = Some (exEngineLedger ++ [cnEntry "c1" "2024-01-10" (-5) "typo"]).
Proof.
  assert (H : (-5 <= 0)%Q) by (apply Qle_bool_iff; reflexivity).
  split; [exact H|].
  apply (C10_non_positive_amount_still_appended isoGetTime formatINR
           exEngineLedger (-5) "2024-01-10" "typo" "c1" "b1" H).
Defined.

(** * Further properties of the code *)

(** ** The month choices *)

Lemma defaultCompare_consistent : consistent defaultCompare.
Proof.
  split.
  - intros a b. unfold defaultCompare. rewrite (String.compare_antisym a b).
    destruct (String.compare b a); simpl; lia.
  - intros a b c. unfold defaultCompare.
    destruct (String.compare a b) eqn:Eab; try lia;
      destruct (String.compare b c) eqn:Ebc; try lia; intros _ _.
    + apply String.compare_eq_iff in Eab, Ebc. subst.
      rewrite string_compare_refl. lia.
    + apply String.compare_eq_iff in Eab. subst. rewrite Ebc. lia.
    + apply String.compare_eq_iff in Ebc. subst. rewrite Eab. lia.
    + assert (H : String.ltb a c = true).
      { apply (string_ltb_trans a b c); unfold String.ltb; [rewrite Eab|rewrite Ebc];
          reflexivity. }
      unfold String.ltb in H. destruct (String.compare a c); [discriminate|lia|discriminate].
Qed.

Lemma defaultCompare_le_ne a b :
  (defaultCompare a b <= 0)%Z -> a <> b -> String.ltb a b = true.
Proof.
  unfold defaultCompare, String.ltb. intros H Hne.
  destruct (String.compare a b) eqn:E; [|reflexivity|lia].
  apply String.compare_eq_iff in E. contradiction.
Qed.

Lemma setAdd_elem_of x y s : y ∈ setAdd x s <-> y = x \/ y ∈ s.
Proof.
  unfold setAdd. destruct (decide (x ∈ s)) as [Hin|Hnin].
  - split; [auto|]. intros [->|H]; assumption.
  - rewrite elem_of_app, list_elem_of_singleton. tauto.
Qed.

Lemma setAdd_NoDup x s : NoDup s -> NoDup (setAdd x s).
Proof.
  intros H. unfold setAdd. destruct (decide (x ∈ s)) as [Hin|Hnin]; [exact H|].
  apply NoDup_app. split; [exact H|]. split; [|apply NoDup_singleton].
  intros y Hy Hy'. apply list_elem_of_singleton in Hy'. subst. contradiction.
Qed.

Lemma truthyStr_ne s : truthyStr s = true <-> s <> "".
Proof. destruct s; simpl; split; congruence. Qed.

Lemma collectMonths_NoDup entries : forall acc,
  NoDup acc -> NoDup (collectMonths entries acc).
Proof.
  induction entries as [|e l IH]; intros acc H; [exact H|].
  simpl. apply IH. destruct (truthyStr (LedgerEntry.date e)); [|exact H].
  apply setAdd_NoDup, H.
Qed.

Lemma collectMonths_elem_of entries : forall acc m,
  m ∈ collectMonths entries acc <->
  m ∈ acc \/ exists e, e ∈ entries /\ LedgerEntry.date e <> ""
                       /\ String.substring 0 7 (LedgerEntry.date e) = m.
Proof.
  induction entries as [|e l IH]; intros acc m; simpl.
  - split; [auto|]. intros [H|(e & He & _)]; [exact H|inversion He].
  - rewrite IH. destruct (truthyStr (LedgerEntry.date e)) eqn:E.
    + rewrite setAdd_elem_of. apply truthyStr_ne in E. split.
      * intros [[->|H]|(e' & He' & Hd & Hm)]; [right|left; exact H|right].
        -- exists e. split; [left|]. auto.
        -- exists e'. split; [right; exact He'|]. auto.
      * intros [H|(e' & He' & Hd & Hm)]; [auto|].
        apply elem_of_cons in He' as [->|He']; [left; left; congruence|].
        right. exists e'. auto.
    + split.
      * intros [H|(e' & He' & Hd & Hm)]; [auto|].
        right. exists e'. split; [right; exact He'|]. auto.
      * intros [H|(e' & He' & Hd & Hm)]; [auto|].
        apply elem_of_cons in He' as [->|He'].
        -- apply truthyStr_ne in Hd. congruence.
        -- right. exists e'. auto.
Qed.

Lemma StronglySorted_reverse {A} (R : A -> A -> Prop) l :
  StronglySorted R l -> StronglySorted (fun a b => R b a) (reverse l).
Proof.
  induction 1 as [|x l Hs IH Hx]; [constructor|].
  rewrite reverse_cons. apply StronglySorted_app_2.
  - intros a b Ha Hb. apply list_elem_of_singleton in Hb. subst.
    rewrite Forall_forall in Hx. apply Hx. apply elem_of_reverse, Ha.
  - exact IH.
  - repeat constructor.
Qed.

Lemma StronglySorted_strict {A} (R : A -> A -> Prop) (S : A -> A -> Prop) l :
  (forall a b, R a b -> a <> b -> S a b) ->
  NoDup l -> StronglySorted R l -> StronglySorted S l.
Proof.
  intros HRS Hnd Hs. induction Hs as [|x l Hs IH Hx]; [constructor|].
  apply NoDup_cons in Hnd as [Hnin Hnd].
  constructor; [apply IH, Hnd|].
  rewrite Forall_forall in Hx |- *. intros y Hy.
  apply HRS; [apply Hx, Hy|]. intros ->. contradiction.
Qed.

Lemma availableMonths_elem_of entries m :
  m ∈ availableMonths entries <->
  exists e, e ∈ entries /\ LedgerEntry.date e <> ""
            /\ String.substring 0 7 (LedgerEntry.date e) = m.
Proof.
  unfold availableMonths.
  rewrite elem_of_reverse, jsSort_elem_of, collectMonths_elem_of.
  split; [|auto]. intros [H|H]; [inversion H|exact H].
Qed.

(** X1. The month choices are pairwise distinct, stand in strictly
    descending order, and are exactly the seven-character prefixes of the
    non-empty dates of the ledger. *)
Theorem X1_availableMonths_distinct_descending :
  forall entries : list LedgerEntry.t,
    NoDup (availableMonths entries)
    /\ StronglySorted (fun a b => String.ltb b a = true) (availableMonths entries)
    /\ (forall m,
           m ∈ availableMonths entries <->
           exists e, e ∈ entries /\ LedgerEntry.date e <> ""
                     /\ String.substring 0 7 (LedgerEntry.date e) = m).
Proof.
  intros entries. unfold availableMonths.
  assert (Hnd : NoDup (jsSort defaultCompare (collectMonths entries []))).
  { rewrite jsSort_Permutation. apply collectMonths_NoDup, NoDup_nil_2. }
  split; [rewrite reverse_Permutation; exact Hnd|].
  split.
  - apply (StronglySorted_reverse (fun a b => String.ltb a b = true)).
    apply (StronglySorted_strict (fun a b => (defaultCompare a b <= 0)%Z));
      [apply defaultCompare_le_ne|exact Hnd|].
    apply jsSort_sorted, defaultCompare_consistent.
  - intros m. apply availableMonths_elem_of.
Qed.

Lemma prefix_substring n s : String.prefix (String.substring 0 n s) s = true.
Proof.
  revert n. induction s as [|c s IH]; intros [|n]; simpl; try reflexivity.
  destruct (ascii_dec c c); [apply IH|contradiction].
Qed.

Lemma substring_nonempty n s : s <> "" -> String.substring 0 (S n) s <> "".
Proof. destruct s; simpl; congruence. Qed.

Lemma filterByMonth_elem_of entries m e :
  m <> "" ->
  e ∈ filterByMonth entries m <->
  e ∈ entries /\ startsWith (LedgerEntry.date e) m = true.
Proof.
  intros Hm. unfold filterByMonth. apply truthyStr_ne in Hm. rewrite Hm.
  rewrite list_elem_of_filter, Is_true_true. tauto.
Qed.

(** X2. Every month offered as a choice selects a non-empty view, and the
    view of a month holds exactly the entries of the ledger whose date
    starts with it. *)
Theorem X2_every_month_choice_has_entries :
  forall localeCompare (entries : list LedgerEntry.t) (m : string),
    m ∈ availableMonths entries ->
    filteredEntries localeCompare entries m <> []
    /\ (forall e,
           e ∈ filteredEntries localeCompare entries m <->
           e ∈ entries /\ startsWith (LedgerEntry.date e) m = true).
Proof.
  intros lc entries m Hm.
  apply availableMonths_elem_of in Hm as (e & He & Hd & Hsub).
  assert (Hne : m <> "") by (subst m; apply substring_nonempty, Hd).
  assert (Hall : forall e',
             e' ∈ filteredEntries lc entries m <->
             e' ∈ entries /\ startsWith (LedgerEntry.date e') m = true).
  { intros e'. unfold filteredEntries.
    rewrite jsSort_elem_of. apply filterByMonth_elem_of, Hne. }
  split; [|exact Hall].
  intros Hnil.
  assert (Hin : e ∈ filteredEntries lc entries m).
  { apply Hall. split; [exact He|]. subst m. apply prefix_substring. }
  rewrite Hnil in Hin. inversion Hin.
Qed.

(** ** The scoped pass *)

Lemma Qsum_app l1 l2 : (Qsum (l1 ++ l2) == Qsum l1 + Qsum l2)%Q.
Proof.
  induction l1 as [|x l1 IH]; simpl.
  - ring.
  - rewrite IH. ring.
Qed.

Lemma Qsum_Permutation l l' : l ≡ₚ l' -> (Qsum l == Qsum l')%Q.
Proof.
  induction 1 as [|x l l' _ IH|x y l|l l' l'' _ IH1 _ IH2]; simpl.
  - reflexivity.
  - rewrite IH. reflexivity.
  - ring.
  - rewrite IH1. exact IH2.
Qed.

Lemma invoicedAmounts_Permutation l l' :
  l ≡ₚ l' -> invoicedAmounts l ≡ₚ invoicedAmounts l'.
Proof. intros H. unfold invoicedAmounts. apply Permutation_map. rewrite H. reflexivity. Qed.

Lemma paidAmounts_Permutation l l' : l ≡ₚ l' -> paidAmounts l ≡ₚ paidAmounts l'.
Proof. intros H. unfold paidAmounts. apply Permutation_map. rewrite H. reflexivity. Qed.

Lemma cnAmounts_Permutation l l' : l ≡ₚ l' -> cnAmounts l ≡ₚ cnAmounts l'.
Proof. intros H. unfold cnAmounts. apply Permutation_map. rewrite H. reflexivity. Qed.

Lemma viewLines_cons e l :
  viewLines (e :: l) =
  if isOriginalInvoice e then itemsToProcess e ++ viewLines l else viewLines l.
Proof.
  unfold viewLines. rewrite filter_bool_cons.
  destruct (isOriginalInvoice e); reflexivity.
Qed.

Lemma viewLines_Permutation l l' : l ≡ₚ l' -> viewLines l ≡ₚ viewLines l'.
Proof.
  induction 1 as [|x l l' _ IH|x y l|l l' l'' _ IH1 _ IH2].
  - reflexivity.
  - rewrite !viewLines_cons. destruct (isOriginalInvoice x); [|exact IH].
    rewrite IH. reflexivity.
  - rewrite !viewLines_cons.
    destruct (isOriginalInvoice x), (isOriginalInvoice y); try reflexivity.
    rewrite !app_assoc. apply Permutation_app_tail, Permutation_app_comm.
  - rewrite IH1. exact IH2.
Qed.

Lemma bucketQty_Permutation b l l' : l ≡ₚ l' -> (bucketQty b l == bucketQty b l')%Q.
Proof.
  intros H. unfold bucketQty. apply Qsum_Permutation, Permutation_map.
  rewrite H. reflexivity.
Qed.

Lemma bucketQty_app b l1 l2 :
  (bucketQty b (l1 ++ l2) == bucketQty b l1 + bucketQty b l2)%Q.
Proof. unfold bucketQty. rewrite filter_app, map_app. apply Qsum_app. Qed.

(** The effect of the scoped pass on the six counters. *)
Lemma fold_entryStep_acc l : forall a,
  let r := fold_left entryStep l a in
  (Acc.totalInvoiced r == Acc.totalInvoiced a + Qsum (invoicedAmounts l))%Q
  /\ (Acc.totalPaid r == Acc.totalPaid a + Qsum (paidAmounts l))%Q
  /\ (Acc.totalCN r == Acc.totalCN a + Qsum (cnAmounts l))%Q
  /\ (Acc.qtyPcr r == Acc.qtyPcr a + bucketQty PCR (viewLines l))%Q
  /\ (Acc.qtyNylon r == Acc.qtyNylon a + bucketQty NYLON (viewLines l))%Q
  /\ (Acc.qty2Wheeler r == Acc.qty2Wheeler a + bucketQty TWO_WHEELER (viewLines l))%Q.
Proof.
  induction l as [|e l IH]; intros a; cbn [fold_left].
  - unfold invoicedAmounts, paidAmounts, cnAmounts, viewLines, bucketQty.
    rewrite !filter_nil. cbn [map concat]. rewrite !filter_nil. cbn [map].
    rewrite !Qsum_nil. repeat split; ring.
  - destruct (IH (entryStep a e)) as (H1 & H2 & H3 & H4 & H5 & H6).
    cbv zeta. rewrite H1, H2, H3, H4, H5, H6. clear IH H1 H2 H3 H4 H5 H6.
    rewrite viewLines_cons.
    unfold invoicedAmounts, paidAmounts, cnAmounts.
    rewrite !filter_bool_cons.
    unfold entryStep, isOriginalInvoice, isPayment, isCN, isInvoice.
    destruct (LedgerEntry.type e); cbn [andb].
    + destruct (truthyOpt (LedgerEntry.originalRefId e)); cbn [negb].
      * cbn [map]. repeat split; ring.
      * match goal with
        | |- context [fold_left itemStep ?items ?a0] =>
            destruct (fold_itemStep_acc items a0) as (G1 & G2 & G3 & G4 & G5 & G6)
        end.
        cbv zeta in G1, G2, G3, G4, G5, G6.
        rewrite G1, G2, G3, G4, G5, G6.
        cbn [Acc.totalInvoiced Acc.totalPaid Acc.totalCN
             Acc.qtyPcr Acc.qtyNylon Acc.qty2Wheeler map].
        rewrite !bucketQty_app, ?Qsum_cons. repeat split; ring.
    + cbn [Acc.totalInvoiced Acc.totalPaid Acc.totalCN
           Acc.qtyPcr Acc.qtyNylon Acc.qty2Wheeler map].
      rewrite ?Qsum_cons. repeat split; ring.
    + cbn [Acc.totalInvoiced Acc.totalPaid Acc.totalCN
           Acc.qtyPcr Acc.qtyNylon Acc.qty2Wheeler map].
      rewrite ?Qsum_cons. repeat split; ring.
Qed.

(** The six scoped figures of [stats] as sums over the entries kept by the
    month filter. *)
Lemma stats_view_sums localeCompare (entries : list LedgerEntry.t) filterDate :
  (Stats.totalInvoiced (stats localeCompare entries filterDate)
   == Qsum (invoicedAmounts (filterByMonth entries filterDate)))%Q
  /\ (Stats.totalPaid (stats localeCompare entries filterDate)
      == Qsum (paidAmounts (filterByMonth entries filterDate)))%Q
  /\ (Stats.totalCN (stats localeCompare entries filterDate)
      == Qsum (cnAmounts (filterByMonth entries filterDate)))%Q
  /\ (Stats.qtyPcr (stats localeCompare entries filterDate)
      == bucketQty PCR (viewLines (filterByMonth entries filterDate)))%Q
  /\ (Stats.qtyNylon (stats localeCompare entries filterDate)
      == bucketQty NYLON (viewLines (filterByMonth entries filterDate)))%Q
  /\ (Stats.qty2Wheeler (stats localeCompare entries filterDate)
      == bucketQty TWO_WHEELER (viewLines (filterByMonth entries filterDate)))%Q.
Proof.
  unfold stats, computeStats. cbn.
  destruct (fold_entryStep_acc (filteredEntries localeCompare entries filterDate)
                               Acc.zero) as (H1 & H2 & H3 & H4 & H5 & H6).
  cbv zeta in H1, H2, H3, H4, H5, H6. rewrite H1, H2, H3, H4, H5, H6. cbn.
  pose proof (jsSort_Permutation (cmpEntries localeCompare)
                (filterByMonth entries filterDate)) as Hp.
  fold (filteredEntries localeCompare entries filterDate) in Hp.
  rewrite (Qsum_Permutation _ _ (invoicedAmounts_Permutation _ _ Hp)).
  rewrite (Qsum_Permutation _ _ (paidAmounts_Permutation _ _ Hp)).
  rewrite (Qsum_Permutation _ _ (cnAmounts_Permutation _ _ Hp)).
  rewrite !(bucketQty_Permutation _ _ _ (viewLines_Permutation _ _ Hp)).
  repeat split; ring.
Qed.



(** X5. Each category quantity of the view is the sum of the quantities of
    the item lines of that category, over the items (or the implicit item)
    of the original invoices kept by the month filter. *)
Theorem X5_category_quantities_are_sums :
  forall localeCompare (entries : list LedgerEntry.t) (filterDate : string),
    (Stats.qtyPcr (stats localeCompare entries filterDate)
     == bucketQty PCR (viewLines (filterByMonth entries filterDate)))%Q
    /\ (Stats.qtyNylon (stats localeCompare entries filterDate)
        == bucketQty NYLON (viewLines (filterByMonth entries filterDate)))%Q
    /\ (Stats.qty2Wheeler (stats localeCompare entries filterDate)
        == bucketQty TWO_WHEELER (viewLines (filterByMonth entries filterDate)))%Q.
Proof.
  intros lc entries fd.
  destruct (stats_view_sums lc entries fd) as (_ & _ & _ & H4 & H5 & H6). auto.
Qed.

(** ** The credit-note engine on any ledger *)

Lemma sameButStatusNotes_fields e e' :
  sameButStatusNotes e e' ->
  LedgerEntry.id e' = LedgerEntry.id e
  /\ LedgerEntry.type e' = LedgerEntry.type e
  /\ LedgerEntry.invoiceAmount e' = LedgerEntry.invoiceAmount e
  /\ LedgerEntry.paymentAmount e' = LedgerEntry.paymentAmount e
  /\ LedgerEntry.cnAmount e' = LedgerEntry.cnAmount e
  /\ LedgerEntry.originalRefId e' = LedgerEntry.originalRefId e.
Proof. unfold sameButStatusNotes. intros ->. repeat split. Qed.

(** The shape of the result on every input, identifiers distinct or not: the
    input with one position rewritten in status and notes at most, then at
    most one balance invoice built from an invoice of the list, then the
    credit note. *)
Lemma applyCreditNote_shape_any getTime intlFormat
    (l : list LedgerEntry.t) a d n cnId balId :
  exists (f : LedgerEntry.t -> LedgerEntry.t) (k : nat) extra,
    applyCreditNote getTime intlFormat l a d n cnId balId
    = Some (alter f k l ++ extra ++ [cnEntry cnId d a n])
    /\ (forall e, sameButStatusNotes e (f e))
    /\ (extra = []
        \/ exists tgt amt,
             tgt ∈ alter f k l /\ LedgerEntry.type tgt = INVOICE
             /\ extra = [balanceInvoice tgt balId amt]).
Proof.
  assert (Hid : forall k, alter (fun e : LedgerEntry.t => e) k l = l)
    by (intros k; apply list_alter_id; reflexivity).
  unfold applyCreditNote. rewrite map_id.
  destruct (pendingInvoices getTime l) as [|[i t] rest] eqn:E.
  { exists (fun e => e), 0, []. rewrite Hid. split; [reflexivity|].
    split; [apply sameButStatusNotes_refl|left; reflexivity]. }
  destruct (Qltb 0 a).
  2:{ exists (fun e => e), 0, []. rewrite Hid. split; [reflexivity|].
      split; [apply sameButStatusNotes_refl|left; reflexivity]. }
  assert (Ht : targetInvoice getTime l = Some (i, t))
    by (unfold targetInvoice; rewrite E; reflexivity).
  destruct (targetInvoice_Some _ _ _ _ Ht) as [Hi Hp].
  destruct (findIndex_is_Some _ _ _ Hi) as [k ->].
  destruct (Qltb (Qabs (numSub a (orZero (LedgerEntry.invoiceAmount t))))
                  (toDouble (1 # 100))).
  { exists settle, k, []. split; [reflexivity|].
    split; [intros e; apply sameButStatusNotes_set|left; reflexivity]. }
  destruct (Qltb a (orZero (LedgerEntry.invoiceAmount t))).
  2:{ exists settle, k, []. split; [reflexivity|].
      split; [intros e; apply sameButStatusNotes_set|left; reflexivity]. }
  exists (adjust intlFormat a), k.
  eexists. split; [rewrite <- app_assoc; reflexivity|].
  split; [intros e; apply sameButStatusNotes_set|]. right.
  assert (Hinv : LedgerEntry.type t = INVOICE).
  { unfold isPendingInvoice, isInvoice in Hp.
    destruct (LedgerEntry.type t); try discriminate Hp. reflexivity. }
  destruct (decide (k = i)) as [->|Hne].
  - exists (adjust intlFormat a t). eexists.
    assert (Hl : alter (adjust intlFormat a) i l !! i = Some (adjust intlFormat a t))
      by (rewrite list_lookup_alter_eq, Hi; reflexivity).
    rewrite Hl. split; [eapply list_elem_of_lookup_2, Hl|].
    split; [exact Hinv|reflexivity].
  - exists t. eexists.
    assert (Hl : alter (adjust intlFormat a) k l !! i = Some t)
      by (rewrite list_lookup_alter_ne by exact Hne; exact Hi).
    rewrite Hl. split; [eapply list_elem_of_lookup_2, Hl|].
    split; [exact Hinv|reflexivity].
Qed.

Lemma amounts_alter (f : LedgerEntry.t -> LedgerEntry.t) (l : list LedgerEntry.t) :
  (forall e, sameButStatusNotes e (f e)) ->
  forall k,
    invoicedAmounts (alter f k l) = invoicedAmounts l
    /\ paidAmounts (alter f k l) = paidAmounts l
    /\ cnAmounts (alter f k l) = cnAmounts l.
Proof.
  intros Hf. unfold invoicedAmounts, paidAmounts, cnAmounts.
  induction l as [|e l IH]; intros k; [auto|].
  destruct k as [|k]; cbn [alter list_alter].
  - destruct (sameButStatusNotes_fields _ _ (Hf e)) as (_ & Ht & Hi & Hp & Hc & Hr).
    rewrite !filter_bool_cons.
    unfold isOriginalInvoice, isPayment, isCN, isInvoice. rewrite Ht, Hr.
    destruct (LedgerEntry.type e); cbn [andb];
      [destruct (truthyOpt (LedgerEntry.originalRefId e)); cbn [negb map]|..];
      cbn [map]; rewrite ?Hi, ?Hp, ?Hc; auto.
  - destruct (IH k) as (H1 & H2 & H3).
    rewrite !filter_bool_cons.
    destruct (isOriginalInvoice e), (isPayment e), (isCN e); cbn [map];
      rewrite ?H1, ?H2, ?H3; auto.
Qed.

Lemma ids_alter (f : LedgerEntry.t -> LedgerEntry.t) (l : list LedgerEntry.t) k :
  (forall e, sameButStatusNotes e (f e)) ->
  LedgerEntry.id <$> alter f k l = LedgerEntry.id <$> l.
Proof.
  intros Hf. rewrite (list_fmap_alter LedgerEntry.id f (fun x => x)).
  - apply list_alter_id. reflexivity.
  - apply Forall_forall. intros e _. apply sameButStatusNotes_fields, Hf.
Qed.

Lemma invoicedAmounts_app l1 l2 :
  invoicedAmounts (l1 ++ l2) = invoicedAmounts l1 ++ invoicedAmounts l2.
Proof. unfold invoicedAmounts. rewrite filter_app, map_app. reflexivity. Qed.

Lemma paidAmounts_app l1 l2 : paidAmounts (l1 ++ l2) = paidAmounts l1 ++ paidAmounts l2.
Proof. unfold paidAmounts. rewrite filter_app, map_app. reflexivity. Qed.

Lemma cnAmounts_app l1 l2 : cnAmounts (l1 ++ l2) = cnAmounts l1 ++ cnAmounts l2.
Proof. unfold cnAmounts. rewrite filter_app, map_app. reflexivity. Qed.

Lemma outstanding_Qsum visible all :
  (Stats.outstanding (computeStats visible all)
   == Qsum (invoicedAmounts all) - Qsum (paidAmounts all) - Qsum (cnAmounts all))%Q.
Proof. rewrite outstanding_computeStats, !sumL_Qsum. reflexivity. Qed.

(** A balance invoice built from an invoice with a non-empty identifier
    adds to none of the three sums. *)
Lemma balanceInvoice_amounts tgt balId amt :
  LedgerEntry.type tgt = INVOICE -> LedgerEntry.id tgt <> "" ->
  invoicedAmounts [balanceInvoice tgt balId amt] = []
  /\ paidAmounts [balanceInvoice tgt balId amt] = []
  /\ cnAmounts [balanceInvoice tgt balId amt] = [].
Proof.
  intros Ht Hid. unfold invoicedAmounts, paidAmounts, cnAmounts.
  rewrite !filter_bool_cons, !filter_nil.
  unfold isOriginalInvoice, isPayment, isCN, isInvoice. cbn. rewrite Ht.
  apply truthyStr_ne in Hid. rewrite Hid. auto.
Qed.


(** X6. The engine returns a list on every input, with identifiers distinct
    or not: the write through [findIndex] never misses. The list is longer
    than the input by one or two and ends with the new credit note. *)
Theorem X6_engine_never_fails :
  forall getTime intlFormat (entries : list LedgerEntry.t) (amountVal : Q)
         (transDate transNotes cnId balId : string),
    exists out,
      applyCreditNote getTime intlFormat entries amountVal transDate transNotes
                      cnId balId = Some out
      /\ last out = Some (cnEntry cnId transDate amountVal transNotes)
      /\ (length out = length entries + 1 \/ length out = length entries + 2).
Proof.
  intros gt fmt entries a d n cnId balId.
  destruct (applyCreditNote_shape_any gt fmt entries a d n cnId balId)
    as (f & k & extra & Hres & _ & Hextra).
  eexists. split; [exact Hres|].
  split.
  - rewrite !app_assoc. apply last_snoc.
  - rewrite !length_app, length_alter.
    destruct Hextra as [->|(tgt & amt & _ & _ & ->)]; simpl; lia.
Qed.


(** X8. Identifiers stay pairwise distinct: when those of the ledger are,
    and the two drawn identifiers are new and differ from each other, those
    of the list returned by the engine are pairwise distinct too. *)
Theorem X8_engine_keeps_identifiers_distinct :
  forall getTime intlFormat (entries : list LedgerEntry.t) (amountVal : Q)
         (transDate transNotes cnId balId : string),
    NoDup (LedgerEntry.id <$> entries) ->
    cnId ∉ (LedgerEntry.id <$> entries) ->
    balId ∉ (LedgerEntry.id <$> entries) ->
    cnId <> balId ->
    exists out,
      applyCreditNote getTime intlFormat entries amountVal transDate transNotes
                      cnId balId = Some out
      /\ NoDup (LedgerEntry.id <$> out).
Proof.
  intros gt fmt entries a d n cnId balId Hnd Hcn Hbal Hne.
  destruct (applyCreditNote_shape_any gt fmt entries a d n cnId balId)
    as (f & k & extra & Hres & Hf & Hextra).
  eexists. split; [exact Hres|].
  rewrite !fmap_app, (ids_alter f entries k Hf).
  destruct Hextra as [->|(tgt & amt & _ & _ & ->)]; cbn [fmap list_fmap app].
  - apply NoDup_app. split; [exact Hnd|]. split; [|apply NoDup_singleton].
    intros x Hx Hx'. apply list_elem_of_singleton in Hx'. subst. contradiction.
  - apply NoDup_app. split; [exact Hnd|]. split.
    + intros x Hx Hx'. apply elem_of_cons in Hx' as [->|Hx']; [contradiction|].
      apply list_elem_of_singleton in Hx'. subst. contradiction.
    + apply NoDup_cons. split; [|apply NoDup_singleton].
      intros Hx. apply list_elem_of_singleton in Hx. cbn in Hx. congruence.
Qed.

(** ** Pending invoices *)

Lemma pendingTotal_cons e l :
  pendingTotal (e :: l) =
  if isPendingInvoice e
  then (orZero (LedgerEntry.invoiceAmount e) + pendingTotal l)%Q
  else pendingTotal l.
Proof.
  unfold pendingTotal. rewrite filter_bool_cons.
  destruct (isPendingInvoice e); reflexivity.
Qed.

Lemma pendingTotal_app l1 l2 :
  (pendingTotal (l1 ++ l2) == pendingTotal l1 + pendingTotal l2)%Q.
Proof. unfold pendingTotal. rewrite filter_app, map_app. apply Qsum_app. Qed.

Lemma pendingTotal_alter (f : LedgerEntry.t -> LedgerEntry.t)
    (l : list LedgerEntry.t) : forall (i : nat) t,
  l !! i = Some t -> isPendingInvoice t = true -> isPendingInvoice (f t) = false ->
  (pendingTotal (alter f i l)
   == pendingTotal l - orZero (LedgerEntry.invoiceAmount t))%Q.
Proof.
  induction l as [|e l IH]; intros i t Hi Hp Hf; [discriminate|].
  destruct i as [|i]; cbn [alter list_alter].
  - injection Hi as ->. rewrite !pendingTotal_cons, Hp, Hf. ring.
  - rewrite !pendingTotal_cons. simpl in Hi.
    destruct (isPendingInvoice e); rewrite (IH i t Hi Hp Hf); ring.
Qed.

Lemma isPendingInvoice_setStatus e st n :
  st <> PENDING -> isPendingInvoice (setStatusNotes e st n) = false.
Proof.
  intros H. unfold isPendingInvoice. cbn.
  destruct st; [contradiction|apply andb_false_r..].
Qed.

Lemma isPendingInvoice_type t : isPendingInvoice t = true -> LedgerEntry.type t = INVOICE.
Proof.
  unfold isPendingInvoice, isInvoice.
  destruct (LedgerEntry.type t); try discriminate. reflexivity.
Qed.

(** X9. With distinct identifiers and a positive amount, a partial credit
    note puts the balance invoice in the place of the target among the
    pending invoices: the sum of the pending invoice amounts loses the
    invoice amount of the target and gains the balance, which is a drop by
    the amount of the credit note whenever the binary64 subtraction that
    gives the balance is exact. A matching or larger credit note lowers the
    sum by the invoice amount of the target only, so what exceeds the
    invoice settles nothing. *)
Theorem X9_pending_total_after_credit_note :
  forall getTime intlFormat (entries : list LedgerEntry.t) (amountVal : Q)
         (transDate transNotes cnId balId : string) (i : nat) target,
    NoDup (LedgerEntry.id <$> entries) ->
    targetInvoice getTime entries = Some (i, target) ->
    (0 < amountVal)%Q ->
    exists out,
      applyCreditNote getTime intlFormat entries amountVal transDate transNotes
                      cnId balId = Some out
      /\ ((amountVal < orZero (LedgerEntry.invoiceAmount target))%Q ->
          (toDouble (1 # 100)
           <= Qabs (numSub amountVal (orZero (LedgerEntry.invoiceAmount target))))%Q ->
          (pendingTotal out
           == pendingTotal entries - orZero (LedgerEntry.invoiceAmount target)
              + numSub (orZero (LedgerEntry.invoiceAmount target)) amountVal)%Q
          /\ ((numSub (orZero (LedgerEntry.invoiceAmount target)) amountVal
               == orZero (LedgerEntry.invoiceAmount target) - amountVal)%Q ->
              (pendingTotal out == pendingTotal entries - amountVal)%Q))
      /\ (((Qabs (numSub amountVal (orZero (LedgerEntry.invoiceAmount target)))
            < toDouble (1 # 100))%Q
           \/ (orZero (LedgerEntry.invoiceAmount target) <= amountVal)%Q) ->
          (pendingTotal out
           == pendingTotal entries - orZero (LedgerEntry.invoiceAmount target))%Q).
Proof.
  intros gt fmt entries a d n cnId balId i t Hnd Ht Hpos.
  destruct (targetInvoice_Some _ _ _ _ Ht) as [Hi Hp].
  pose proof (isPendingInvoice_type _ Hp) as Hty.
  rewrite (applyCreditNote_cases gt fmt _ _ _ _ _ _ Hnd), Ht.
  apply Qltb_lt in Hpos. rewrite Hpos.
  assert (Hsettle :
            (pendingTotal (alter settle i entries ++ [cnEntry cnId d a n])
             == pendingTotal entries - orZero (LedgerEntry.invoiceAmount t))%Q).
  { rewrite pendingTotal_app, (pendingTotal_alter settle entries i t Hi Hp).
    - rewrite pendingTotal_cons. cbn. ring.
    - apply isPendingInvoice_setStatus. discriminate. }
  destruct (Qltb (Qabs (numSub a (orZero (LedgerEntry.invoiceAmount t))))
                 (toDouble (1 # 100))) eqn:En.
  { eexists. split; [reflexivity|]. split; [|intros _; exact Hsettle].
    intros _ Hfar. apply Qltb_lt in En. exfalso.
    apply (Qlt_irrefl (toDouble (1 # 100))). eapply Qle_lt_trans; eassumption. }
  destruct (Qltb a (orZero (LedgerEntry.invoiceAmount t))) eqn:El.
  - eexists. split; [reflexivity|]. split.
    + intros _ _.
      assert (Hpart :
                (pendingTotal
                   (alter (adjust fmt a) i entries
                      ++ [balanceInvoice t balId
                            (numSub (orZero (LedgerEntry.invoiceAmount t)) a);
                          cnEntry cnId d a n])
                 == pendingTotal entries - orZero (LedgerEntry.invoiceAmount t)
                    + numSub (orZero (LedgerEntry.invoiceAmount t)) a)%Q).
      { rewrite pendingTotal_app, (pendingTotal_alter _ entries i t Hi Hp).
        * rewrite !pendingTotal_cons.
          unfold isPendingInvoice, isInvoice. cbn. rewrite Hty. cbn.
          rewrite numOr_zero. ring.
        * apply isPendingInvoice_setStatus. discriminate. }
      split; [exact Hpart|].
      intros Hexact. rewrite Hpart, Hexact. ring.
    + intros [Hnear|Hge].
      * apply Qltb_lt in Hnear. congruence.
      * apply Qltb_lt in El. exfalso. apply (Qlt_irrefl a).
        eapply Qlt_le_trans; eassumption.
  - eexists. split; [reflexivity|]. split; [|intros _; exact Hsettle].
    intros Hlt _. apply Qltb_lt in Hlt. congruence.
Qed.

(** ** Payments and edited transactions *)





(** The entry written by the edit branch of [handleSubmitTransaction]. *)
Lemma handleSubmitTransaction_edit getTime intlFormat
    (entries : list LedgerEntry.t) id0 ty d a n newId balId :
  id0 <> "" ->
  handleSubmitTransaction getTime intlFormat entries (Some id0) ty d a n newId balId
  = Some (map (fun entry =>
                 if String.eqb (LedgerEntry.id entry) id0 then
                   LedgerEntry.mk (LedgerEntry.id entry) (LedgerEntry.type entry) d
                     (LedgerEntry.invoiceNo entry) (LedgerEntry.size entry)
                     (LedgerEntry.pattern entry) (LedgerEntry.quantity entry)
                     (LedgerEntry.unitPrice entry) (LedgerEntry.invoiceAmount entry)
                     (LedgerEntry.items entry) (LedgerEntry.dueDate entry)
                     (match ty with T_PAYMENT => Some a | T_CN => None end)
                     (match ty with T_CN => Some a | T_PAYMENT => None end)
                     (LedgerEntry.status entry) (LedgerEntry.originalRefId entry)
                     (Some n)
                 else entry) entries).
Proof.
  intros Hne. unfold handleSubmitTransaction. cbn [truthyOpt orEmpty].
  rewrite strOr_empty. apply truthyStr_ne in Hne. rewrite Hne. reflexivity.
Qed.

Lemma pendingTotal_map (g : LedgerEntry.t -> LedgerEntry.t) l :
  (forall e, LedgerEntry.type (g e) = LedgerEntry.type e
             /\ LedgerEntry.status (g e) = LedgerEntry.status e
             /\ LedgerEntry.invoiceAmount (g e) = LedgerEntry.invoiceAmount e) ->
  pendingTotal (map g l) = pendingTotal l.
Proof.
  intros Hg. induction l as [|e l IH]; [reflexivity|].
  cbn [map]. rewrite !pendingTotal_cons, IH.
  destruct (Hg e) as (Ht & Hs & Ha).
  unfold isPendingInvoice, isInvoice. rewrite Ht, Hs, Ha. reflexivity.
Qed.

(** X11. Saving an edited payment or credit note rewrites the entries that
    carry the edited identifier and nothing else: the list keeps its length,
    every other entry is untouched, the edited entry keeps its identifier,
    type, status and invoice fields and takes the date, the notes and the
    amount of the form. The credit-note engine is not run again: no invoice
    changes status and the pending total is the same. When no entry carries
    the identifier the list is returned as it was. *)
Theorem X11_transaction_edit_rewrites_one_entry :
  forall getTime intlFormat (entries : list LedgerEntry.t) (id0 : string)
         (ty : TransactionType) (transDate : string) (amountVal : Q)
         (transNotes newId balId : string),
    id0 <> "" ->
    exists out,
      handleSubmitTransaction getTime intlFormat entries (Some id0) ty transDate
                              amountVal transNotes newId balId = Some out
      /\ length out = length entries
      /\ (forall k e,
             entries !! k = Some e ->
             exists e',
               out !! k = Some e'
               /\ LedgerEntry.id e' = LedgerEntry.id e
               /\ LedgerEntry.type e' = LedgerEntry.type e
               /\ LedgerEntry.status e' = LedgerEntry.status e
               /\ LedgerEntry.invoiceAmount e' = LedgerEntry.invoiceAmount e
               /\ LedgerEntry.originalRefId e' = LedgerEntry.originalRefId e
               /\ (LedgerEntry.id e <> id0 -> e' = e)
               /\ (LedgerEntry.id e = id0 ->
                   LedgerEntry.date e' = transDate
                   /\ LedgerEntry.notes e' = Some transNotes
                   /\ LedgerEntry.paymentAmount e'
                      = match ty with T_PAYMENT => Some amountVal | T_CN => None end
                   /\ LedgerEntry.cnAmount e'
                      = match ty with T_CN => Some amountVal | T_PAYMENT => None end))
      /\ pendingTotal out = pendingTotal entries
      /\ (id0 ∉ (LedgerEntry.id <$> entries) -> out = entries).
Proof.
  intros gt fmt entries id0 ty d a n newId balId Hne.
  rewrite (handleSubmitTransaction_edit gt fmt entries id0 ty d a n newId balId Hne).
  eexists. split; [reflexivity|].
  split; [apply length_map|].
  split.
  { intros k e Hk. rewrite list_lookup_fmap, Hk. cbn [fmap option_fmap option_map].
    eexists. split; [reflexivity|].
    destruct (String.eqb_spec (LedgerEntry.id e) id0) as [E|E]; cbn.
    - repeat split; intros; first [reflexivity | contradiction].
    - repeat split; intros; first [reflexivity | contradiction]. }
  split.
  { apply pendingTotal_map. intros e.
    destruct (String.eqb (LedgerEntry.id e) id0); repeat split. }
  intros Hnin. rewrite <- (map_id entries) at 2. apply map_ext_in.
  intros e He. destruct (String.eqb_spec (LedgerEntry.id e) id0) as [E|E]; [|reflexivity].
  exfalso. apply Hnin. rewrite <- E. apply list_elem_of_fmap_2, list_elem_of_In, He.
Qed.

(** ** Deletion *)

Lemma confirmDelete_Some id0 (l : list LedgerEntry.t) :
  id0 <> "" ->
  confirmDelete (Some id0) l = filter (fun item => LedgerEntry.id item <> id0) l.
Proof.
  intros H. unfold confirmDelete. cbn [truthyOpt orEmpty].
  rewrite strOr_empty. apply truthyStr_ne in H. rewrite H. reflexivity.
Qed.

Lemma filter_all {A} (P : A -> Prop) `{!forall x, Decision (P x)} (l : list A) :
  (forall x, x ∈ l -> P x) -> filter P l = l.
Proof.
  induction l as [|x l IH]; intros Hall; [reflexivity|].
  rewrite filter_cons_True by (apply Hall; left).
  f_equal. apply IH. intros y Hy. apply Hall. right. exact Hy.
Qed.

Lemma filter_delete_unique (l : list LedgerEntry.t) : forall (i : nat) e,
  NoDup (LedgerEntry.id <$> l) -> l !! i = Some e ->
  filter (fun item => LedgerEntry.id item <> LedgerEntry.id e) l = delete i l.
Proof.
  induction l as [|x l IH]; intros i e Hnd Hi; [discriminate|].
  rewrite fmap_cons in Hnd. apply NoDup_cons in Hnd as [Hnin Hnd].
  destruct i as [|i].
  - injection Hi as ->. rewrite filter_cons_False by (intros H; apply H; reflexivity).
    cbn [delete list_delete]. apply filter_all.
    intros y Hy Heq. apply Hnin. rewrite <- Heq. apply list_elem_of_fmap_2, Hy.
  - simpl in Hi. rewrite filter_cons_True.
    + cbn [delete list_delete]. f_equal. apply IH; assumption.
    + intros Heq. apply Hnin. rewrite Heq.
      apply list_elem_of_fmap_2. eapply list_elem_of_lookup_2, Hi.
Qed.

(** X18. Confirming the deletion of a non-empty identifier keeps exactly the
    entries with another identifier, in their order and unchanged. Nothing
    else is removed with an entry: not the balance invoice of a deleted
    invoice, nor the status written by a deleted credit note. An identifier
    that no entry carries leaves the list as it is, deleting twice is
    deleting once, and with distinct identifiers exactly the one entry is
    removed. *)
Theorem X18_delete_removes_the_identifier_only :
  forall (entries : list LedgerEntry.t) (id0 : string),
    id0 <> "" ->
    (forall e, e ∈ confirmDelete (Some id0) entries <->
               e ∈ entries /\ LedgerEntry.id e <> id0)
    /\ sublist (confirmDelete (Some id0) entries) entries
    /\ (id0 ∉ (LedgerEntry.id <$> entries) ->
        confirmDelete (Some id0) entries = entries)
    /\ confirmDelete (Some id0) (confirmDelete (Some id0) entries)
       = confirmDelete (Some id0) entries
    /\ (forall (i : nat) e,
           NoDup (LedgerEntry.id <$> entries) ->
           entries !! i = Some e -> LedgerEntry.id e = id0 ->
           confirmDelete (Some id0) entries = delete i entries
           /\ length (confirmDelete (Some id0) entries) + 1 = length entries).
Proof.
  intros entries id0 Hne. rewrite !(confirmDelete_Some id0) by exact Hne.
  split.
  { intros e. rewrite list_elem_of_filter. tauto. }
  split; [apply sublist_filter|].
  split.
  { intros Hnin. apply filter_all. intros x Hx Heq.
    apply Hnin. rewrite <- Heq. apply list_elem_of_fmap_2, Hx. }
  split.
  { apply filter_all. intros x Hx. apply list_elem_of_filter in Hx as [Hx _]. exact Hx. }
  intros i e Hnd Hi <-.
  rewrite (filter_delete_unique entries i e Hnd Hi). split; [reflexivity|].
  rewrite length_delete by (eexists; exact Hi).
  pose proof (lookup_lt_Some _ _ _ Hi). lia.
Qed.

Lemma X18_delete_removes_the_identifier_only_witness :
  "t2" <> ""
  /\ confirmDelete (Some "t2") exEngineLedger = [exPaidOld; exTarget]
  /\ sublist (confirmDelete (Some "t2") exEngineLedger) exEngineLedger.
Proof.
  assert (H : "t2" <> "") by discriminate.
  split; [exact H|]. split; [reflexivity|].
  apply (X18_delete_removes_the_identifier_only exEngineLedger "t2" H).
Defined.

(** X19. Deleting a credit note that the engine has applied does not undo
    the application. With distinct, non-empty identifiers and fresh drawn
    identifiers, deleting the new credit note leaves the list that the
    engine returned without its last entry: the outstanding balance is back
    to what it was before the credit note, but the target invoice stays
    PAID or ADJUSTED and a balance invoice that was created stays. *)
Theorem X19_deleting_a_credit_note_keeps_its_adjustment :
  forall getTime intlFormat (entries : list LedgerEntry.t) (amountVal : Q)
         (transDate transNotes cnId balId : string),
    NoDup (LedgerEntry.id <$> entries) ->
    "" ∉ (LedgerEntry.id <$> entries) ->
    cnId ∉ (LedgerEntry.id <$> entries) ->
    cnId <> balId ->
    cnId <> "" ->
    exists rest,
      applyCreditNote getTime intlFormat entries amountVal transDate transNotes
                      cnId balId
      = Some (rest ++ [cnEntry cnId transDate amountVal transNotes])
      /\ confirmDelete (Some cnId)
           (rest ++ [cnEntry cnId transDate amountVal transNotes]) = rest
      /\ (forall localeCompare filterDate,
             (Stats.outstanding (stats localeCompare rest filterDate)
              == Stats.outstanding (stats localeCompare entries filterDate))%Q)
      /\ (forall (i : nat) t,
             targetInvoice getTime entries = Some (i, t) ->
             (0 < amountVal)%Q ->
             exists t',
               rest !! i = Some t'
               /\ (LedgerEntry.status t' = Some PAID
                   \/ LedgerEntry.status t' = Some ADJUSTED)).
Proof.
  intros gt fmt entries a d n cnId balId Hnd Hids Hcn Hne Hcne.
  destruct (applyCreditNote_shape_any gt fmt entries a d n cnId balId)
    as (f & k & extra & Hres & Hf & Hextra).
  exists (alter f k entries ++ extra).
  rewrite <- app_assoc. split; [exact Hres|].
  assert (Hx : (LedgerEntry.id <$> extra) = [] \/ (LedgerEntry.id <$> extra) = [balId]).
  { destruct Hextra as [->|(tgt & amt & _ & _ & ->)]; [left|right]; reflexivity. }
  split.
  { rewrite (confirmDelete_Some cnId) by exact Hcne.
    rewrite !filter_app, filter_cons_False, filter_nil, app_nil_r.
    - f_equal; apply filter_all; intros x Hx' Heq.
      + apply Hcn. rewrite <- (ids_alter f entries k Hf), <- Heq.
        apply list_elem_of_fmap_2, Hx'.
      + apply (list_elem_of_fmap_2 LedgerEntry.id) in Hx'. rewrite Heq in Hx'.
        destruct Hx as [Hx|Hx]; rewrite Hx in Hx'.
        * inversion Hx'.
        * apply list_elem_of_singleton in Hx'. contradiction.
    - intros H. apply H. reflexivity. }
  split.
  { intros lc fd. unfold stats. rewrite !outstanding_Qsum.
    rewrite !invoicedAmounts_app, !paidAmounts_app, !cnAmounts_app.
    destruct (amounts_alter f entries Hf k) as (-> & -> & ->).
    assert (Hz : invoicedAmounts extra = [] /\ paidAmounts extra = []
                 /\ cnAmounts extra = []).
    { destruct Hextra as [->|(tgt & amt & Hin & Hty & ->)]; [auto|].
      apply balanceInvoice_amounts; [exact Hty|].
      intros Hempty. apply Hids. rewrite <- (ids_alter f entries k Hf), <- Hempty.
      apply list_elem_of_fmap_2, Hin. }
    destruct Hz as (-> & -> & ->). rewrite !app_nil_r. reflexivity. }
  intros i t Ht Hpos.
  destruct (targetInvoice_Some _ _ _ _ Ht) as [Hi Hp].
  rewrite (applyCreditNote_cases gt fmt _ _ _ _ _ _ Hnd), Ht in Hres.
  apply Qltb_lt in Hpos. rewrite Hpos in Hres.
  assert (Hlen : i < length (alter f k entries))
    by (rewrite length_alter; eapply lookup_lt_Some, Hi).
  assert (Hlook : forall g tail,
             alter g i entries ++ tail = (alter f k entries ++ extra) ++ [cnEntry cnId d a n] ->
             (alter f k entries ++ extra) !! i = Some (g t)).
  { intros g tail Heq.
    assert (H1 : (alter g i entries ++ tail) !! i = Some (g t)).
    { rewrite lookup_app_l by (rewrite length_alter; eapply lookup_lt_Some, Hi).
      rewrite list_lookup_alter_eq, Hi. reflexivity. }
    rewrite Heq in H1. rewrite lookup_app_l in H1; [exact H1|].
    rewrite length_app. lia. }
  rewrite app_assoc in Hres.
  destruct (Qltb (Qabs (numSub a (orZero (LedgerEntry.invoiceAmount t))))
                  (toDouble (1 # 100))).
  { injection Hres as Hres. exists (settle t).
    split; [apply (Hlook settle _ Hres)|left; reflexivity]. }
  destruct (Qltb a (orZero (LedgerEntry.invoiceAmount t))).
  - injection Hres as Hres. exists (adjust fmt a t).
    split; [apply (Hlook _ _ Hres)|right; reflexivity].
  - injection Hres as Hres. exists (settle t).
    split; [apply (Hlook settle _ Hres)|left; reflexivity].
Qed.

(** ** The rows of the invoice form *)

Lemma snd_imap_pair {A} (g : nat -> nat) (l : list A) :
  snd <$> imap (fun i x => (g i, x)) l = l.
Proof.
  revert g. induction l as [|x l IH]; intros g; [reflexivity|].
  rewrite imap_cons, fmap_cons. cbn [snd]. f_equal. apply (IH (g ∘ S)).
Qed.

Lemma filterOutIndex_shift {A} (l : list A) : forall k index,
  snd <$> filter (fun p : nat * A => p.1 <> k + index)
                 (imap (fun i x => (k + i, x)) l)
  = delete index l.
Proof.
  induction l as [|x l IH]; intros k index; [reflexivity|].
  rewrite imap_cons. destruct index as [|index].
  - rewrite filter_cons_False by (cbn; lia).
    change (delete 0 (x :: l)) with l.
    rewrite filter_all.
    + apply (snd_imap_pair (fun i => k + S i)).
    + intros [j y] Hin. apply elem_of_lookup_imap in Hin as (i & z & [= -> ->] & _).
      cbn. lia.
  - rewrite filter_cons_True by (cbn; lia).
    rewrite fmap_cons. cbn [snd].
    change (delete (S index) (x :: l)) with (x :: delete index l). f_equal.
    rewrite <- (IH (S k) index).
    replace (k + S index) with (S k + index) by lia.
    f_equal. f_equal. apply imap_ext. intros i y _. cbn. f_equal. lia.
Qed.

Lemma filterOutIndex_delete {A} index (l : list A) :
  filterOutIndex index l = delete index l.
Proof. apply (filterOutIndex_shift l 0 index). Qed.

Lemma delete_past_end {A} (l : list A) i : length l <= i -> delete i l = l.
Proof.
  intros H. rewrite delete_take_drop, take_ge, drop_ge by lia. apply app_nil_r.
Qed.

(** X12. Removing a row from the invoice form never empties the form: with
    a single row nothing is removed, with more rows exactly the row at the
    index goes and the others keep their order, and an index past the end
    removes nothing. *)
Theorem X12_form_keeps_one_row :
  forall (rows : list ItemLine.t) (index : nat),
    rows <> [] ->
    handleRemoveInvoiceItem rows index <> []
    /\ (length rows = 1 -> handleRemoveInvoiceItem rows index = rows)
    /\ (1 < length rows -> handleRemoveInvoiceItem rows index = delete index rows)
    /\ (1 < length rows -> index < length rows ->
        length (handleRemoveInvoiceItem rows index) + 1 = length rows)
    /\ (length rows <= index -> handleRemoveInvoiceItem rows index = rows).
Proof.
  intros rows index Hne. unfold handleRemoveInvoiceItem.
  rewrite filterOutIndex_delete.
  destruct (1 <? length rows)%nat eqn:E.
  - apply Nat.ltb_lt in E. split.
    { intros H. apply (f_equal length) in H.
      destruct (decide (index < length rows)) as [Hlt|Hge].
      - rewrite length_delete in H by (apply lookup_lt_is_Some; exact Hlt).
        simpl in H. lia.
      - rewrite delete_past_end in H by lia. simpl in H. lia. }
    split; [lia|]. split; [reflexivity|].
    split.
    + intros _ Hlt. rewrite length_delete by (apply lookup_lt_is_Some; exact Hlt). lia.
    + intros Hge. apply delete_past_end. exact Hge.
  - apply Nat.ltb_ge in E. split; [exact Hne|].
    split; [reflexivity|]. split; [lia|]. split; [lia|reflexivity].
Qed.

Lemma X12_form_keeps_one_row_witness :
  [blankItem] <> []
  /\ handleRemoveInvoiceItem [blankItem] 0 = [blankItem]
  /\ handleRemoveInvoiceItem (handleAddInvoiceItem [blankItem]) 0 <> [].
Proof.
  assert (H : [blankItem] <> []) by discriminate.
  split; [exact H|]. split; [reflexivity|].
  apply (X12_form_keeps_one_row (handleAddInvoiceItem [blankItem]) 0).
  discriminate.
Defined.

(** X13. Typing into a row of the form changes that row and that field
    only: the number of rows and every other row are unchanged, and the row
    at the index holds the new value in the field and its old values in the
    other three. *)
Theorem X13_form_change_is_local :
  forall (rows : list ItemLine.t) (index : nat) (fv : ItemField) (row : ItemLine.t),
    rows !! index = Some row ->
    length (handleInvoiceItemChange rows index fv) = length rows
    /\ handleInvoiceItemChange rows index fv !! index = Some (setField row fv)
    /\ (forall j, j <> index ->
                  handleInvoiceItemChange rows index fv !! j = rows !! j)
    /\ match fv with
       | F_size v =>
           ItemLine.size (setField row fv) = v
           /\ ItemLine.pattern (setField row fv) = ItemLine.pattern row
           /\ ItemLine.quantity (setField row fv) = ItemLine.quantity row
           /\ ItemLine.unitPrice (setField row fv) = ItemLine.unitPrice row
       | F_pattern v =>
           ItemLine.size (setField row fv) = ItemLine.size row
           /\ ItemLine.pattern (setField row fv) = v
           /\ ItemLine.quantity (setField row fv) = ItemLine.quantity row
           /\ ItemLine.unitPrice (setField row fv) = ItemLine.unitPrice row
       | F_quantity v =>
           ItemLine.size (setField row fv) = ItemLine.size row
           /\ ItemLine.pattern (setField row fv) = ItemLine.pattern row
           /\ ItemLine.quantity (setField row fv) = v
           /\ ItemLine.unitPrice (setField row fv) = ItemLine.unitPrice row
       | F_unitPrice v =>
           ItemLine.size (setField row fv) = ItemLine.size row
           /\ ItemLine.pattern (setField row fv) = ItemLine.pattern row
           /\ ItemLine.quantity (setField row fv) = ItemLine.quantity row
           /\ ItemLine.unitPrice (setField row fv) = v
       end.
Proof.
  intros rows index fv row Hrow. unfold handleInvoiceItemChange.
  split; [apply length_alter|].
  split; [rewrite list_lookup_alter_eq, Hrow; reflexivity|].
  split; [intros j Hj; apply list_lookup_alter_ne; congruence|].
  destruct fv; repeat split.
Qed.

Lemma X13_form_change_is_local_witness :
  [blankItem] !! 0 = Some blankItem
  /\ handleInvoiceItemChange [blankItem] 0 (F_size "195/55-R16")
     = [ItemLine.mk "195/55-R16" "" 1 0].
Proof.
  split; [reflexivity|].
  destruct (X13_form_change_is_local [blankItem] 0 (F_size "195/55-R16")
              blankItem eq_refl) as (_ & H & _).
  reflexivity.
Defined.

(** ** Saving the invoice form *)

Lemma finalItemsOf_cons gen row rows :
  finalItemsOf gen (row :: rows) =
  InvoiceItem.mk (gen 0) (ItemLine.size row) (ItemLine.pattern row)
                 (ItemLine.quantity row) (ItemLine.unitPrice row)
  :: finalItemsOf (gen ∘ S) rows.
Proof. reflexivity. Qed.

Lemma lineOf_finalItems rows : forall gen, map lineOf (finalItemsOf gen rows) = rows.
Proof.
  induction rows as [|row rows IH]; intros gen; [reflexivity|].
  rewrite finalItemsOf_cons. cbn [map]. rewrite IH. destruct row; reflexivity.
Qed.

Lemma finalItemsOf_length gen rows : length (finalItemsOf gen rows) = length rows.
Proof. apply length_imap. Qed.

Lemma finalItemsOf_id gen (rows : list ItemLine.t) (k : nat) it :
  finalItemsOf gen rows !! k = Some it -> InvoiceItem.id it = gen k.
Proof.
  unfold finalItemsOf. rewrite list_lookup_imap.
  destruct (rows !! k); [|discriminate]. intros [= <-]. reflexivity.
Qed.

Lemma map_size_finalItems gen rows :
  map InvoiceItem.size (finalItemsOf gen rows) = map ItemLine.size rows.
Proof.
  rewrite <- (lineOf_finalItems rows gen) at 2. rewrite map_map. reflexivity.
Qed.

Lemma map_pattern_finalItems gen rows :
  map InvoiceItem.pattern (finalItemsOf gen rows) = map ItemLine.pattern rows.
Proof.
  rewrite <- (lineOf_finalItems rows gen) at 2. rewrite map_map. reflexivity.
Qed.

Lemma sumZ_cons x l : sumZ (x :: l) = (x + sumZ l)%Z.
Proof. reflexivity. Qed.

Lemma wholeRows_sum_fst rows qps :
  wholeRows rows qps -> (0 <= sumZ (map fst qps))%Z.
Proof.
  induction 1 as [|row [q p] rows qps (_ & _ & Hq & _) _ IH].
  - cbn. lia.
  - cbn [map fst]. rewrite sumZ_cons. cbn [fst] in Hq. lia.
Qed.

Lemma wholeRows_sum_amount rows qps :
  wholeRows rows qps -> (0 <= sumZ (map (fun qp : Z * Z => (qp.1 * qp.2)%Z) qps))%Z.
Proof.
  induction 1 as [|row [q p] rows qps (_ & _ & Hq & Hp) _ IH].
  - cbn. lia.
  - cbn [map fst snd]. rewrite sumZ_cons. cbn [fst snd] in Hq, Hp. nia.
Qed.

(** The totals of a form whose quantities and unit prices are natural
    numbers are the exact sums, as long as these have at most 53 bits. *)
Lemma totalQuantityOf_whole rows : forall qps gen acc,
  wholeRows rows qps -> (0 <= acc)%Z ->
  (acc + sumZ (map fst qps) < 2 ^ 53)%Z ->
  fold_left (fun sum item => numAdd sum (InvoiceItem.quantity item))
            (finalItemsOf gen rows) (inject_Z acc)
  = inject_Z (acc + sumZ (map fst qps)).
Proof.
  induction rows as [|row rows IH]; intros qps gen acc Hw Hacc Hsum.
  - inversion Hw; subst. cbn. rewrite Z.add_0_r. reflexivity.
  - inversion Hw as [|r [q p] rs l' (Hq & Hp & Hq0 & Hp0) Hrest]; subst.
    rewrite finalItemsOf_cons. cbn [fold_left InvoiceItem.quantity].
    cbn [map fst] in Hsum |- *. rewrite sumZ_cons in Hsum |- *.
    cbn [fst snd] in Hq, Hq0.
    pose proof (wholeRows_sum_fst _ _ Hrest) as Hs0.
    rewrite Hq, numAdd_Z by lia.
    rewrite (IH l' (gen ∘ S) (acc + q)%Z Hrest) by lia.
    f_equal. lia.
Qed.

Lemma rawTotalAmountOf_whole rows : forall qps gen acc,
  wholeRows rows qps -> (0 <= acc)%Z ->
  (acc + sumZ (map (fun qp : Z * Z => (qp.1 * qp.2)%Z) qps) < 2 ^ 53)%Z ->
  fold_left (fun sum item =>
               numAdd sum (numMul (InvoiceItem.quantity item)
                                  (InvoiceItem.unitPrice item)))
            (finalItemsOf gen rows) (inject_Z acc)
  = inject_Z (acc + sumZ (map (fun qp : Z * Z => (qp.1 * qp.2)%Z) qps)).
Proof.
  induction rows as [|row rows IH]; intros qps gen acc Hw Hacc Hsum.
  - inversion Hw; subst. cbn. rewrite Z.add_0_r. reflexivity.
  - inversion Hw as [|r [q p] rs l' (Hq & Hp & Hq0 & Hp0) Hrest]; subst.
    rewrite finalItemsOf_cons.
    cbn [fold_left InvoiceItem.quantity InvoiceItem.unitPrice].
    cbn [map fst snd] in Hsum |- *. rewrite sumZ_cons in Hsum |- *.
    cbn [fst snd] in Hq, Hp, Hq0, Hp0.
    pose proof (wholeRows_sum_amount _ _ Hrest) as Hs0.
    assert (Hqp : (0 <= q * p)%Z) by nia.
    rewrite Hq, Hp, numMul_Z, numAdd_Z by lia.
    rewrite (IH l' (gen ∘ S) (acc + q * p)%Z Hrest) by lia.
    f_equal. lia.
Qed.

Lemma mathRound_Z z : mathRound (inject_Z z) = inject_Z z.
Proof.
  unfold mathRound. f_equal. unfold Qfloor, Qplus, inject_Z. cbn [Qnum Qden].
  change (Z.pos (1 * 2)) with 2%Z.
  replace (z * 2 + 1 * 1)%Z with (1 + z * 2)%Z by lia.
  rewrite Z.div_add by lia. reflexivity.
Qed.

(** [Math.round] gives an integer at distance one half at most, halves
    going up. *)
Lemma mathRound_bounds x :
  (x - (1 # 2) < mathRound x)%Q /\ (mathRound x <= x + (1 # 2))%Q.
Proof.
  unfold mathRound. split.
  - pose proof (Qlt_floor (x + (1 # 2))) as H.
    rewrite inject_Z_plus in H. change (inject_Z 1) with 1%Q in H. lra.
  - apply Qfloor_le.
Qed.

(** X14. Saving the form of a new invoice appends one invoice and leaves
    the entries as they were. The invoice takes the last identifier drawn,
    the date, number and status of the form and the due date computed from
    the date; it is no balance invoice; its items are the rows of the form
    with the identifiers drawn for them; its amount is an integer, the
    nearest one (halves upwards) to the total that the form computes, which
    is the binary64 sum, in row order, of the binary64 products of quantity
    and unit price. For rows whose quantities and unit prices are natural
    numbers the amount and the quantity of the invoice are the exact sums,
    as long as these have at most 53 bits. When the due date cannot be
    computed nothing is saved. *)
Theorem X14_new_invoice_from_form :
  forall addDays (entries : list LedgerEntry.t) (editingId : option string)
         (invoiceDate invoiceNum : string) (invoiceStatus : InvoiceStatus)
         (rows : list ItemLine.t) (gen : nat -> string),
    truthyOpt editingId = false ->
    (addDays invoiceDate 30%Z = None ->
     handleSubmitInvoice addDays entries editingId invoiceDate invoiceNum
                         invoiceStatus rows gen = None)
    /\ (forall due,
           addDays invoiceDate 30%Z = Some due ->
           exists inv items (z : Z),
             handleSubmitInvoice addDays entries editingId invoiceDate invoiceNum
                                 invoiceStatus rows gen = Some (entries ++ [inv])
             /\ LedgerEntry.id inv = gen (length rows)
             /\ LedgerEntry.type inv = INVOICE
             /\ LedgerEntry.date inv = invoiceDate
             /\ LedgerEntry.invoiceNo inv = invoiceNum
             /\ LedgerEntry.status inv = Some (statusOf invoiceStatus)
             /\ LedgerEntry.dueDate inv = Some due
             /\ LedgerEntry.originalRefId inv = None
             /\ LedgerEntry.items inv = Some items
             /\ map lineOf items = rows
             /\ (forall (k : nat) it, items !! k = Some it -> InvoiceItem.id it = gen k)
             /\ LedgerEntry.invoiceAmount inv = Some (inject_Z z)
             /\ (rawTotalAmountOf items - (1 # 2) < inject_Z z)%Q
             /\ (inject_Z z <= rawTotalAmountOf items + (1 # 2))%Q
             /\ (forall qps,
                    wholeRows rows qps ->
                    ((sumZ (map (fun qp : Z * Z => (qp.1 * qp.2)%Z) qps) < 2 ^ 53)%Z ->
                     LedgerEntry.invoiceAmount inv
                     = Some (inject_Z
                               (sumZ (map (fun qp : Z * Z => (qp.1 * qp.2)%Z) qps))))
                    /\ ((sumZ (map fst qps) < 2 ^ 53)%Z ->
                        LedgerEntry.quantity inv
                        = Some (inject_Z (sumZ (map fst qps)))))).
Proof.
  intros addDays entries eid invoiceDate invoiceNum st rows gen He.
  unfold handleSubmitInvoice. rewrite He. split.
  - intros ->. reflexivity.
  - intros due ->. cbn [mbind option_bind].
    eexists _, _, _. split; [reflexivity|].
    cbn [newInvoice LedgerEntry.id LedgerEntry.type LedgerEntry.date
         LedgerEntry.invoiceNo LedgerEntry.status LedgerEntry.dueDate
         LedgerEntry.originalRefId LedgerEntry.items LedgerEntry.invoiceAmount
         LedgerEntry.quantity].
    do 8 (split; [reflexivity|]).
    split; [apply lineOf_finalItems|].
    split; [apply finalItemsOf_id|].
    split; [reflexivity|].
    destruct (mathRound_bounds (rawTotalAmountOf (finalItemsOf gen rows))) as [Hlo Hhi].
    split; [exact Hlo|]. split; [exact Hhi|].
    intros qps Hw. split; intros Hsum; f_equal.
    + unfold rawTotalAmountOf. change 0%Q with (inject_Z 0).
      rewrite (rawTotalAmountOf_whole rows qps gen 0%Z Hw) by lia.
      rewrite Z.add_0_l. apply mathRound_Z.
    + unfold totalQuantityOf. change 0%Q with (inject_Z 0).
      rewrite (totalQuantityOf_whole rows qps gen 0%Z Hw) by lia.
      rewrite Z.add_0_l. reflexivity.
Qed.

Lemma mapM_total {A B} (f : A -> option B) (g : A -> B) (l : list A) :
  (forall x, x ∈ l -> f x = Some (g x)) -> mapM f l = Some (map g l).
Proof.
  induction l as [|x l IH]; intros H; [reflexivity|].
  cbn. rewrite (H x) by left. cbn.
  rewrite IH by (intros y Hy; apply H; right; exact Hy). reflexivity.
Qed.

(** The edit branch of [handleSubmitInvoice] once the due date is known. *)
Lemma handleSubmitInvoice_edit addDays (entries : list LedgerEntry.t) id0
    invoiceDate invoiceNum st rows gen due :
  id0 <> "" -> addDays invoiceDate 30%Z = Some due ->
  handleSubmitInvoice addDays entries (Some id0) invoiceDate invoiceNum st rows gen
  = Some (map (fun entry =>
                 if String.eqb (LedgerEntry.id entry) id0
                 then updatedInvoice entry invoiceDate invoiceNum st
                                     (finalItemsOf gen rows) due
                 else entry) entries).
Proof.
  intros Hne Hdue. unfold handleSubmitInvoice. cbn [truthyOpt orEmpty].
  rewrite strOr_empty. apply truthyStr_ne in Hne. rewrite Hne.
  apply mapM_total. intros x _. rewrite Hdue.
  destruct (String.eqb (LedgerEntry.id x) id0); reflexivity.
Qed.

Lemma map_if_id_unique (g : LedgerEntry.t -> LedgerEntry.t)
    (l : list LedgerEntry.t) (i : nat) e :
  NoDup (LedgerEntry.id <$> l) -> l !! i = Some e ->
  map (fun x => if String.eqb (LedgerEntry.id x) (LedgerEntry.id e) then g x else x) l
  = <[i := g e]> l.
Proof.
  intros Hnd Hi. apply list_eq. intros k.
  change (map ?f l) with (f <$> l). rewrite list_lookup_fmap.
  destruct (decide (k = i)) as [->|Hne].
  - rewrite Hi, list_lookup_insert_eq by (eapply lookup_lt_Some, Hi).
    cbn. rewrite String.eqb_refl. reflexivity.
  - rewrite list_lookup_insert_ne by congruence.
    destruct (l !! k) as [x|] eqn:Hk; [|reflexivity]. cbn.
    destruct (String.eqb_spec (LedgerEntry.id x) (LedgerEntry.id e)) as [E|E];
      [|reflexivity].
    exfalso. apply Hne. apply (NoDup_lookup _ _ _ (LedgerEntry.id e) Hnd).
    + rewrite list_lookup_fmap, Hk. cbn. rewrite E. reflexivity.
    + rewrite list_lookup_fmap, Hi. reflexivity.
Qed.

(** X15. Saving the form of an edited invoice rewrites the entries that
    carry the edited identifier and no other: the list keeps its length and
    order, and the rewritten entry keeps its identifier, type, legacy unit
    price, payment and credit-note amounts, notes and its link to the
    invoice it was split from, while date, number, items, totals, due date
    and status come from the form. When no entry carries the identifier the
    list is returned as it was, whether the due date can be computed or
    not; when one does and it cannot, nothing is saved. *)
Theorem X15_invoice_edit_rewrites_one_entry :
  forall addDays (entries : list LedgerEntry.t) (id0 : string)
         (invoiceDate invoiceNum : string) (invoiceStatus : InvoiceStatus)
         (rows : list ItemLine.t) (gen : nat -> string),
    id0 <> "" ->
    (id0 ∉ (LedgerEntry.id <$> entries) ->
     handleSubmitInvoice addDays entries (Some id0) invoiceDate invoiceNum
                         invoiceStatus rows gen = Some entries)
    /\ (addDays invoiceDate 30%Z = None ->
        id0 ∈ (LedgerEntry.id <$> entries) ->
        handleSubmitInvoice addDays entries (Some id0) invoiceDate invoiceNum
                            invoiceStatus rows gen = None)
    /\ (forall due,
           addDays invoiceDate 30%Z = Some due ->
           exists out,
             handleSubmitInvoice addDays entries (Some id0) invoiceDate invoiceNum
                                 invoiceStatus rows gen = Some out
             /\ length out = length entries
             /\ (forall k e,
                    entries !! k = Some e ->
                    exists e',
                      out !! k = Some e'
                      /\ (LedgerEntry.id e <> id0 -> e' = e)
                      /\ (LedgerEntry.id e = id0 ->
                          e' = updatedInvoice e invoiceDate invoiceNum invoiceStatus
                                              (finalItemsOf gen rows) due)
                      /\ LedgerEntry.id e' = LedgerEntry.id e
                      /\ LedgerEntry.type e' = LedgerEntry.type e
                      /\ LedgerEntry.originalRefId e' = LedgerEntry.originalRefId e
                      /\ LedgerEntry.notes e' = LedgerEntry.notes e
                      /\ LedgerEntry.unitPrice e' = LedgerEntry.unitPrice e
                      /\ LedgerEntry.paymentAmount e' = LedgerEntry.paymentAmount e
                      /\ LedgerEntry.cnAmount e' = LedgerEntry.cnAmount e)).
Proof.
  intros addDays entries id0 invoiceDate invoiceNum st rows gen Hne.
  pose proof Hne as Htr. apply truthyStr_ne in Htr.
  split; [|split].
  - intros Hnin. unfold handleSubmitInvoice. cbn [truthyOpt orEmpty].
    rewrite strOr_empty, Htr. rewrite <- (map_id entries) at 2.
    apply mapM_total. intros x Hx.
    destruct (String.eqb_spec (LedgerEntry.id x) id0) as [E|E]; [|reflexivity].
    exfalso. apply Hnin. rewrite <- E. apply list_elem_of_fmap_2, Hx.
  - intros Hdue Hin. unfold handleSubmitInvoice. cbn [truthyOpt orEmpty].
    rewrite strOr_empty, Htr. apply mapM_None, Exists_exists.
    apply list_elem_of_fmap in Hin as (x & Hid & Hx).
    exists x. split; [exact Hx|].
    rewrite <- Hid, String.eqb_refl, Hdue. reflexivity.
  - intros due Hdue.
    rewrite (handleSubmitInvoice_edit addDays entries id0 _ _ _ _ _ due Hne Hdue).
    eexists. split; [reflexivity|]. split; [apply length_map|].
    intros k e Hk. change (map ?f entries) with (f <$> entries).
    rewrite list_lookup_fmap, Hk. cbn [fmap option_fmap option_map].
    eexists. split; [reflexivity|].
    destruct (String.eqb_spec (LedgerEntry.id e) id0) as [E|E];
      repeat split; intros; first [reflexivity | contradiction].
Qed.


(** ** Opening an entry in the form *)

(** X17. Opening an invoice in the edit form and saving it as it stands
    rewrites that invoice in place, with its identifier, date, number, notes
    and split link, and with a status that is PAID when it was PAID and
    PENDING in every other case: an invoice that a credit note had marked
    ADJUSTED is pending again. The form opened on an invoice always has at
    least one row. *)
Theorem X17_saving_an_adjusted_invoice_reopens_it :
  forall addDays (entries : list LedgerEntry.t) (i : nat) (e : LedgerEntry.t)
         (gen : nat -> string) (due : string),
    NoDup (LedgerEntry.id <$> entries) ->
    entries !! i = Some e ->
    LedgerEntry.type e = INVOICE ->
    LedgerEntry.id e <> "" ->
    addDays (LedgerEntry.date e) 30%Z = Some due ->
    exists form e',
      handleEdit e = inl form
      /\ InvoiceForm.newInvoiceItems form <> []
      /\ handleSubmitInvoice addDays entries
           (InvoiceForm.editingId form) (InvoiceForm.invoiceDate form)
           (InvoiceForm.invoiceNum form) (InvoiceForm.invoiceStatus form)
           (InvoiceForm.newInvoiceItems form) gen
         = Some (<[i := e']> entries)
      /\ LedgerEntry.status e'
         = Some (match LedgerEntry.status e with Some PAID => PAID | _ => PENDING end)
      /\ LedgerEntry.id e' = LedgerEntry.id e
      /\ LedgerEntry.type e' = INVOICE
      /\ LedgerEntry.date e' = LedgerEntry.date e
      /\ LedgerEntry.invoiceNo e' = LedgerEntry.invoiceNo e
      /\ LedgerEntry.notes e' = LedgerEntry.notes e
      /\ LedgerEntry.originalRefId e' = LedgerEntry.originalRefId e
      /\ (LedgerEntry.status e = Some ADJUSTED -> isPendingInvoice e' = true).
Proof.
  intros addDays entries i e gen due Hnd Hi Hty Hid Hdue.
  unfold handleEdit. rewrite Hty.
  eexists _, _. split; [reflexivity|].
  cbn [InvoiceForm.newInvoiceItems InvoiceForm.editingId InvoiceForm.invoiceDate
       InvoiceForm.invoiceNum InvoiceForm.invoiceStatus].
  split.
  { destruct (LedgerEntry.items e) as [[|it its]|]; discriminate. }
  split.
  { rewrite (handleSubmitInvoice_edit addDays entries (LedgerEntry.id e) _ _ _ _ _
               due Hid Hdue).
    rewrite (map_if_id_unique
               (fun x => updatedInvoice x (LedgerEntry.date e) (LedgerEntry.invoiceNo e)
                           _ _ due) entries i e Hnd Hi).
    reflexivity. }
  cbn [updatedInvoice LedgerEntry.status LedgerEntry.id LedgerEntry.type
       LedgerEntry.date LedgerEntry.invoiceNo LedgerEntry.notes
       LedgerEntry.originalRefId].
  split; [destruct (LedgerEntry.status e) as [[]|]; reflexivity|].
  do 6 (split; [first [reflexivity | exact Hty]|]).
  intros Hs. unfold isPendingInvoice, isInvoice. cbn. rewrite Hty, Hs. reflexivity.
Qed.

(** ** What the grid shows *)

(** X20. For an invoice saved from a form with at least one row, new or
    edited, the size and pattern columns of the grid show the text stored
    in the legacy size and pattern fields, the sizes and patterns of the
    rows joined by ", "; for a balance invoice they show "Balance Forward"
    and "-". *)
Theorem X20_grid_shows_the_saved_text :
  forall (gen : nat -> string) (rows : list ItemLine.t),
    rows <> [] ->
    (forall newId invoiceDate invoiceNum st due,
        renderSizes (newInvoice newId invoiceDate invoiceNum st
                                (finalItemsOf gen rows) due)
        = String.concat ", " (map ItemLine.size rows)
        /\ LedgerEntry.size (newInvoice newId invoiceDate invoiceNum st
                                        (finalItemsOf gen rows) due)
           = Some (String.concat ", " (map ItemLine.size rows))
        /\ renderPatterns (newInvoice newId invoiceDate invoiceNum st
                                      (finalItemsOf gen rows) due)
           = String.concat ", " (map ItemLine.pattern rows)
        /\ LedgerEntry.pattern (newInvoice newId invoiceDate invoiceNum st
                                           (finalItemsOf gen rows) due)
           = Some (String.concat ", " (map ItemLine.pattern rows)))
    /\ (forall entry invoiceDate invoiceNum st due,
           renderSizes (updatedInvoice entry invoiceDate invoiceNum st
                                       (finalItemsOf gen rows) due)
           = String.concat ", " (map ItemLine.size rows)
           /\ renderPatterns (updatedInvoice entry invoiceDate invoiceNum st
                                             (finalItemsOf gen rows) due)
              = String.concat ", " (map ItemLine.pattern rows))
    /\ (forall tgt balId amt,
           renderSizes (balanceInvoice tgt balId amt) = "Balance Forward"
           /\ renderPatterns (balanceInvoice tgt balId amt) = "-").
Proof.
  intros gen rows Hne.
  assert (Hfi : exists it its, finalItemsOf gen rows = it :: its).
  { destruct rows as [|row rows]; [contradiction|].
    rewrite finalItemsOf_cons. eauto. }
  destruct Hfi as (it & its & Hfi).
  pose proof (map_size_finalItems gen rows) as Hs.
  pose proof (map_pattern_finalItems gen rows) as Hp.
  split; [|split].
  - intros newId d no st due. unfold renderSizes, renderPatterns.
    cbn [newInvoice LedgerEntry.items LedgerEntry.size LedgerEntry.pattern].
    rewrite Hs, Hp, Hfi, <- Hfi, Hs, Hp. auto.
  - intros entry d no st due. unfold renderSizes, renderPatterns.
    cbn [updatedInvoice LedgerEntry.items].
    rewrite Hfi, <- Hfi, Hs, Hp. auto.
  - intros tgt balId amt. split; reflexivity.
Qed.

(** ** The properties on the example ledgers *)

Lemma exEngineLedger_ids_nonempty : "" ∉ (LedgerEntry.id <$> exEngineLedger).
Proof.
  cbn. rewrite !elem_of_cons, elem_of_nil. intros [H|[H|[H|[]]]]; discriminate H.
Qed.

Lemma exEngineLedger_c1_fresh : "c1" ∉ (LedgerEntry.id <$> exEngineLedger).
Proof.
  cbn. rewrite !elem_of_cons, elem_of_nil. intros [H|[H|[H|[]]]]; discriminate H.
Qed.

Lemma exEngineLedger_b1_fresh : "b1" ∉ (LedgerEntry.id <$> exEngineLedger).
Proof.
  cbn. rewrite !elem_of_cons, elem_of_nil. intros [H|[H|[H|[]]]]; discriminate H.
Qed.

Lemma exAfterAdjust_NoDup : NoDup (LedgerEntry.id <$> exAfterAdjust).
Proof. exact (bool_decide_unpack (NoDup (LedgerEntry.id <$> exAfterAdjust)) I). Qed.

Lemma X2_every_month_choice_has_entries_witness :
  "2024-01" ∈ availableMonths exSortLedger
  /\ filteredEntries naturalCompare exSortLedger "2024-01" <> [].
Proof.
  assert (H : "2024-01" ∈ availableMonths exSortLedger) by (vm_compute; left).
  split; [exact H|].
  apply (X2_every_month_choice_has_entries naturalCompare exSortLedger "2024-01" H).
Defined.


Lemma X8_engine_keeps_identifiers_distinct_witness :
  NoDup (LedgerEntry.id <$> exEngineLedger)
  /\ ("c1" ∉ (LedgerEntry.id <$> exEngineLedger))
  /\ ("b1" ∉ (LedgerEntry.id <$> exEngineLedger))
  /\ "c1" <> "b1"
  /\ exists out,
      applyCreditNote isoGetTime formatINR exEngineLedger 400 "2024-01-10"
                      "return" "c1" "b1" = Some out
      /\ NoDup (LedgerEntry.id <$> out).
Proof.
  assert (H : "c1" <> "b1") by discriminate.
  split; [exact exEngineLedger_NoDup|]. split; [exact exEngineLedger_c1_fresh|].
  split; [exact exEngineLedger_b1_fresh|]. split; [exact H|].
  apply (X8_engine_keeps_identifiers_distinct isoGetTime formatINR
           exEngineLedger 400 "2024-01-10" "return" "c1" "b1"
           exEngineLedger_NoDup exEngineLedger_c1_fresh exEngineLedger_b1_fresh H).
Defined.

Lemma X9_pending_total_after_credit_note_witness :
  NoDup (LedgerEntry.id <$> exEngineLedger)
  /\ targetInvoice isoGetTime exEngineLedger = Some (2, exTarget)
  /\ (0 < 400)%Q
  /\ exists out,
      applyCreditNote isoGetTime formatINR exEngineLedger 400 "2024-01-10"
                      "return" "c1" "b1" = Some out
      /\ (pendingTotal out == pendingTotal exEngineLedger - 400)%Q.
Proof.
  assert (Ht : targetInvoice isoGetTime exEngineLedger = Some (2, exTarget))
    by (vm_compute; reflexivity).
  assert (Hpos : (0 < 400)%Q) by reflexivity.
  split; [exact exEngineLedger_NoDup|]. split; [exact Ht|]. split; [exact Hpos|].
  destruct (X9_pending_total_after_credit_note isoGetTime formatINR
              exEngineLedger 400 "2024-01-10" "return" "c1" "b1" 2 exTarget
              exEngineLedger_NoDup Ht Hpos) as (out & Hres & Hpart & _).
  exists out. split; [exact Hres|].
  apply Hpart; [reflexivity| |reflexivity].
  apply Qle_bool_iff. vm_compute. reflexivity.
Defined.

Lemma X11_transaction_edit_rewrites_one_entry_witness :
  "c1" <> ""
  /\ exists out,
      handleSubmitTransaction isoGetTime formatINR exAfterAdjust (Some "c1") T_CN
                              "2024-01-11" 450 "return, corrected" "x1" "x2"
      = Some out
      /\ length out = length exAfterAdjust
      /\ pendingTotal out = pendingTotal exAfterAdjust.
Proof.
  assert (H : "c1" <> "") by discriminate.
  split; [exact H|].
  destruct (X11_transaction_edit_rewrites_one_entry isoGetTime formatINR
              exAfterAdjust "c1" T_CN "2024-01-11" 450 "return, corrected"
              "x1" "x2" H) as (out & Hres & Hlen & _ & Hpend & _).
  exists out. auto.
Defined.

Lemma X14_new_invoice_from_form_witness :
  truthyOpt None = false
  /\ isoAddDays "2024-01-05" 30 = Some "2024-02-04"
  /\ exists inv,
      handleSubmitInvoice isoAddDays exEngineLedger None "2024-01-05" "INV-9"
                          IS_PENDING exRowCents exGen = Some (exEngineLedger ++ [inv])
      /\ LedgerEntry.invoiceAmount inv = Some 61%Q
      /\ LedgerEntry.id inv = "g1".
Proof.
  assert (Hd : isoAddDays "2024-01-05" 30 = Some "2024-02-04") by reflexivity.
  split; [reflexivity|]. split; [exact Hd|].
  destruct (X14_new_invoice_from_form isoAddDays exEngineLedger None "2024-01-05"
              "INV-9" IS_PENDING exRowCents exGen eq_refl) as [_ Hok].
  destruct (Hok "2024-02-04" Hd) as (inv & items & z & Hres & Hid & _).
  exists inv. split; [exact Hres|]. split; [|exact Hid].
  assert (Hinv : inv = newInvoice "g1" "2024-01-05" "INV-9" IS_PENDING
                         (finalItemsOf exGen exRowCents) "2024-02-04").
  { unfold handleSubmitInvoice in Hres. cbn [truthyOpt] in Hres.
    rewrite Hd in Hres. cbn [mbind option_bind] in Hres.
    injection Hres as <-. reflexivity. }
  rewrite Hinv. vm_compute. reflexivity.
Defined.

Lemma X15_invoice_edit_rewrites_one_entry_witness :
  "t2" <> ""
  /\ isoAddDays "2024-02-02" 30 = Some "2024-03-03"
  /\ exists out,
      handleSubmitInvoice isoAddDays exEngineLedger (Some "t2") "2024-02-02"
                          "INV-8" IS_PAID exRows exGen = Some out
      /\ length out = length exEngineLedger.
Proof.
  assert (H : "t2" <> "") by discriminate.
  assert (Hd : isoAddDays "2024-02-02" 30 = Some "2024-03-03") by reflexivity.
  split; [exact H|]. split; [exact Hd|].
  destruct (X15_invoice_edit_rewrites_one_entry isoAddDays exEngineLedger "t2"
              "2024-02-02" "INV-8" IS_PAID exRows exGen H) as (_ & _ & Hok).
  destruct (Hok "2024-03-03" Hd) as (out & Hres & Hlen & _).
  exists out. auto.
Defined.


Lemma X17_saving_an_adjusted_invoice_reopens_it_witness :
  NoDup (LedgerEntry.id <$> exAfterAdjust)
  /\ exAfterAdjust !! 2 = Some (adjust formatINR 400 exTarget)
  /\ LedgerEntry.type (adjust formatINR 400 exTarget) = INVOICE
  /\ LedgerEntry.id (adjust formatINR 400 exTarget) <> ""
  /\ isoAddDays (LedgerEntry.date (adjust formatINR 400 exTarget)) 30
     = Some "2024-02-04"
  /\ exists form e',
      handleEdit (adjust formatINR 400 exTarget) = inl form
      /\ handleSubmitInvoice isoAddDays exAfterAdjust
           (InvoiceForm.editingId form) (InvoiceForm.invoiceDate form)
           (InvoiceForm.invoiceNum form) (InvoiceForm.invoiceStatus form)
           (InvoiceForm.newInvoiceItems form) exGen
         = Some (<[2 := e']> exAfterAdjust)
      /\ isPendingInvoice e' = true.
Proof.
  assert (Hi : exAfterAdjust !! 2 = Some (adjust formatINR 400 exTarget)) by reflexivity.
  assert (Ht : LedgerEntry.type (adjust formatINR 400 exTarget) = INVOICE) by reflexivity.
  assert (Hn : LedgerEntry.id (adjust formatINR 400 exTarget) <> "") by discriminate.
  assert (Hd : isoAddDays (LedgerEntry.date (adjust formatINR 400 exTarget)) 30
               = Some "2024-02-04") by reflexivity.
  split; [exact exAfterAdjust_NoDup|]. split; [exact Hi|]. split; [exact Ht|].
  split; [exact Hn|]. split; [exact Hd|].
  destruct (X17_saving_an_adjusted_invoice_reopens_it isoAddDays exAfterAdjust 2
              (adjust formatINR 400 exTarget) exGen "2024-02-04"
              exAfterAdjust_NoDup Hi Ht Hn Hd)
    as (form & e' & Hform & _ & Hres & _ & _ & _ & _ & _ & _ & _ & Hpend).
  exists form, e'. split; [exact Hform|]. split; [exact Hres|].
  apply Hpend. reflexivity.
Defined.

Lemma X19_deleting_a_credit_note_keeps_its_adjustment_witness :
  NoDup (LedgerEntry.id <$> exEngineLedger)
  /\ ("" ∉ (LedgerEntry.id <$> exEngineLedger))
  /\ ("c1" ∉ (LedgerEntry.id <$> exEngineLedger))
  /\ "c1" <> "b1"
  /\ "c1" <> ""
  /\ exists rest,
      applyCreditNote isoGetTime formatINR exEngineLedger 400 "2024-01-10"
                      "return" "c1" "b1"
      = Some (rest ++ [cnEntry "c1" "2024-01-10" 400 "return"])
      /\ confirmDelete (Some "c1")
           (rest ++ [cnEntry "c1" "2024-01-10" 400 "return"]) = rest.
Proof.
  assert (H1 : "c1" <> "b1") by discriminate.
  assert (H2 : "c1" <> "") by discriminate.
  split; [exact exEngineLedger_NoDup|]. split; [exact exEngineLedger_ids_nonempty|].
  split; [exact exEngineLedger_c1_fresh|]. split; [exact H1|]. split; [exact H2|].
  destruct (X19_deleting_a_credit_note_keeps_its_adjustment isoGetTime formatINR
              exEngineLedger 400 "2024-01-10" "return" "c1" "b1"
              exEngineLedger_NoDup exEngineLedger_ids_nonempty
              exEngineLedger_c1_fresh H1 H2) as (rest & Hres & Hdel & _).
  exists rest. auto.
Defined.

Lemma X20_grid_shows_the_saved_text_witness :
  exRows <> []
  /\ renderSizes (newInvoice "g2" "2024-01-05" "INV-9" IS_PENDING
                             (finalItemsOf exGen exRows) "2024-02-04")
     = "195/55-R16, 100/90-D17".
Proof.
  assert (H : exRows <> []) by discriminate.
  split; [exact H|].
  destruct (X20_grid_shows_the_saved_text exGen exRows H) as (Hnew & _).
  destruct (Hnew "g2" "2024-01-05" "INV-9" IS_PENDING "2024-02-04") as (Hs & _).
  exact Hs.
Defined.

(** ** Two credit notes in a row *)

Lemma targetInvoice_single getTime (l : list LedgerEntry.t) (i : nat) t :
  l !! i = Some t -> isPendingInvoice t = true ->
  (forall j e, l !! j = Some e -> isPendingInvoice e = true -> j = i) ->
  targetInvoice getTime l = Some (i, t).
Proof.
  intros Hi Hp Honly.
  destruct (pending_refs_split l i t Hi Hp) as (before & after & Hsplit & Hb & Ha).
  unfold targetInvoice, pendingInvoices. rewrite Hsplit.
  apply head_jsSort_first_least.
  - intros [j e] Hin. destruct (Hb j e Hin) as (Hlt & Hj & Hpe).
    pose proof (Honly j e Hj Hpe). lia.
  - intros [j e] Hin. destruct (Ha j e Hin) as (Hlt & Hj & Hpe).
    pose proof (Honly j e Hj Hpe). lia.
Qed.

Lemma applyCreditNote_ids_NoDup getTime intlFormat
    (entries : list LedgerEntry.t) a d n cnId balId out :
  NoDup (LedgerEntry.id <$> entries) ->
  cnId ∉ (LedgerEntry.id <$> entries) ->
  balId ∉ (LedgerEntry.id <$> entries) ->
  cnId <> balId ->
  applyCreditNote getTime intlFormat entries a d n cnId balId = Some out ->
  NoDup (LedgerEntry.id <$> out).
Proof.
  intros Hnd Hcn Hbal Hne Hout.
  destruct (applyCreditNote_shape_any getTime intlFormat entries a d n cnId balId)
    as (f & k & extra & Hres & Hf & Hextra).
  rewrite Hres in Hout. injection Hout as <-.
  rewrite !fmap_app, (ids_alter f entries k Hf).
  destruct Hextra as [->|(tgt & amt & _ & _ & ->)]; cbn [fmap list_fmap app].
  - apply NoDup_app. split; [exact Hnd|]. split; [|apply NoDup_singleton].
    intros x Hx Hx'. apply list_elem_of_singleton in Hx'. subst. contradiction.
  - apply NoDup_app. split; [exact Hnd|]. split.
    + intros x Hx Hx'. apply elem_of_cons in Hx' as [->|Hx']; [contradiction|].
      apply list_elem_of_singleton in Hx'. subst. contradiction.
    + apply NoDup_cons. split; [|apply NoDup_singleton].
      intros Hx. apply list_elem_of_singleton in Hx. cbn in Hx. congruence.
Qed.

(** X21. A partial credit note and then a credit note of the balance it
    left settle a ledger that had a single pending invoice: the first marks
    the invoice ADJUSTED and appends a pending balance invoice, the second,
    whose amount is the amount of that balance invoice, finds the balance
    invoice as its target and marks it PAID, and no entry of the final list
    is a pending invoice. *)
Theorem X21_split_then_settle :
  forall getTime intlFormat (entries : list LedgerEntry.t) (amountVal : Q)
         (d1 n1 cn1 bal1 d2 n2 cn2 bal2 : string) (i : nat) target,
    NoDup (LedgerEntry.id <$> entries) ->
    cn1 ∉ (LedgerEntry.id <$> entries) ->
    bal1 ∉ (LedgerEntry.id <$> entries) ->
    cn1 <> bal1 ->
    entries !! i = Some target ->
    isPendingInvoice target = true ->
    (forall j e, entries !! j = Some e -> isPendingInvoice e = true -> j = i) ->
    (0 < amountVal)%Q ->
    (amountVal < orZero (LedgerEntry.invoiceAmount target))%Q ->
    (toDouble (1 # 100)
     <= Qabs (numSub amountVal (orZero (LedgerEntry.invoiceAmount target))))%Q ->
    exists out1 out2,
      applyCreditNote getTime intlFormat entries amountVal d1 n1 cn1 bal1 = Some out1
      /\ applyCreditNote getTime intlFormat out1
           (numSub (orZero (LedgerEntry.invoiceAmount target)) amountVal)
           d2 n2 cn2 bal2
         = Some out2
      /\ length out2 = length entries + 3
      /\ (exists t', out2 !! i = Some t' /\ LedgerEntry.status t' = Some ADJUSTED)
      /\ (exists b, out2 !! length entries = Some b
                    /\ LedgerEntry.originalRefId b = Some (LedgerEntry.id target)
                    /\ LedgerEntry.status b = Some PAID)
      /\ (forall e, e ∈ out2 -> isPendingInvoice e = false).
Proof.
  intros gt fmt entries a d1 n1 cn1 bal1 d2 n2 cn2 bal2 i t
         Hnd Hcn Hbal Hne Hi Hp Honly Hpos Hlt Hfar.
  pose proof (targetInvoice_single gt entries i t Hi Hp Honly) as Ht.
  pose proof (isPendingInvoice_type _ Hp) as Hty.
  set (inv := orZero (LedgerEntry.invoiceAmount t)) in *.
  assert (Hgap : (0 < numSub inv a)%Q).
  { apply (numSub_pos a inv Hlt).
    eapply Qlt_le_trans; [|exact Hfar]. apply Qltb_lt. vm_compute. reflexivity. }
  set (rest := numSub inv a) in *.
  set (bal := balanceInvoice t bal1 rest).
  set (out1 := alter (adjust fmt a) i entries ++ [bal; cnEntry cn1 d1 a n1]).
  assert (H1 : applyCreditNote gt fmt entries a d1 n1 cn1 bal1 = Some out1).
  { rewrite (applyCreditNote_cases gt fmt _ _ _ _ _ _ Hnd), Ht. fold inv.
    apply Qltb_lt in Hpos. rewrite Hpos.
    apply Qltb_ge in Hfar. rewrite Hfar.
    apply Qltb_lt in Hlt. rewrite Hlt. reflexivity. }
  assert (Hlen1 : length (alter (adjust fmt a) i entries) = length entries)
    by apply length_alter.
  assert (Hnotpend : forall (j : nat) e,
             alter (adjust fmt a) i entries !! j = Some e -> isPendingInvoice e = false).
  { intros j e Hj. destruct (decide (j = i)) as [->|Hji].
    - rewrite list_lookup_alter_eq, Hi in Hj. injection Hj as <-.
      apply isPendingInvoice_setStatus. discriminate.
    - rewrite list_lookup_alter_ne in Hj by congruence.
      destruct (isPendingInvoice e) eqn:E; [|reflexivity].
      exfalso. apply Hji. apply (Honly j e Hj E). }
  assert (Hbalp : isPendingInvoice bal = true).
  { unfold isPendingInvoice, isInvoice. cbn. rewrite Hty. reflexivity. }
  assert (Hb1 : out1 !! length entries = Some bal).
  { unfold out1. rewrite lookup_app_r by lia. rewrite Hlen1, Nat.sub_diag. reflexivity. }
  assert (Ht1 : targetInvoice gt out1 = Some (length entries, bal)).
  { apply targetInvoice_single; [exact Hb1|exact Hbalp|].
    intros j e Hj He. unfold out1 in Hj.
    apply lookup_app_Some in Hj as [Hj|[Hge Hj]].
    - rewrite (Hnotpend j e Hj) in He. discriminate.
    - rewrite Hlen1 in Hge, Hj.
      destruct (j - length entries) as [|[|m]] eqn:Em; [lia|..].
      + simpl in Hj. injection Hj as <-. discriminate He.
      + simpl in Hj. discriminate Hj. }
  pose proof (applyCreditNote_ids_NoDup gt fmt entries a d1 n1 cn1 bal1 out1
                Hnd Hcn Hbal Hne H1) as Hnd1.
  set (out2 := alter settle (length entries) out1 ++ [cnEntry cn2 d2 rest n2]).
  assert (H2 : applyCreditNote gt fmt out1 rest d2 n2 cn2 bal2 = Some out2).
  { rewrite (applyCreditNote_cases gt fmt _ _ _ _ _ _ Hnd1), Ht1.
    pose proof Hgap as Hg. apply Qltb_lt in Hg. rewrite Hg.
    assert (Hsame : orZero (LedgerEntry.invoiceAmount bal) = rest).
    { cbn [bal balanceInvoice LedgerEntry.invoiceAmount orZero]. unfold numOr.
      destruct (Qeq_bool rest 0) eqn:E; [|reflexivity].
      apply Qeq_bool_iff in E. rewrite E in Hgap. discriminate Hgap. }
    rewrite Hsame, numSub_diag. reflexivity. }
  exists out1, out2. split; [exact H1|]. split; [exact H2|].
  assert (Hlen : length out1 = length entries + 2).
  { unfold out1. rewrite length_app, Hlen1. reflexivity. }
  split.
  { unfold out2. rewrite length_app, length_alter, Hlen. simpl. lia. }
  pose proof (lookup_lt_Some _ _ _ Hi) as Hilt.
  split.
  { exists (adjust fmt a t). split; [|reflexivity].
    unfold out2. rewrite lookup_app_l by (rewrite length_alter; lia).
    rewrite list_lookup_alter_ne by lia.
    unfold out1. rewrite lookup_app_l by lia.
    rewrite list_lookup_alter_eq, Hi. reflexivity. }
  split.
  { exists (settle bal). split; [|split; reflexivity].
    unfold out2. rewrite lookup_app_l by (rewrite length_alter; lia).
    rewrite list_lookup_alter_eq, Hb1. reflexivity. }
  intros e He. unfold out2 in He.
  apply elem_of_app in He as [He|He].
  - apply list_elem_of_lookup in He as [j Hj].
    destruct (decide (j = length entries)) as [->|Hjl].
    + rewrite list_lookup_alter_eq, Hb1 in Hj. injection Hj as <-.
      apply isPendingInvoice_setStatus. discriminate.
    + rewrite list_lookup_alter_ne in Hj by congruence.
      unfold out1 in Hj. apply lookup_app_Some in Hj as [Hj|[Hge Hj]].
      * apply (Hnotpend j e Hj).
      * rewrite Hlen1 in Hge, Hj.
        destruct (j - length entries) as [|[|m]] eqn:Em; [lia|..].
        -- simpl in Hj. injection Hj as <-. reflexivity.
        -- simpl in Hj. discriminate Hj.
  - apply list_elem_of_singleton in He. subst. reflexivity.
Qed.

Lemma exSingleLedger_NoDup : NoDup (LedgerEntry.id <$> exSingleLedger).
Proof. exact (bool_decide_unpack (NoDup (LedgerEntry.id <$> exSingleLedger)) I). Qed.

Lemma exSingleLedger_fresh x :
  x <> "t0" -> x <> "t1" -> x ∉ (LedgerEntry.id <$> exSingleLedger).
Proof.
  intros H0 H1. cbn. rewrite !elem_of_cons, elem_of_nil.
  intros [H|[H|[]]]; contradiction.
Qed.

Lemma exSingleLedger_only (j : nat) e :
  exSingleLedger !! j = Some e -> isPendingInvoice e = true -> j = 1.
Proof.
  destruct j as [|[|j]]; simpl; intros Hj Hp; try discriminate; [|reflexivity].
  injection Hj as <-. discriminate Hp.
Qed.

Lemma X21_split_then_settle_witness :
  NoDup (LedgerEntry.id <$> exSingleLedger)
  /\ ("c1" ∉ (LedgerEntry.id <$> exSingleLedger))
  /\ ("b1" ∉ (LedgerEntry.id <$> exSingleLedger))
  /\ "c1" <> "b1"
  /\ exSingleLedger !! 1 = Some exTarget
  /\ isPendingInvoice exTarget = true
  /\ (forall (j : nat) e,
         exSingleLedger !! j = Some e -> isPendingInvoice e = true -> j = 1)
  /\ (0 < 40005 # 100)%Q
  /\ (40005 # 100 < orZero (LedgerEntry.invoiceAmount exTarget))%Q
  /\ (toDouble (1 # 100)
      <= Qabs (numSub (40005 # 100) (orZero (LedgerEntry.invoiceAmount exTarget))))%Q
  /\ exists out1 out2,
      applyCreditNote isoGetTime formatINR exSingleLedger (40005 # 100) "2024-01-10"
                      "return" "c1" "b1" = Some out1
      /\ applyCreditNote isoGetTime formatINR out1
           (numSub (orZero (LedgerEntry.invoiceAmount exTarget)) (40005 # 100))
           "2024-01-20" "second return" "c2" "b2" = Some out2
      /\ (forall e, e ∈ out2 -> isPendingInvoice e = false).
Proof.
  assert (Hc : "c1" ∉ (LedgerEntry.id <$> exSingleLedger))
    by (apply exSingleLedger_fresh; discriminate).
  assert (Hb : "b1" ∉ (LedgerEntry.id <$> exSingleLedger))
    by (apply exSingleLedger_fresh; discriminate).
  assert (Hne : "c1" <> "b1") by discriminate.
  assert (H1 : (0 < 40005 # 100)%Q) by reflexivity.
  assert (H2 : (40005 # 100 < orZero (LedgerEntry.invoiceAmount exTarget))%Q)
    by reflexivity.
  assert (H3 : (toDouble (1 # 100)
                <= Qabs (numSub (40005 # 100)
                                (orZero (LedgerEntry.invoiceAmount exTarget))))%Q)
    by (apply Qle_bool_iff; vm_compute; reflexivity).
  split; [exact exSingleLedger_NoDup|]. split; [exact Hc|]. split; [exact Hb|].
  split; [exact Hne|]. split; [reflexivity|]. split; [reflexivity|].
  split; [exact exSingleLedger_only|].
  split; [exact H1|]. split; [exact H2|]. split; [exact H3|].
  destruct (X21_split_then_settle isoGetTime formatINR exSingleLedger (40005 # 100)
              "2024-01-10" "return" "c1" "b1" "2024-01-20" "second return" "c2" "b2"
              1 exTarget exSingleLedger_NoDup Hc Hb Hne eq_refl eq_refl
              exSingleLedger_only H1 H2 H3)
    as (out1 & out2 & Hr1 & Hr2 & _ & _ & _ & Hnone).
  exists out1, out2. auto.
Defined.
